(** * fetch_mzstatic_covers: a shallow embedding and its properties

    The development follows [fetch_mzstatic_covers.py] function by function:
    first the embedding, then the lemmas about it.

    Modelling conventions.
    - A Python [str] is a [string] of ASCII characters; any other code point
      stands as its UTF-8 bytes.  [str.lower] and the classes [\s], [\d]
      and [\w] are given for the ASCII range only: Python's are aware of
      Unicode (they lower-case, and count as letters, digits and white
      space, code points above 127), whereas here a byte from 128 on is
      no letter, no digit and no white space, so that [lower] keeps it
      and [drop_punctuation] deletes it.  The embedding is the code on
      ASCII text; a statement that depends on these functions says so
      with [ascii_text], or is stated for any normaliser.
    - A Python [float] is an exact rational ([Q]); rounding is not
      modelled.  Where a statement compares a score with a constant, it
      leaves the margin [ROUNDING] on either side.  A power
      [backoff ** attempt] is exact and never overflows; the statements
      that depend on it ask for [powers_in_range].  [float(s)] is given
      for plain decimal literals ([plain_retry_after]).
    - The user's interrupt ([KeyboardInterrupt]) enters in two places: as
      the outcome of a request, inside [process_album], and in the pause
      between two albums ([interrupted] of the [Env]).
    - A [dict] is a [gmap].  A catalog record is a [gmap string string] (the
      search endpoint returns string-valued fields); the three scores that
      [best_album_match] stores into the winning record are kept next to it
      in [Scored].
    - Clock, random source, network, file system and console are one
      explicit [World], threaded through a state-and-exception monad; what
      the outside answers is an [Env]. *)

From Stdlib Require Import QArith Qabs Qminmax ZArith Ascii String List Lia.
From Stdlib Require Import DecimalString Lqa Qpower.
From stdpp Require Import base gmap strings list fin_maps sorting.

Open Scope string_scope.
Open Scope list_scope.
Open Scope nat_scope.

(* ================================================================== *)
(** * Text primitives: the [str] methods and [re] pieces the code uses *)
(* ================================================================== *)

Module Text.

Definition code (c : ascii) : nat := nat_of_ascii c.

Definition between (lo hi : nat) (c : ascii) : bool :=
  (lo <=? code c) && (code c <=? hi).

Definition is_upper (c : ascii) : bool := between 65 90 c.
Definition is_lower (c : ascii) : bool := between 97 122 c.

(** [\d], on ASCII *)
Definition is_digit (c : ascii) : bool := between 48 57 c.

(** [\s] and [str.isspace], on ASCII: TAB, LF, VT, FF, CR, FS, GS, RS,
    US, SPACE *)
Definition is_space (c : ascii) : bool := between 9 13 c || between 28 32 c.

(** [\w], on ASCII *)
Definition is_word (c : ascii) : bool :=
  is_upper c || is_lower c || is_digit c || (code c =? 95).

Definition lower_char (c : ascii) : ascii :=
  if is_upper c then ascii_of_nat (code c + 32) else c.

(** [s.lower()], on ASCII; a byte from 128 on is kept *)
Fixpoint lower (s : string) : string :=
  match s with
  | EmptyString => EmptyString
  | String c s' => String (lower_char c) (lower s')
  end.

(** equality of two characters under [re.IGNORECASE] *)
Definition eq_ci (c d : ascii) : bool :=
  Ascii.eqb (lower_char c) (lower_char d).

Fixpoint lstrip (s : string) : string :=
  match s with
  | EmptyString => EmptyString
  | String c s' => if is_space c then lstrip s' else s
  end.

Definition rstrip (s : string) : string :=
  String.rev (lstrip (String.rev s)).

(** [s.strip()] *)
Definition strip (s : string) : string := rstrip (lstrip s).

(** [re.sub(r"\s+", " ", s)]: every maximal run of white space becomes one
    space.  [in_run] tells that the previous character was white space, so
    the replacement has been emitted already. *)
Fixpoint collapse_spaces_from (in_run : bool) (s : string) : string :=
  match s with
  | EmptyString => EmptyString
  | String c s' =>
      if is_space c
      then if in_run then collapse_spaces_from true s'
           else String " " (collapse_spaces_from true s')
      else String c (collapse_spaces_from false s')
  end.

Definition collapse_spaces (s : string) : string :=
  collapse_spaces_from false s.

(** [re.sub(r"[^\w\s]", "", s)], on ASCII; a byte from 128 on is
    deleted *)
Fixpoint drop_punctuation (s : string) : string :=
  match s with
  | EmptyString => EmptyString
  | String c s' =>
      if is_word c || is_space c
      then String c (drop_punctuation s')
      else drop_punctuation s'
  end.

(** [needle in s] *)
Fixpoint contains (needle s : string) : bool :=
  String.prefix needle s ||
  match s with
  | EmptyString => false
  | String _ s' => contains needle s'
  end.

(** [s.endswith(suffix)] *)
Definition endswith (s suffix : string) : bool :=
  String.prefix (String.rev suffix) (String.rev s).

(** the longest prefix of [s] whose characters satisfy [p], and the rest:
    what a greedy [\d+] or [\s*] consumes *)
Fixpoint span (p : ascii -> bool) (s : string) : string * string :=
  match s with
  | EmptyString => (EmptyString, EmptyString)
  | String c s' =>
      if p c then let '(run, rest) := span p s' in (String c run, rest)
      else (EmptyString, s)
  end.

(** a literal of the pattern at the head of [s], compared under
    [re.IGNORECASE]: the text it matched and the rest *)
Fixpoint eat_ci (lit s : string) : option (string * string) :=
  match lit, s with
  | EmptyString, _ => Some (EmptyString, s)
  | String l lit', String c s' =>
      if eq_ci l c
      then match eat_ci lit' s' with
           | Some (m, rest) => Some (String c m, rest)
           | None => None
           end
      else None
  | String _ _, EmptyString => None
  end.

(** one given character at the head of [s]: the rest *)
Definition eat_char (c : ascii) (s : string) : option string :=
  match s with
  | String d s' => if Ascii.eqb c d then Some s' else None
  | EmptyString => None
  end.

Definition LF : ascii := ascii_of_nat 10.

(** [$] without [re.MULTILINE]: the end of the string, or just before a
    newline that ends the string *)
Definition at_end (s : string) : bool :=
  match s with
  | EmptyString => true
  | String c EmptyString => Ascii.eqb c LF
  | _ => false
  end.

(** [\d{lo,hi}] where the pattern goes on with something that is not a
    digit: the whole run of digits, which must have [lo] to [hi] of them *)
Definition digits_between (lo hi : nat) (s : string)
  : option (string * string) :=
  let '(ds, rest) := span is_digit s in
  if (lo <=? String.length ds) && (String.length ds <=? hi)
  then Some (ds, rest) else None.

(** [\d+] in the same position *)
Definition digits1 (s : string) : option (string * string) :=
  let '(ds, rest) := span is_digit s in
  match ds with
  | EmptyString => None
  | _ => Some (ds, rest)
  end.

(** the value of a run of decimal digits *)
Definition digit_value (c : ascii) : nat := code c - 48.

Fixpoint decimal_from (acc : nat) (s : string) : nat :=
  match s with
  | EmptyString => acc
  | String c s' => decimal_from (10 * acc + digit_value c) s'
  end.

Definition decimal (s : string) : nat := decimal_from 0 s.

End Text.

(* ================================================================== *)
(** * [difflib.SequenceMatcher(None, a, b).ratio()]

    The matcher of the Python standard library, for [isjunk=None] and the
    default [autojunk=True], which is how [similarity] calls it. *)
(* ================================================================== *)

Module difflib.

(** a matching block [Match(a=i, b=j, size=k)] *)
Definition Match : Type := nat * nat * nat.

(** the order of tuples, which [matching_blocks.sort()] uses *)
Definition Match_le (x y : Match) : Prop :=
  let '(i1, j1, k1) := x in
  let '(i2, j2, k2) := y in
  i1 < i2 ∨ (i1 = i2 ∧ (j1 < j2 ∨ (j1 = j2 ∧ k1 ≤ k2))).

#[global] Instance Match_le_dec : RelDecision Match_le.
Proof. intros [[i1 j1] k1] [[i2 j2] k2]. unfold Match_le. apply _. Defined.

Section SequenceMatcher.
Context {A : Type} `{Countable A}.
Variables a b : list A.

(** [__chain_b], first loop: [b2j[elt]] lists the positions of [elt] in
    [b], in increasing order. *)
Fixpoint chain_loop (i : nat) (rest : list A) (b2j : gmap A (list nat))
  : gmap A (list nat) :=
  match rest with
  | [] => b2j
  | elt :: rest' =>
      chain_loop (S i) rest' (<[elt := default [] (b2j !! elt) ++ [i]]> b2j)
  end.

(** [__chain_b], last loop: with [autojunk] and [len(b) >= 200], the
    elements that occur more than [n // 100 + 1] times are purged.
    ([isjunk] is [None], so [bjunk] stays empty.) *)
Definition b2j : gmap A (list nat) :=
  let full := chain_loop 0 b ∅ in
  let n := length b in
  if 200 <=? n
  then filter (λ kv : A * list nat, length kv.2 ≤ n / 100 + 1) full
  else full.

Section find_longest_match.
Variables alo ahi blo bhi : nat.

(** the inner loop [for j in b2j.get(a[i], nothing)].  [j2len.get(j-1, 0)]
    is [0] at [j = 0]: there is no key [-1]. *)
Fixpoint scan_row (i : nat) (j2len : gmap nat nat) (js : list nat)
    (best : Match) (newj2len : gmap nat nat) : Match * gmap nat nat :=
  match js with
  | [] => (best, newj2len)
  | j :: js' =>
      if j <? blo then scan_row i j2len js' best newj2len
      else if bhi <=? j then (best, newj2len)
      else
        let k := S (match j with
                    | O => 0
                    | S j' => default 0 (j2len !! j')
                    end) in
        let best' :=
          if best.2 <? k then (i + 1 - k, j + 1 - k, k) else best in
        scan_row i j2len js' best' (<[j := k]> newj2len)
  end.

(** the outer loop [for i in range(alo, ahi)] *)
Fixpoint scan_rows (rows : list nat) (best : Match) (j2len : gmap nat nat)
  : Match :=
  match rows with
  | [] => best
  | i :: rows' =>
      let js := match a !! i with
                | Some x => default [] (b2j !! x)
                | None => []
                end in
      let '(best', newj2len) := scan_row i j2len js best ∅ in
      scan_rows rows' best' newj2len
  end.

(** [a[i] == b[j]] *)
Definition same_elt (i j : nat) : bool :=
  match a !! i, b !! j with
  | Some x, Some y => bool_decide (x = y)
  | _, _ => false
  end.

(** first [while]: extend the match to the left *)
Fixpoint extend_left (besti bestj bestsize : nat) : Match :=
  match besti, bestj with
  | S i', S j' =>
      if (alo <? besti) && (blo <? bestj) && same_elt i' j'
      then extend_left i' j' (S bestsize)
      else (besti, bestj, bestsize)
  | _, _ => (besti, bestj, bestsize)
  end.

(** second [while]: extend the match to the right.  [room] counts the
    positions of [a] left below [ahi]; when it reaches [0] the loop
    condition [besti+bestsize < ahi] is false. *)
Fixpoint extend_right (room besti bestj bestsize : nat) : nat :=
  match room with
  | O => bestsize
  | S room' =>
      if (besti + bestsize <? ahi) && (bestj + bestsize <? bhi)
         && same_elt (besti + bestsize) (bestj + bestsize)
      then extend_right room' besti bestj (S bestsize)
      else bestsize
  end.

(** The two last [while] loops of the original extend the match over junk
    elements only, and there are none. *)
Definition find_longest_match : Match :=
  let '(besti, bestj, bestsize) :=
    scan_rows (seq alo (ahi - alo)) (alo, blo, 0) ∅ in
  let '(besti, bestj, bestsize) := extend_left besti bestj bestsize in
  (besti, bestj, extend_right (ahi - (besti + bestsize)) besti bestj bestsize).

End find_longest_match.

(** the work-list loop of [get_matching_blocks]; the head of [queue] is
    the end of the Python list, where [pop] and [append] work *)
Fixpoint blocks_loop (fuel : nat) (queue : list (nat * nat * nat * nat))
    (matching_blocks : list Match) : list Match :=
  match queue, fuel with
  | [], _ => matching_blocks
  | _, O => matching_blocks
  | (alo, ahi, blo, bhi) :: queue', S fuel' =>
      let '(i, j, k) := find_longest_match alo ahi blo bhi in
      if k =? 0 then blocks_loop fuel' queue' matching_blocks
      else
        let q1 := if (alo <? i) && (blo <? j)
                  then (alo, i, blo, j) :: queue' else queue' in
        let q2 := if (i + k <? ahi) && (j + k <? bhi)
                  then (i + k, ahi, j + k, bhi) :: q1 else q1 in
        blocks_loop fuel' q2 (matching_blocks ++ [(i, j, k)])
  end.

(** the loop that merges adjacent blocks; [cur] is [(i1, j1, k1)] *)
Fixpoint collapse (cur : Match) (blocks non_adjacent : list Match)
  : list Match :=
  let '(i1, j1, k1) := cur in
  match blocks with
  | [] => if k1 =? 0 then non_adjacent else non_adjacent ++ [(i1, j1, k1)]
  | (i2, j2, k2) :: blocks' =>
      if (i1 + k1 =? i2) && (j1 + k1 =? j2)
      then collapse (i1, j1, k1 + k2) blocks' non_adjacent
      else collapse (i2, j2, k2) blocks'
             (if k1 =? 0 then non_adjacent
              else non_adjacent ++ [(i1, j1, k1)])
  end.

(** Every pass of the work-list loop pops one region, and a region is
    split only after it gave a block of at least one element, so
    [len(a) + len(b) + 1] passes empty the list. *)
Definition get_matching_blocks : list Match :=
  let la := length a in
  let lb := length b in
  let matching_blocks :=
    merge_sort Match_le (blocks_loop (la + lb + 1) [(0, la, 0, lb)] []) in
  collapse (0, 0, 0) matching_blocks [] ++ [(la, lb, 0)].

(** [_calculate_ratio] *)
Definition calculate_ratio (matches length : nat) : Q :=
  if length =? 0 then 1%Q
  else (2 * Z.of_nat matches # Pos.of_nat length)%Q.

Definition ratio : Q :=
  calculate_ratio (sum_list (map snd get_matching_blocks))
                  (length a + length b).

End SequenceMatcher.

End difflib.

(* ================================================================== *)
(** * Text matcher *)
(* ================================================================== *)

(** on ASCII text, as the character classes are *)
Definition normalize_text (s : string) : string :=
  let s := Text.strip (Text.lower s) in
  let s := Text.collapse_spaces s in
  Text.drop_punctuation s.

Definition similarity (a b : string) : Q :=
  let a_n := normalize_text a in
  let b_n := normalize_text b in
  difflib.ratio (list_ascii_of_string a_n) (list_ascii_of_string b_n).

(* ================================================================== *)
(** * Match selector *)
(* ================================================================== *)

(** a record of the result list, as the JSON object it is *)
Abbreviation Record_ := (gmap string string).

(** a record with the keys [_score], [_alb_score] and [_art_score] that
    [best_album_match] has set on it *)
Record Scored : Type := mkScored {
  fields : Record_;
  _score : Q;
  _alb_score : Q;
  _art_score : Q
}.

Definition Qlt_bool (x y : Q) : bool := negb (Qle_bool y x).

Definition kind_ok (r : Record_) : bool :=
  bool_decide (r !! "collectionType" = Some "Album")
  || bool_decide (r !! "wrapperType" = Some "collection").

Definition entity_ok (r : Record_) : bool :=
  bool_decide (is_Some (r !! "collectionName"))
  && bool_decide (is_Some (r !! "artistName"))
  && bool_decide (is_Some (r !! "artworkUrl100")).

Definition alb_score_of (album : string) (r : Record_) : Q :=
  similarity album (default "" (r !! "collectionName")).

Definition art_score_of (artist : string) (r : Record_) : Q :=
  similarity artist (default "" (r !! "artistName")).

(** [0.7 * alb_score + 0.3 * art_score] *)
Definition score_of (artist album : string) (r : Record_) : Q :=
  ((7 # 10) * alb_score_of album r + (3 # 10) * art_score_of artist r)%Q.

(** one pass of the loop over [results]; the state is [(best, best_score)].
    The scores are exact, where the code has rounded doubles. *)
Definition match_step (artist album : string)
    (st : option Scored * Q) (r : Record_) : option Scored * Q :=
  let '(best, best_score) := st in
  if negb (kind_ok r && entity_ok r) then st
  else
    let alb_score := alb_score_of album r in
    let art_score := art_score_of artist r in
    let score := ((7 # 10) * alb_score + (3 # 10) * art_score)%Q in
    if Qlt_bool best_score score
       || (Qlt_bool (Qabs (score - best_score)) (1 # 1000000)
           && Qlt_bool (from_option _alb_score 0%Q best) alb_score)
    then (Some (mkScored r score alb_score art_score), score)
    else st.

Definition best_album_match (results : list Record_) (artist album : string)
    (min_score : Q) : option Scored :=
  let '(best, best_score) :=
    foldl (match_step artist album) (None, (-1)%Q) results in
  match best with
  | Some b => if Qle_bool min_score best_score then Some b else None
  | None => None
  end.

(* ================================================================== *)
(** * Artwork URL expander *)
(* ================================================================== *)

Definition PROBE_SIZES : list string :=
  [ "100000x100000"; "20000x20000"; "10000x10000"; "8000x8000";
    "6000x6000"; "5000x5000"; "4000x4000"; "3000x3000"; "2500x2500";
    "2000x2000"; "1500x1500"; "1200x1200"; "1000x1000"; "800x800";
    "600x600" ].

(** what [re.search] found: the text before the match and the groups 1
    to 4 *)
Record SizeMatch : Type := mkSizeMatch {
  before : string;
  group1 : string;
  group2 : string;
  group3 : string;
  group4 : string
}.

(** [(-\d+)?] *)
Definition quality_group (s : string) : option (string * string) :=
  match Text.eat_char "-" s with
  | Some t => '(ds, rest) ← Text.digits1 t; Some (String "-" ds, rest)
  | None => Some ("", s)
  end.

(** [(jpg|png)] *)
Definition extension_group (s : string) : option (string * string) :=
  match Text.eat_ci "jpg" s with
  | Some r => Some r
  | None => Text.eat_ci "png" s
  end.

(** the pattern [/(\d{2,5}x\d{2,5})(bb)?(-\d+)?\.(jpg|png)$] under
    [re.IGNORECASE], tried at the head of [s].  No item of the pattern can
    start where the item before it could have stopped earlier (a digit run
    is followed by [x], [b], [-] or [.]; [bb] and [-] cannot be a [.]), so
    each item takes all it can and no backtracking is left to model. *)
Definition match_size_segment (s : string)
  : option (string * string * string * string) :=
  s1 ← Text.eat_char "/" s;
  '(w, s2) ← Text.digits_between 2 5 s1;
  '(x, s3) ← Text.eat_ci "x" s2;
  '(h, s4) ← Text.digits_between 2 5 s3;
  let '(bb, s5) := default ("", s4) (Text.eat_ci "bb" s4) in
  '(q, s6) ← quality_group s5;
  s7 ← Text.eat_char "." s6;
  '(ext, s8) ← extension_group s7;
  if Text.at_end s8 then Some (w +:+ x +:+ h, bb, q, ext) else None.

(** [re.search]: the leftmost position where the pattern matches *)
Fixpoint search_size_segment (s : string) : option SizeMatch :=
  match match_size_segment s with
  | Some (g1, g2, g3, g4) => Some (mkSizeMatch "" g1 g2 g3 g4)
  | None =>
      match s with
      | EmptyString => None
      | String c s' =>
          m ← search_size_segment s';
          Some (mkSizeMatch (String c (before m))
                  (group1 m) (group2 m) (group3 m) (group4 m))
      end
  end.

Definition build_upscaled_urls (artwork_url : string) : list string :=
  match search_size_segment artwork_url with
  | None =>
      let ext :=
        if Text.endswith (Text.lower artwork_url) ".png" then "png"
        else "jpg" in
      map (λ sz, artwork_url +:+ "/" +:+ sz +:+ "." +:+ ext) PROBE_SIZES
  | Some m =>
      let bb := group2 m in
      let q := group3 m in
      let ext := group4 m in
      let prefix := before m in
      map (λ sz, prefix +:+ "/" +:+ sz +:+ bb +:+ q +:+ "." +:+ ext)
          PROBE_SIZES
  end.

Definition derive_extension_from_content_type (ct : string) : string :=
  let ct := Text.lower ct in
  if Text.contains "png" ct then ".png" else ".jpg".

(* ================================================================== *)
(** * Disc-folder names *)
(* ================================================================== *)

(** [\s*] then what [k] reads *)
Definition after_spaces {T} (k : string -> option T) (s : string)
  : option T :=
  k (Text.span Text.is_space s).2.

(** [\d+$] *)
Definition number_end (s : string) : option unit :=
  '(_, rest) ← Text.digits1 s;
  if Text.at_end rest then Some () else None.

(** [\[\d+\]$] *)
Definition bracket_number_end (s : string) : option unit :=
  t ← Text.eat_char "[" s;
  '(_, rest) ← Text.digits1 t;
  rest' ← Text.eat_char "]" rest;
  if Text.at_end rest' then Some () else None.

(** a literal, under [re.IGNORECASE], then what [k] reads *)
Definition after_word {T} (lit : string) (k : string -> option T)
    (s : string) : option T :=
  '(_, rest) ← Text.eat_ci lit s; k rest.

(** [DISC_FOLDER_PATTERNS]; each pattern starts with [^], so [search]
    tries it at the start of the name only *)
Definition DISC_FOLDER_PATTERNS : list (string -> option unit) :=
  [ after_word "CD" (after_spaces number_end);
    after_word "Disc" (after_spaces number_end);
    after_word "Digital"
      (after_spaces (after_word "Media" (after_spaces number_end)));
    after_word "Digital"
      (after_spaces (after_word "Media" (after_spaces bracket_number_end)));
    bracket_number_end ].

Definition is_disc_subfolder (name : string) : bool :=
  let name := Text.strip name in
  existsb (λ p, bool_decide (is_Some (p name))) DISC_FOLDER_PATTERNS.

(* ================================================================== *)
(** * The outside world *)
(* ================================================================== *)

(** the exceptions that reach the code *)
Inductive Exc : Type :=
| Timeout                  (* requests.Timeout *)
| ConnectionError          (* requests.ConnectionError *)
| HTTPError (status : Z)   (* what raise_for_status raises *)
| RequestException         (* any other requests.RequestException *)
| ValueError               (* time.sleep of a negative number *)
| OSError                  (* the file system refuses *)
| KeyboardInterrupt.

#[global] Instance Exc_eq_dec : EqDecision Exc.
Proof. solve_decision. Defined.

(** [isinstance(e, requests.RequestException)] *)
Definition is_RequestException (e : Exc) : bool :=
  match e with
  | Timeout | ConnectionError | HTTPError _ | RequestException => true
  | _ => false
  end.

(** [isinstance(e, Exception)]: all but [KeyboardInterrupt] *)
Definition is_Exception (e : Exc) : bool :=
  match e with
  | KeyboardInterrupt => false
  | _ => true
  end.

(** [str(e)] *)
Definition str_of_exc (e : Exc) : string :=
  match e with
  | Timeout => "Timeout"
  | ConnectionError => "ConnectionError"
  | HTTPError st => NilZero.string_of_int (Z.to_int st) +:+ " Error"
  | RequestException => "RequestException"
  | ValueError => "sleep length must be non-negative"
  | OSError => "OSError"
  | KeyboardInterrupt => ""
  end.

Abbreviation Path := (list string).

Inductive Node : Type :=
| Dir
| File (data : string).

#[global] Instance Node_eq_dec : EqDecision Node.
Proof. solve_decision. Defined.

Record Request : Type := mkRequest {
  url : string;
  params : gmap string string;
  request_timeout : Z
}.

Record Response : Type := mkResponse {
  status_code : Z;
  headers : gmap string string;
  (** [r.json().get("results")] *)
  json_results : option (list Record_);
  (** what [iter_content] delivers, and the exception that ends the
      stream early, if one does *)
  content : string;
  stream_error : option Exc
}.

(** What the outside does: the reply to the [n]-th request of the run
    and the time it takes, the [n]-th value of [random.random()], and
    whether the user interrupts the run during the pause that follows
    the [n]-th album.  (An interrupt during the work on an album enters
    as the reply [KeyboardInterrupt] of a request.) *)
Record Env : Type := mkEnv {
  serve : nat -> Request -> Exc + Response;
  latency : nat -> Q;
  random : nat -> Q;
  interrupted : nat -> bool
}.

Record World : Type := mkWorld {
  (** [time.monotonic()]; the clock is kept in lowest terms *)
  now : Q;
  (** the arguments of [time.sleep], oldest first *)
  slept : list Q;
  (** how many random numbers were drawn *)
  draws : nat;
  (** the requests sent, oldest first *)
  sent : list Request;
  (** [Pacer._last] *)
  pacer_last : gmap string Q;
  files : gmap Path Node;
  stdout : list string;
  stderr : list string
}.

Inductive Result (T : Type) : Type :=
| Ok (x : T)
| Raised (e : Exc).
Arguments Ok {T} x.
Arguments Raised {T} e.

(** computations that read and change the world and may raise *)
Definition M (T : Type) : Type := World -> Result T * World.

Definition ret {T} (x : T) : M T := λ w, (Ok x, w).

Definition bind {T U} (m : M T) (f : T -> M U) : M U := λ w,
  match m w with
  | (Ok x, w') => f x w'
  | (Raised e, w') => (Raised e, w')
  end.

Notation "'let*' x := m 'in' k" := (bind m (λ x, k))
  (at level 10, x name, m at level 100, k at level 200).
Notation "m ;; k" := (bind m (λ _, k))
  (at level 100, k at level 200, right associativity).

Definition raise {T} (e : Exc) : M T := λ w, (Raised e, w).

(** [try: m except ...]: [clauses e] is the body of the first [except]
    clause that takes [e], if one does.  An exception raised inside a
    clause is not offered to the clauses after it. *)
Definition try_except {T} (m : M T) (clauses : Exc -> option (M T))
  : M T := λ w,
  match m w with
  | (Ok x, w') => (Ok x, w')
  | (Raised e, w') =>
      match clauses e with
      | Some h => h w'
      | None => (Raised e, w')
      end
  end.

(** how a loop body ends: [return x], or on to the next round with the
    loop's variables *)
Inductive Flow (S T : Type) : Type :=
| Return (x : T)
| Continue (s : S).
Arguments Return {S T} x.
Arguments Continue {S T} s.

Section Effects.
Variable env : Env.

Definition monotonic : M Q := λ w, (Ok (now w), w).

(** [time.sleep(secs)]; it is not interrupted here (the pause of the loop
    of [main], which can be, is [pause]) *)
Definition sleep (secs : Q) : M unit := λ w,
  if Qlt_bool secs 0 then (Raised ValueError, w)
  else (Ok (),
        mkWorld (Qred (now w + secs)) (slept w ++ [secs]) (draws w) (sent w)
                (pacer_last w) (files w) (stdout w) (stderr w)).

(** [random.uniform(lo, hi)], which is [lo + (hi - lo) * random()] *)
Definition uniform (lo hi : Q) : M Q := λ w,
  (Ok (lo + (hi - lo) * random env (draws w))%Q,
   mkWorld (now w) (slept w) (S (draws w)) (sent w)
           (pacer_last w) (files w) (stdout w) (stderr w)).

(** [session.get] *)
Definition session_get (req : Request) : M Response := λ w,
  let n := length (sent w) in
  let w' := mkWorld (Qred (now w + latency env n)) (slept w) (draws w)
                    (sent w ++ [req]) (pacer_last w) (files w)
                    (stdout w) (stderr w) in
  match serve env n req with
  | inl e => (Raised e, w')
  | inr r => (Ok r, w')
  end.

Definition print (line : string) : M unit := λ w,
  (Ok (),
   mkWorld (now w) (slept w) (draws w) (sent w) (pacer_last w) (files w)
           (stdout w ++ [line]) (stderr w)).

Definition print_stderr (line : string) : M unit := λ w,
  (Ok (),
   mkWorld (now w) (slept w) (draws w) (sent w) (pacer_last w) (files w)
           (stdout w) (stderr w ++ [line])).

Definition get_files : M (gmap Path Node) := λ w, (Ok (files w), w).

Definition set_files (fs : gmap Path Node) : M unit := λ w,
  (Ok (),
   mkWorld (now w) (slept w) (draws w) (sent w) (pacer_last w) fs
           (stdout w) (stderr w)).

(* ------------------------------------------------------------------ *)
(** ** [class Pacer] *)
(* ------------------------------------------------------------------ *)

Definition Pacer_wait (key : string) (min_interval jitter : Q) : M unit :=
  let* t := monotonic in
  let* last := (λ w, (Ok (default 0%Q (pacer_last w !! key)), w)) in
  let to_wait := Qmax 0 (min_interval - (t - last)) in
  if Qlt_bool 0 to_wait then
    let* extra := (if Qlt_bool 0 jitter then uniform 0 jitter
                   else ret 0%Q) in
    sleep (to_wait + extra)
  else ret ().

Definition Pacer_mark (key : string) : M unit :=
  let* t := monotonic in
  λ w, (Ok (),
        mkWorld (now w) (slept w) (draws w) (sent w)
                (<[key := t]> (pacer_last w)) (files w) (stdout w) (stderr w)).

End Effects.
(* ================================================================== *)
(** * Catalog client *)
(* ================================================================== *)

Definition ITUNES_SEARCH_URL : string := "https://itunes.apple.com/search".

(** [float(s)] on a decimal literal: optional sign, digits with an
    optional fraction, white space around it.  The other spellings that
    Python reads (exponents, [inf], [nan], underscores) are not decimal
    literals of this form and are left out: they give [None] here. *)
Definition float (s : string) : option Q :=
  let s := Text.strip s in
  let '(sign, s) :=
    match Text.eat_char "-" s, Text.eat_char "+" s with
    | Some t, _ => ((-1)%Q, t)
    | None, Some t => (1%Q, t)
    | None, None => (1%Q, s)
    end in
  let '(ip, rest) := Text.span Text.is_digit s in
  match rest, Text.eat_char "." rest with
  | EmptyString, _ =>
      match ip with
      | EmptyString => None
      | _ => Some (sign * inject_Z (Z.of_nat (Text.decimal ip)))%Q
      end
  | _, Some fr =>
      let '(fp, rest') := Text.span Text.is_digit fr in
      match rest', (ip +:+ fp) with
      | EmptyString, String _ _ =>
          Some (sign * (inject_Z (Z.of_nat (Text.decimal ip))
                        + (Z.of_nat (Text.decimal fp)
                           # Pos.of_nat (10 ^ String.length fp))))%Q
      | _, _ => None
      end
  | _, None => None
  end.

(** [r.status_code in (403, 429) or 500 <= r.status_code < 600] *)
Definition retryable (st : Z) : bool :=
  (st =? 403)%Z || (st =? 429)%Z || ((500 <=? st)%Z && (st <? 600)%Z).

(** the delay of a retryable response: the [Retry-After] header when it
    is there, not empty and a number, else [backoff ** attempt] (exact
    here; the code raises [OverflowError] when the power leaves the range
    of floats) *)
Definition retry_delay (r : Response) (backoff : Q) (attempt : nat) : Q :=
  match headers r !! "Retry-After" with
  | Some (String c s as retry_after) =>
      match float retry_after with
      | Some delay => delay
      | None => (backoff ^ Z.of_nat attempt)%Q
      end
  | _ => (backoff ^ Z.of_nat attempt)%Q
  end.

(** [r.raise_for_status()] *)
Definition raise_for_status (r : Response) : M unit :=
  if (400 <=? status_code r)%Z && (status_code r <? 600)%Z
  then raise (HTTPError (status_code r))
  else ret ().

Section Client.
Variable env : Env.

Variables (timeout : Z) (api_interval cdn_interval : Q)
          (max_retries : Z) (backoff jitter : Q).

(** [time.sleep(min(cap, delay) + random.uniform(0.0, max(0.05, jitter)))] *)
Definition backoff_sleep (cap delay : Q) : M unit :=
  let* u := uniform env 0 (Qmax (5 # 100) jitter) in
  sleep (Qmin cap delay + u).

(** the body of the loop of [api_search_with_retries]; the loop variable
    it hands on is [last_exc] *)
Definition api_attempt (params : gmap string string)
    (last_exc : option Exc) (attempt : nat)
  : M (Flow (option Exc) (list Record_)) :=
  let key := "itunes_api" in
  Pacer_wait env key api_interval (jitter * (1 # 2));;
  try_except
    (let* r := session_get env (mkRequest ITUNES_SEARCH_URL params timeout) in
     Pacer_mark key;;
     if (status_code r =? 200)%Z
     then ret (Return (default [] (json_results r)))
     else if retryable (status_code r)
     then backoff_sleep 30 (retry_delay r backoff attempt);;
          ret (Continue last_exc)
     else raise_for_status r;;
          ret (Return []))
    (λ e, match e with
          | Timeout | ConnectionError =>
              Some (backoff_sleep 30 (backoff ^ Z.of_nat attempt);;
                    ret (Continue (Some e)))
          | _ => None
          end).

Fixpoint api_loop (params : gmap string string) (last_exc : option Exc)
    (attempts : list nat) : M (list Record_) :=
  match attempts with
  | [] =>
      match last_exc with
      | Some e => raise e
      | None => ret []
      end
  | attempt :: attempts' =>
      let* flow := api_attempt params last_exc attempt in
      match flow with
      | Return results => ret results
      | Continue last_exc' => api_loop params last_exc' attempts'
      end
  end.

Definition api_search_with_retries (params : gmap string string)
  : M (list Record_) :=
  api_loop params None (seq 0 (Z.to_nat max_retries)).

(* ------------------------------------------------------------------ *)
(** ** CDN prober *)
(* ------------------------------------------------------------------ *)

(** the body of the loop of [request_cdn_stream].  (Closing a response
    gives its connection back and changes nothing that is modelled.) *)
Definition cdn_attempt (url : string) (attempt : nat)
  : M (Flow unit (option Response)) :=
  let key := "mzstatic_cdn" in
  Pacer_wait env key cdn_interval jitter;;
  try_except
    (let* r := session_get env (mkRequest url ∅ timeout) in
     Pacer_mark key;;
     let st := status_code r in
     if (st =? 200)%Z then
       let ct := Text.lower (default "" (headers r !! "Content-Type")) in
       if Text.contains "image" ct then ret (Return (Some r))
       else ret (Return None)
     else if retryable st
     then backoff_sleep 60 (retry_delay r backoff attempt);;
          ret (Continue ())
     else ret (Return None))
    (λ e, match e with
          | Timeout | ConnectionError =>
              Some (backoff_sleep 60 (backoff ^ Z.of_nat attempt);;
                    ret (Continue ()))
          | _ => if is_RequestException e then Some (ret (Return None))
                 else None
          end).

Fixpoint cdn_loop (url : string) (attempts : list nat)
  : M (option Response) :=
  match attempts with
  | [] => ret None
  | attempt :: attempts' =>
      let* flow := cdn_attempt url attempt in
      match flow with
      | Return r => ret r
      | Continue _ => cdn_loop url attempts'
      end
  end.

Definition request_cdn_stream (url : string) : M (option Response) :=
  cdn_loop url (seq 0 (Z.to_nat max_retries)).

Fixpoint pick_loop (candidates : list string)
  : M (option (Response * string * string)) :=
  match candidates with
  | [] => ret None
  | candidate :: candidates' =>
      let* resp := request_cdn_stream candidate in
      match resp with
      | Some r =>
          let ct := Text.lower (default "" (headers r !! "Content-Type")) in
          ret (Some (r, candidate, ct))
      | None => pick_loop candidates'
      end
  end.

Definition pick_largest_working_art_stream (artwork_url_100 : string)
  : M (option (Response * string * string)) :=
  pick_loop (build_upscaled_urls artwork_url_100).

Definition search_itunes_albums (artist album country : string) (limit : Z)
  : M (list Record_) :=
  let params : gmap string string :=
    <["term" := artist +:+ " " +:+ album]>
      (<["media" := "music"]>
         (<["entity" := "album"]>
            (<["country" := country]>
               (<["limit" := NilZero.string_of_int (Z.to_int limit)]> ∅)))) in
  api_search_with_retries params.

End Client.
(* ================================================================== *)
(** * File system and library scanner *)
(* ================================================================== *)

(** [p.exists()] *)
Definition exists_ (fs : gmap Path Node) (p : Path) : bool :=
  bool_decide (is_Some (fs !! p)).

(** [p.is_dir()] *)
Definition is_dir (fs : gmap Path Node) (p : Path) : bool :=
  bool_decide (fs !! p = Some Dir).

(** [q] is an entry of the directory [p] *)
Definition is_child (p q : Path) : Prop :=
  length q = S (length p) ∧ take (length p) q = p.

#[global] Instance is_child_dec : RelDecision is_child.
Proof. intros p q. unfold is_child. apply _. Defined.

(** [p.iterdir()], in some order *)
Definition iterdir (fs : gmap Path Node) (p : Path) : list Path :=
  filter (is_child p) (map fst (map_to_list fs)).

(** the order of paths: part by part, each part as a string *)
Fixpoint path_leb (p q : Path) : bool :=
  match p, q with
  | [], _ => true
  | _ :: _, [] => false
  | x :: p', y :: q' =>
      match String.compare x y with
      | Lt => true
      | Gt => false
      | Eq => path_leb p' q'
      end
  end.

Definition path_le (p q : Path) : Prop := path_leb p q = true.

#[global] Instance path_le_dec : RelDecision path_le.
Proof. intros p q. unfold path_le. apply _. Defined.

Definition sorted (ps : list Path) : list Path := merge_sort path_le ps.

(** the directories among the entries of [p], sorted *)
Definition subdirs (fs : gmap Path Node) (p : Path) : list Path :=
  sorted (filter (λ q, is_dir fs q = true) (iterdir fs p)).

Definition find_album_dirs (fs : gmap Path Node) (root : Path)
  : list Path :=
  if negb (is_dir fs root) then []
  else flat_map (λ artist, subdirs fs artist) (subdirs fs root).

(** [p.name] and [p.parent] *)
Definition name (p : Path) : string := List.last p "".
Definition parent (p : Path) : Path := removelast p.

(** [str(p)] for an absolute path, and for [q.relative_to(p)] *)
Definition path_str (p : Path) : string :=
  match p with
  | [] => "/"
  | _ => String.concat "" (map (λ part, "/" +:+ part) p)
  end.

Definition relative_to (q p : Path) : string :=
  String.concat "/" (drop (length p) q).

Definition album_has_cover (fs : gmap Path Node) (album_dir : Path)
  : option Path :=
  List.find (exists_ fs)
    (map (λ name, album_dir ++ [name]) ["cover.jpg"; "cover.png"]).

(** [open(p, "wb")] and the writes: the directory must be there, and [p]
    must not be a directory itself *)
Definition write_file (p : Path) (data : string) : M unit :=
  let* fs := get_files in
  if is_dir fs (parent p) && negb (is_dir fs p)
  then set_files (<[p := File data]> fs)
  else raise OSError.

(** [tmp.replace(dest)] *)
Definition replace_file (tmp dest : Path) : M unit :=
  let* fs := get_files in
  match fs !! tmp, fs !! dest with
  | Some (File data), Some Dir => raise OSError
  | Some (File data), _ => set_files (<[dest := File data]> (delete tmp fs))
  | _, _ => raise OSError
  end.

(** [p.unlink()] *)
Definition unlink (p : Path) : M unit :=
  let* fs := get_files in
  match fs !! p with
  | Some (File _) => set_files (delete p fs)
  | _ => raise OSError
  end.

(** [dest.with_suffix(dest.suffix + ".part")] *)
Definition part_path (dest : Path) : Path :=
  parent dest ++ [name dest +:+ ".part"].

(** The chunks that arrive go to the [.part] file; if the stream breaks,
    the exception leaves the function and the [.part] file stays. *)
Definition download_stream_to_file (resp : Response) (dest : Path)
  : M unit :=
  let tmp := part_path dest in
  write_file tmp (content resp);;
  match stream_error resp with
  | Some e => raise e
  | None => replace_file tmp dest
  end.

(* ================================================================== *)
(** * Orchestrator *)
(* ================================================================== *)

Record Args : Type := mkArgs {
  root : Path;
  country : string;
  limit : Z;
  force : bool;
  dry_run : bool;
  timeout : Z;
  api_interval : Q;
  cdn_interval : Q;
  max_retries : Z;
  backoff : Q;
  jitter : Q
}.

Definition EM_DASH : string := "—".
Definition EN_DASH : string := "–".

(** the messages of [process_album] *)
Definition msg_disc (album_dir : Path) : string :=
  "Skip disc subfolder: " +:+ path_str album_dir.

Definition msg_exists (existing album_dir : Path) (artist album : string)
  : string :=
  "Exists: " +:+ relative_to existing album_dir +:+ "  " +:+ EM_DASH
  +:+ " " +:+ artist +:+ " / " +:+ album.

Definition msg_network (artist album : string) (e : Exc) : string :=
  "Network error: " +:+ artist +:+ " / " +:+ album +:+ " " +:+ EM_DASH
  +:+ " " +:+ str_of_exc e.

Definition msg_no_match (artist album : string) : string :=
  "No good match: " +:+ artist +:+ " / " +:+ album.

Definition msg_no_url (artist album : string) : string :=
  "No artworkUrl100: " +:+ artist +:+ " / " +:+ album.

Definition msg_no_artwork (artist album : string) : string :=
  "No accessible artwork: " +:+ artist +:+ " / " +:+ album.

Definition msg_other_format (other album_dir : Path) (artist album : string)
  : string :=
  "Exists (other format): " +:+ relative_to other album_dir +:+ " "
  +:+ EM_DASH +:+ " " +:+ artist +:+ " / " +:+ album.

Definition msg_download_failed (artist album : string) (e : Exc) : string :=
  "Download failed: " +:+ artist +:+ " / " +:+ album +:+ " " +:+ EM_DASH
  +:+ " " +:+ str_of_exc e.

Section Orchestrator.
Variable env : Env.
Variable args : Args.

(** the two passes of the catalog search, or the message of the network
    error that ended them *)
Definition search_two_passes (artist album : string)
  : M (string + list Record_) :=
  let* first :=
    try_except
      (let* results :=
         search_itunes_albums env (timeout args) (api_interval args)
           (max_retries args) (backoff args) (jitter args)
           artist album (country args) (limit args) in
       ret (inr results))
      (λ e, if is_RequestException e
            then Some (ret (inl (msg_network artist album e))) else None) in
  match first with
  | inr [] =>
      try_except
        (let params : gmap string string :=
           <["term" := album]>
             (<["media" := "music"]>
                (<["entity" := "album"]>
                   (<["country" := country args]>
                      (<["limit" :=
                           NilZero.string_of_int (Z.to_int (limit args))]>
                         (<["attribute" := "albumTerm"]> ∅))))) in
         let* results :=
           api_search_with_retries env (timeout args) (api_interval args)
             (max_retries args) (backoff args) (jitter args) params in
         ret (inr results))
        (λ e, if is_RequestException e
              then Some (ret (inl (msg_network artist album e))) else None)
  | _ => ret first
  end.

Definition size_info (url : string) : string :=
  default "unknown"
    (List.find (λ s, Text.contains ("/" +:+ s) url) PROBE_SIZES).

(** what [process_album] does once an image response is open *)
Definition save_cover (album_dir : Path) (artist album : string)
    (m : Scored) (pick : Response * string * string) : M (bool * string) :=
  let '(resp, url, content_type) := pick in
  let overwrite := force args in
  let ext := derive_extension_from_content_type content_type in
  let dest := album_dir ++ ["cover" +:+ ext] in
  let other_ext := if String.eqb ext ".jpg" then ".png" else ".jpg" in
  let other := album_dir ++ ["cover" +:+ other_ext] in
  let* fs := get_files in
  if exists_ fs other && negb overwrite
  then ret (false, msg_other_format other album_dir artist album)
  else
    let* failed :=
      try_except
        (download_stream_to_file resp dest;; ret None)
        (λ e, if is_RequestException e
              then Some (ret (Some (msg_download_failed artist album e)))
              else None) in
    match failed with
    | Some msg => ret (false, msg)
    | None =>
        let* fs := get_files in
        (if overwrite && exists_ fs other
         then try_except (unlink other)
                (λ e, if is_Exception e then Some (ret ()) else None)
         else ret ());;
        let alb_name := default "" (fields m !! "collectionName") in
        let art_name := default "" (fields m !! "artistName") in
        ret (true,
             "Saved " +:+ relative_to dest album_dir +:+ "  ["
             +:+ size_info url +:+ "] " +:+ EM_DASH +:+ " matched '"
             +:+ art_name +:+ " " +:+ EN_DASH +:+ " " +:+ alb_name +:+ "'")
    end.

Definition process_album (album_dir : Path) : M (bool * string) :=
  let overwrite := force args in
  let artist := name (parent album_dir) in
  let album := name album_dir in
  if is_disc_subfolder album then ret (false, msg_disc album_dir)
  else
    let* fs := get_files in
    match album_has_cover fs album_dir, overwrite with
    | Some existing, false =>
        ret (false, msg_exists existing album_dir artist album)
    | _, _ =>
        let* found := search_two_passes artist album in
        match found with
        | inl msg => ret (false, msg)
        | inr results =>
            match best_album_match results artist album (55 # 100) with
            | None => ret (false, msg_no_match artist album)
            | Some m =>
                match default "" (fields m !! "artworkUrl100") with
                | EmptyString => ret (false, msg_no_url artist album)
                | artwork_url_100 =>
                    if dry_run args then
                      let top_candidate :=
                        List.hd "" (build_upscaled_urls artwork_url_100) in
                      let ext_hint :=
                        if Text.endswith (Text.lower top_candidate) ".png"
                        then ".png" else ".jpg" in
                      let dest := album_dir ++ ["cover" +:+ ext_hint] in
                      ret (false,
                           "Would save -> " +:+ relative_to dest album_dir
                           +:+ "  from " +:+ top_candidate)
                    else
                      let* pick :=
                        pick_largest_working_art_stream env (timeout args)
                          (cdn_interval args) (max_retries args)
                          (backoff args) (jitter args) artwork_url_100 in
                      match pick with
                      | None => ret (false, msg_no_artwork artist album)
                      | Some p => save_cover album_dir artist album m p
                      end
                end
            end
        end
    end.

(** the three counters of the summary *)
Record Counters : Type := mkCounters {
  changed : nat;
  skipped : nat;
  errors : nat
}.

Definition error_words : list string :=
  ["error"; "failed"; "no accessible artwork"; "network"].

(** the counting at the end of the [try] block of the loop *)
Definition tally (c : Counters) (did_change : bool) (msg : string)
  : Counters :=
  if did_change then mkCounters (changed c + 1) (skipped c) (errors c)
  else if existsb (λ k, Text.contains k (Text.lower msg)) error_words
  then mkCounters (changed c) (skipped c) (errors c + 1)
  else mkCounters (changed c) (skipped c + 1) (errors c).

(** [f"{n:4d}"] *)
Definition pad4 (n : nat) : string :=
  let s := NilEmpty.string_of_uint (Nat.to_uint n) in
  String.concat "" (repeat " " (4 - String.length s)) +:+ s.

Definition progress (idx total : nat) (tag rel text : string) : string :=
  pad4 idx +:+ "/" +:+ pad4 total +:+ " " +:+ tag +:+ " " +:+ rel +:+ " "
  +:+ EM_DASH +:+ " " +:+ text.

(** the body of the loop of [main]: [Return] is the [break], [Continue]
    goes on to the pause between folders *)
Definition main_step (total idx : nat) (album_dir : Path) (c : Counters)
  : M (Flow Counters Counters) :=
  let rel := relative_to album_dir (root args) in
  try_except
    (let* r := process_album album_dir in
     let '(did_change, msg) := r in
     let prefix := if did_change then "[OK]" else "[SKIP]" in
     print (progress idx total prefix rel msg);;
     ret (Continue (tally c did_change msg)))
    (λ e, match e with
          | KeyboardInterrupt =>
              Some (print (String Text.LF "Interrupted by user.");;
                    ret (Return c))
          | _ =>
              Some (print (progress idx total "[ERR]" rel
                             ("Exception: " +:+ str_of_exc e));;
                    ret (Continue
                           (mkCounters (changed c) (skipped c)
                                       (errors c + 1))))
          end).

(** the pause between folders, [time.sleep(0.05)].  It stands after the
    [try] statement, so a user interrupt that arrives during it is not
    caught: it leaves the loop, and [main], as [KeyboardInterrupt]. *)
Definition pause (idx : nat) : M unit := λ w,
  if interrupted env idx then (Raised KeyboardInterrupt, w)
  else sleep (5 # 100) w.

Fixpoint main_loop (total idx : nat) (album_dirs : list Path) (c : Counters)
  : M Counters :=
  match album_dirs with
  | [] => ret c
  | album_dir :: album_dirs' =>
      let* flow := main_step total idx album_dir c in
      match flow with
      | Return c' => ret c'
      | Continue c' =>
          pause idx;;
          main_loop total (S idx) album_dirs' c'
      end
  end.

Definition summary (c : Counters) : string :=
  "Downloaded: " +:+ NilEmpty.string_of_uint (Nat.to_uint (changed c))
  +:+ "  |  Skipped: " +:+ NilEmpty.string_of_uint (Nat.to_uint (skipped c))
  +:+ "  |  Errors: " +:+ NilEmpty.string_of_uint (Nat.to_uint (errors c)).

(** [Pacer()] *)
Definition new_Pacer : M unit := λ w,
  (Ok (),
   mkWorld (now w) (slept w) (draws w) (sent w) ∅ (files w)
           (stdout w) (stderr w)).

(** [main]; the result is the exit status *)
Definition main : M Z :=
  let* fs := get_files in
  if negb (exists_ fs (root args)) || negb (is_dir fs (root args)) then
    print_stderr ("Root path does not exist or is not a directory: "
                  +:+ path_str (root args));;
    ret 1%Z
  else
    new_Pacer;;
    let album_dirs := find_album_dirs fs (root args) in
    let total := length album_dirs in
    if total =? 0 then
      print "No Artist/Album directories found.";;
      ret 0%Z
    else
      print ("Scanning " +:+ NilEmpty.string_of_uint (Nat.to_uint total)
             +:+ " album folders under: " +:+ path_str (root args)
             +:+ String Text.LF "");;
      let* c := main_loop total 1 album_dirs (mkCounters 0 0 0) in
      print (String Text.LF "Done.");;
      print (summary c);;
      ret 0%Z.

End Orchestrator.
(* ================================================================== *)
(** * Notions used to state the properties *)
(* ================================================================== *)

Module difflib_spec.
Section Spec.
Context {A : Type} `{Countable A}.

(** the positions of [x] in [l], counted from [off] *)
Fixpoint positions_from (off : nat) (x : A) (l : list A) : list nat :=
  match l with
  | [] => []
  | y :: l' =>
      if decide (y = x) then off :: positions_from (S off) x l'
      else positions_from (S off) x l'
  end.

Variable s : list A.

(** [s[i]] is a key of [b2j]: it was not purged as popular *)
Definition kept (i : nat) : bool :=
  match s !! i with
  | Some x => bool_decide (is_Some (difflib.b2j s !! x))
  | None => false
  end.

(** how many kept elements end at position [i], without a gap *)
Fixpoint diag_run (i : nat) : nat :=
  match i with
  | O => if kept 0 then 1 else 0
  | S i' => if kept i then S (diag_run i') else 0
  end.

(** what [j2len] holds when row [i] of the search starts, on two equal
    sequences: no run is longer than the run on the diagonal *)
Definition row_start (i : nat) (L : gmap nat nat) : Prop :=
  (∀ j v, L !! j = Some v →
          v ≤ match i with O => 0 | S i' => diag_run i' end ∧ v ≤ diag_run j)
  ∧ (∀ i', i = S i' → default 0 (L !! i') = diag_run i').

(** what [best] is when row [i] starts: a block on the diagonal, at least
    as long as every run on the diagonal above *)
Definition best_inv (i : nat) (best : difflib.Match) : Prop :=
  let '(bi, bj, bs) := best in
  bi = bj ∧ bi + bs ≤ length s ∧ ∀ i', i' < i → diag_run i' ≤ bs.

End Spec.
End difflib_spec.

(** [similarity] with the normaliser as a parameter.  The normaliser of
    the source works on Unicode text, character by character; [T] is the
    type of the texts, [A] that of the characters of a normal form.  The
    embedding's [normalize_text] is the instance for ASCII text. *)
Definition similarity_with {T A : Type} `{Countable A}
    (normalize : T -> list A) (a b : T) : Q :=
  difflib.ratio (normalize a) (normalize b).

(** the records that pass the two filters of [best_album_match] *)
Definition survives (r : Record_) : bool := kind_ok r && entity_ok r.

(** An allowance for the rounding of the float arithmetic.  The code
    computes a score with a division, two multiplications and an
    addition of doubles between 0 and 1, so what it computes differs
    from the exact score by far less than this. *)
Definition ROUNDING : Q := 1 # 1000000000.

(** no two surviving records have different scores less than [1e-6]
    apart, with the allowance for rounding: then the comparisons of the
    loop come out the same on the rounded scores as on the exact ones *)
Definition separated (artist album : string) (results : list Record_)
  : Prop :=
  ∀ r1 r2, r1 ∈ results → r2 ∈ results →
    survives r1 = true → survives r2 = true →
    (Qabs (score_of artist album r1 - score_of artist album r2)
       < (1 # 1000000) + ROUNDING)%Q →
    (score_of artist album r1 == score_of artist album r2)%Q.

(** what the loop of [best_album_match] knows after the records [seen] *)
Definition selector_inv (artist album : string) (seen : list Record_)
    (st : option Scored * Q) : Prop :=
  match st with
  | (None, best_score) =>
      best_score = (-1)%Q ∧ ∀ r, r ∈ seen → survives r = false
  | (Some b, best_score) =>
      fields b ∈ seen ∧ survives (fields b) = true
      ∧ _score b = score_of artist album (fields b)
      ∧ best_score = _score b
      ∧ ∀ r, r ∈ seen → survives r = true →
             (score_of artist album r <= best_score)%Q
  end.

(** a catalog record with the album marker and the three fields *)
Definition album_record (collectionName artistName artworkUrl100 : string)
  : Record_ :=
  <["collectionType" := "Album"]>
    (<["collectionName" := collectionName]>
       (<["artistName" := artistName]>
          (<["artworkUrl100" := artworkUrl100]> ∅))).

(** every character of [s] satisfies [p] *)
Fixpoint string_all (p : ascii -> bool) (s : string) : bool :=
  match s with
  | EmptyString => true
  | String c s' => p c && string_all p s'
  end.

(** text of ASCII characters, the range whose character classes the
    embedding gives *)
Definition ascii_text (s : string) : Prop :=
  string_all (λ c, Text.code c <? 128) s = true.

(** [lo] to [hi] decimal digits *)
Definition digit_run (lo hi : nat) (s : string) : Prop :=
  string_all Text.is_digit s = true
  ∧ lo ≤ String.length s ∧ String.length s ≤ hi.

(** the parts of a size segment
    [/<digits>x<digits>[bb][-<quality>].<ext>] *)
Record SizeSegment : Type := mkSizeSegment {
  seg_w : string;
  seg_x : string;
  seg_h : string;
  seg_bb : string;
  seg_q : string;
  seg_ext : string
}.

(** [2] to [5] digits each way, [bb] or nothing, [-<digits>] or nothing,
    [jpg] or [png]; letters in either case *)
Definition size_segment_ok (g : SizeSegment) : Prop :=
  digit_run 2 5 (seg_w g)
  ∧ Text.lower (seg_x g) = "x"
  ∧ digit_run 2 5 (seg_h g)
  ∧ (seg_bb g = "" ∨ Text.lower (seg_bb g) = "bb")
  ∧ (seg_q g = ""
     ∨ ∃ ds, seg_q g = String "-" ds ∧ digit_run 1 (String.length ds) ds)
  ∧ (Text.lower (seg_ext g) = "jpg" ∨ Text.lower (seg_ext g) = "png").

Definition size_segment_text (g : SizeSegment) : string :=
  "/" +:+ seg_w g +:+ seg_x g +:+ seg_h g +:+ seg_bb g +:+ seg_q g
  +:+ "." +:+ seg_ext g.

(** the URL ends in a size segment *)
Definition ends_in_size_segment (url : string) : Prop :=
  ∃ prefix g, size_segment_ok g ∧ url = prefix +:+ size_segment_text g.

(** where the pattern, which ends in [$], matches: the URL ends in a
    size segment, or in a size segment and one newline *)
Definition has_size_segment (url : string) : Prop :=
  ∃ prefix g tail,
    size_segment_ok g ∧ Text.at_end tail = true
    ∧ url = prefix +:+ size_segment_text g +:+ tail.

(** the candidates that keep what is around the size *)
Definition resized_urls (prefix : string) (g : SizeSegment) : list string :=
  map (λ sz, prefix +:+ "/" +:+ sz +:+ seg_bb g +:+ seg_q g +:+ "."
             +:+ seg_ext g) PROBE_SIZES.

(** the candidates of the fallback: a size segment appended to the URL *)
Definition appended_urls (url : string) : list string :=
  map (λ sz, url +:+ "/" +:+ sz +:+ "."
             +:+ (if Text.endswith (Text.lower url) ".png" then "png"
                  else "jpg")) PROBE_SIZES.

(** the two numbers of a probe size *)
Definition probe_width (sz : string) : nat :=
  Text.decimal (Text.span Text.is_digit sz).1.

Definition probe_height (sz : string) : nat :=
  match (Text.span Text.is_digit sz).2 with
  | String _ h => Text.decimal h
  | EmptyString => 0
  end.

(** [s2] asks for a smaller image than [s1] *)
Definition smaller_size (s1 s2 : string) : Prop :=
  probe_width s2 < probe_width s1 ∧ probe_height s2 < probe_height s1.

#[global] Instance smaller_size_dec : RelDecision smaller_size.
Proof. intros s1 s2. unfold smaller_size. apply _. Defined.

(** the first character of [s] does not satisfy [p], if there is one *)
Definition stops (p : ascii -> bool) (s : string) : Prop :=
  match s with
  | EmptyString => True
  | String c _ => p c = false
  end.

Definition not_slash (c : ascii) : bool := negb (Ascii.eqb c "/").

(** [c'] is [c] with exactly one of the three counters one higher *)
Definition one_more (c c' : Counters) : Prop :=
  c' = mkCounters (changed c + 1) (skipped c) (errors c)
  ∨ c' = mkCounters (changed c) (skipped c + 1) (errors c)
  ∨ c' = mkCounters (changed c) (skipped c) (errors c + 1).

Definition counted (c : Counters) : nat := changed c + skipped c + errors c.

(** the user interrupts the work on the album: [process_album] raises
    [KeyboardInterrupt] *)
Definition cut_short (env : Env) (args : Args) (album_dir : Path)
    (w : World) : bool :=
  match (process_album env args album_dir w).1 with
  | Raised KeyboardInterrupt => true
  | _ => false
  end.

(** the counters and the world after the pass for [album_dir] and the
    pause that follows it *)
Definition after_pass (env : Env) (args : Args) (total idx : nat)
    (album_dir : Path) (c : Counters) (w : World) : Counters * World :=
  let '(r, w') := main_step env args total idx album_dir c w in
  (match r with
   | Ok (Continue c') => c'
   | _ => c
   end,
   (sleep (5 # 100) w').2).

(** how many albums of [album_dirs] are processed to the end: those
    before the first one that a user interrupt cuts short *)
Fixpoint processed (env : Env) (args : Args) (total idx : nat)
    (album_dirs : list Path) (c : Counters) (w : World) : nat :=
  match album_dirs with
  | [] => 0
  | album_dir :: album_dirs' =>
      if cut_short env args album_dir w then 0
      else
        let '(c', w') := after_pass env args total idx album_dir c w in
        S (processed env args total (S idx) album_dirs' c' w')
  end.

(** none of the words that make [main] count a message as an error
    occurs in [s], in either case *)
Definition no_error_word (s : string) : Prop :=
  existsb (λ k, Text.contains k (Text.lower s)) error_words = false.

(* ------------------------------------------------------------------ *)
(** ** A small library and some servers, to run the program on *)
(* ------------------------------------------------------------------ *)

Module Example.

(** [/music/Beatles/Help], with no cover yet *)
Definition library : gmap Path Node :=
  <[["music"] := Dir]>
    (<[["music"; "Beatles"] := Dir]>
       (<[["music"; "Beatles"; "Help"] := Dir]> ∅)).

Definition album_dir : Path := ["music"; "Beatles"; "Help"].

(** the default options *)
Definition args : Args :=
  mkArgs ["music"] "US" 200 false false 15 1 (6 # 10) 5 (18 # 10) (3 # 10).

(** a run that starts long after the clock did, so that the pacer does not
    wait before the first request *)
Definition world : World := mkWorld 1000 [] 0 [] ∅ library [] [].

(** the same run, with a cover already in the album directory *)
Definition covered_world : World :=
  mkWorld 1000 [] 0 [] ∅
    (<[["music"; "Beatles"; "Help"; "cover.jpg"] := File "JFIF"]> library)
    [] [].

Definition reply (status : Z) (headers : gmap string string) : Response :=
  mkResponse status headers None "" None.

Definition help_record : Record_ :=
  album_record "Help!" "The Beatles"
    "https://is1.mzstatic.com/image/thumb/a/100x100bb.jpg".

(** every request is answered [429 Too Many Requests] *)
Definition throttling : Env :=
  mkEnv (λ _ _, inr (reply 429 ∅)) (λ _, 1 # 10) (λ _, 1 # 2) (λ _, false).

(** every request is answered [429] with [Retry-After: 120] *)
Definition throttling_120 : Env :=
  mkEnv (λ _ _, inr (reply 429 (<["Retry-After" := "120"]> ∅)))
        (λ _, 1 # 10) (λ _, 1 # 2) (λ _, false).

(** every request is answered [429] with [Retry-After: 7] *)
Definition throttling_7 : Env :=
  mkEnv (λ _ _, inr (reply 429 (<["Retry-After" := "7"]> ∅)))
        (λ _, 1 # 10) (λ _, 1 # 2) (λ _, false).

(** the catalog knows the album, the CDN answers [404] to everything *)
Definition no_artwork : Env :=
  mkEnv (λ _ req,
           if String.eqb (url req) ITUNES_SEARCH_URL
           then inr (mkResponse 200 ∅ (Some [help_record]) "" None)
           else inr (reply 404 ∅))
        (λ _, 1 # 10) (λ _, 1 # 2) (λ _, false).

(** the catalog finds nothing *)
Definition no_results : Env :=
  mkEnv (λ _ _, inr (mkResponse 200 ∅ (Some []) "" None))
        (λ _, 1 # 10) (λ _, 1 # 2) (λ _, false).

(** two candidates with album and artist similarities 0.9 and 0.2, and
    0.6 and 0.95 *)
Definition wanted_artist : string := "klmnopqrstuvwxyz0123".
Definition wanted_album : string := "abcdefghij".
Definition near_album : Record_ :=
  album_record "abcdefghi1" "klm4567899" "u".
Definition near_artist : Record_ :=
  album_record "abcdef1234" "klmnopqrstuvwxyz0129" "v".

(** two candidates whose scores are less than [1e-6] apart *)
Definition tie_artist : string := "nopqrstuvwxyz".
Definition tie_album : string := "abcdefghijkl".
Definition tie_first : Record_ := album_record "abcde" "nopqrs1234" "u".
Definition tie_second : Record_ :=
  album_record "abcdefghiwxyz" "nop123456789012" "v".

End Example.

(** the character [c] does not occur in [k] *)
Definition avoids (c : ascii) (k : string) : bool :=
  string_all (λ d, negb (Ascii.eqb d c)) k.

(* ================================================================== *)
(** * What a computation does to the world *)
(* ================================================================== *)

(** from [w] to [w'] at most [n] requests were sent, each of them in [P] *)
Definition sends (P : Request -> Prop) (n : nat) (w w' : World) : Prop :=
  ∃ reqs, sent w' = sent w ++ reqs ∧ length reqs ≤ n ∧ Forall P reqs.

(** from [w] to [w'] no file outside [F] was created, changed or removed *)
Definition keeps_files (F : Path -> Prop) (w w' : World) : Prop :=
  ∀ p, ¬ F p → files w' !! p = files w !! p.

(** both, and nothing was printed *)
Definition effect (P : Request -> Prop) (F : Path -> Prop) (n : nat)
    (w w' : World) : Prop :=
  sends P n w w'
  ∧ keeps_files F w w'
  ∧ stdout w' = stdout w
  ∧ stderr w' = stderr w.

(** whatever the world and the outcome, [m] does no more than that *)
Definition does {T} (P : Request -> Prop) (F : Path -> Prop) (n : nat)
    (m : M T) : Prop :=
  ∀ w, effect P F n w (m w).2.

Definition no_request : Request -> Prop := λ _, False.
Definition no_file : Path -> Prop := λ _, False.

(** the request of the catalog search *)
Definition api_request (timeout : Z) (params : gmap string string)
  : Request :=
  mkRequest ITUNES_SEARCH_URL params timeout.

(** the request of an image *)
Definition cdn_request (timeout : Z) (url : string) : Request :=
  mkRequest url ∅ timeout.

(** the paths that [process_album] writes to or removes *)
Definition cover_paths (album_dir : Path) : list Path :=
  [album_dir ++ ["cover.jpg"]; album_dir ++ ["cover.png"];
   album_dir ++ ["cover.jpg.part"]; album_dir ++ ["cover.png.part"]].

(** a request to the catalog *)
Definition to_catalog (req : Request) : Prop := url req = ITUNES_SEARCH_URL.

(** a request for one of the candidate URLs of some artwork URL *)
Definition to_cdn (timeout : Z) (req : Request) : Prop :=
  ∃ artwork_url u,
    u ∈ build_upscaled_urls artwork_url ∧ req = cdn_request timeout u.

(** the requests that a run with the options [args] may send: to the
    catalog, and, unless it is a dry run, for candidate images *)
Definition may_request (args : Args) (req : Request) : Prop :=
  to_catalog req ∨ (dry_run args = false ∧ to_cdn (timeout args) req).

(** how many requests one album may take: two searches, and, unless it
    is a dry run, fifteen candidates, each tried [max_retries] times *)
Definition request_budget (args : Args) : nat :=
  (if dry_run args then 2 else 17) * Z.to_nat (max_retries args).

(** the files that a run over [album_dirs] may write or remove *)
Definition may_write (args : Args) (album_dirs : list Path) (p : Path)
  : Prop :=
  dry_run args = false ∧ ∃ d, d ∈ album_dirs ∧ p ∈ cover_paths d.

(** the [Retry-After] header of the response, if there is one, is empty
    or a plain decimal number: the spellings that the embedding's
    [float] reads as the code does *)
Definition plain_retry_after (r : Response) : Prop :=
  match headers r !! "Retry-After" with
  | None => True
  | Some s => s = "" ∨ is_Some (float s)
  end.

(** a bound well inside the range of doubles: a power of the backoff
    factor that stays below it does not overflow *)
Definition POWER_LIMIT : Q := inject_Z (10 ^ 300).

(** the powers [backoff ** attempt] that [n] attempts compute are in
    range ([backoff ** attempt] raises [OverflowError] otherwise) *)
Definition powers_in_range (backoff : Q) (n : nat) : Prop :=
  ∀ attempt, attempt < n → (backoff ^ Z.of_nat attempt <= POWER_LIMIT)%Q.

(** a reply that makes the clients try again: a timeout, a failed
    connection, or a retryable status whose delay is not negative *)
Definition transient (backoff : Q) (attempt : nat) (reply : Exc + Response)
  : Prop :=
  match reply with
  | inl e => e = Timeout ∨ e = ConnectionError
  | inr r =>
      retryable (status_code r) = true
      ∧ plain_retry_after r
      ∧ (0 <= retry_delay r backoff attempt)%Q
  end.

(** the exception of the last of the [n] requests [start], [start + 1],
    ... that ended in one; [acc] if none did *)
Fixpoint last_failure (env : Env) (req : Request) (start n : nat)
    (acc : option Exc) : option Exc :=
  match n with
  | O => acc
  | S n' =>
      last_failure env req (S start) n'
        (match serve env start req with
         | inl e => Some e
         | inr _ => acc
         end)
  end.

(* ------------------------------------------------------------------ *)
(** ** More servers *)
(* ------------------------------------------------------------------ *)

Module Sample.

(** nothing answers *)
Definition offline : Env :=
  mkEnv (λ _ _, inl Timeout) (λ _, 1 # 10) (λ _, 1 # 2) (λ _, false).

(** the first request times out, the others are answered [429] *)
Definition timeout_then_throttling : Env :=
  mkEnv (λ n _, match n with
                | O => inl Timeout
                | _ => inr (Example.reply 429 ∅)
                end)
        (λ _, 1 # 10) (λ _, 1 # 2) (λ _, false).

(** every request is answered [404 Not Found] *)
Definition not_found : Env :=
  mkEnv (λ _ _, inr (Example.reply 404 ∅)) (λ _, 1 # 10) (λ _, 1 # 2) (λ _, false).

(** every request is answered [429] with [Retry-After: -100] *)
Definition throttling_negative : Env :=
  mkEnv (λ _ _, inr (Example.reply 429 (<["Retry-After" := "-100"]> ∅)))
        (λ _, 1 # 10) (λ _, 1 # 2) (λ _, false).

Definition jpeg : Response :=
  mkResponse 200 (<["Content-Type" := "image/jpeg"]> ∅) None "JFIF" None.

(** the catalog knows the album; the CDN has the image up to 3000 x 3000
    and answers [404] to the larger sizes *)
Definition cdn_3000 : Env :=
  mkEnv (λ _ req,
           if String.eqb (url req) ITUNES_SEARCH_URL
           then inr (mkResponse 200 ∅ (Some [Example.help_record]) "" None)
           else if Text.contains "/3000x3000" (url req) then inr jpeg
           else inr (Example.reply 404 ∅))
        (λ _, 1 # 10) (λ _, 1 # 2) (λ _, false).

(** the same, but the stream of the image breaks *)
Definition cdn_broken : Env :=
  mkEnv (λ _ req,
           if String.eqb (url req) ITUNES_SEARCH_URL
           then inr (mkResponse 200 ∅ (Some [Example.help_record]) "" None)
           else inr (mkResponse 200 (<["Content-Type" := "image/jpeg"]> ∅)
                       None "JF" (Some ConnectionError)))
        (λ _, 1 # 10) (λ _, 1 # 2) (λ _, false).

(** [/music/Oasis/Trial and Error], with a cover *)
Definition error_album : Path := ["music"; "Oasis"; "Trial and Error"].

Definition error_world : World :=
  mkWorld 1000 [] 0 [] ∅
    (<[["music"] := Dir]>
       (<[["music"; "Oasis"] := Dir]>
          (<[error_album := Dir]>
             (<[error_album ++ ["cover.png"] := File "PNG"]> ∅))))
    [] [].

(** the catalog was asked 0.4 seconds ago *)
Definition marked_world : World :=
  mkWorld 1000 [] 0 [] (<["itunes_api" := (9996 # 10)%Q]> ∅) ∅ [] [].

(** the catalog finds nothing, and the user interrupts the pause after
    the first album *)
Definition interrupted_pause : Env :=
  mkEnv (λ _ _, inr (mkResponse 200 ∅ (Some []) "" None))
        (λ _, 1 # 10) (λ _, 1 # 2) (λ n, n =? 1).

Definition dry_args : Args :=
  mkArgs ["music"] "US" 200 false true 15 1 (6 # 10) 5 (18 # 10) (3 # 10).

Definition force_args : Args :=
  mkArgs ["music"] "US" 200 true false 15 1 (6 # 10) 5 (18 # 10) (3 # 10).

End Sample.

(** a reply that cannot make the CDN prober raise: a failure of the
    request itself, or a response whose delay is not negative *)
Definition harmless (backoff : Q) (reply : Exc + Response) : Prop :=
  match reply with
  | inl e => is_RequestException e = true
  | inr r =>
      plain_retry_after r
      ∧ ∀ attempt, (0 <= retry_delay r backoff attempt)%Q
  end.

(** the response is an image: status 200 and a content type with
    [image] in it, in either case *)
Definition is_image (r : Response) : Prop :=
  status_code r = 200%Z
  ∧ Text.contains "image"
      (Text.lower (default "" (headers r !! "Content-Type"))) = true.

(** every album directory of the list has a cover *)
Definition all_covered (fs : gmap Path Node) (album_dirs : list Path)
  : Prop :=
  ∀ d, d ∈ album_dirs → album_has_cover fs d ≠ None.

(** one of the words that make [main] count a message as an error occurs
    in [s], in either case *)
Definition has_error_word (s : string) : Prop :=
  ∃ k, k ∈ error_words ∧ Text.contains k (Text.lower s) = true.

(* ------------------------------------------------------------------ *)
(** ** The shape of disc-folder names *)
(* ------------------------------------------------------------------ *)

(** white space only; may be empty *)
Definition blank (s : string) : Prop := string_all Text.is_space s = true.

(** one or more decimal digits *)
Definition number (s : string) : Prop :=
  s ≠ "" ∧ string_all Text.is_digit s = true.

(** [word] is [lit] up to the case of the letters *)
Definition spells (lit word : string) : Prop :=
  Text.lower word = Text.lower lit.

(** [CD], [Disc] or [Digital Media] and a number; [Digital Media] and a
    number in brackets; a number in brackets.  White space may stand
    between the parts, but not inside the brackets. *)
Inductive disc_name : string -> Prop :=
| disc_cd (word ws n : string) :
    spells "CD" word → blank ws → number n →
    disc_name (word +:+ ws +:+ n)
| disc_disc (word ws n : string) :
    spells "Disc" word → blank ws → number n →
    disc_name (word +:+ ws +:+ n)
| disc_digital_media (w1 ws1 w2 ws2 n : string) :
    spells "Digital" w1 → blank ws1 → spells "Media" w2 → blank ws2 →
    number n →
    disc_name (w1 +:+ ws1 +:+ w2 +:+ ws2 +:+ n)
| disc_digital_media_bracket (w1 ws1 w2 ws2 n : string) :
    spells "Digital" w1 → blank ws1 → spells "Media" w2 → blank ws2 →
    number n →
    disc_name (w1 +:+ ws1 +:+ w2 +:+ ws2 +:+ "[" +:+ n +:+ "]")
| disc_bracket (n : string) :
    number n → disc_name ("[" +:+ n +:+ "]").

(** the tolerance of the tie-break of [best_album_match] *)
Definition EPSILON : Q := 1 # 1000000.

(** [n] as a rational *)
Definition Qnat (n : nat) : Q := inject_Z (Z.of_nat n).

(** what the loop of [best_album_match] knows after the records [seen],
    whatever their scores: the best so far is one of them, with its
    scores, and no surviving record beats it by more than one tolerance
    for each record seen *)
Definition selector_near (artist album : string) (seen : list Record_)
    (st : option Scored * Q) : Prop :=
  match st with
  | (None, best_score) =>
      best_score = (-1)%Q ∧ ∀ r, r ∈ seen → survives r = false
  | (Some b, best_score) =>
      fields b ∈ seen ∧ survives (fields b) = true
      ∧ _score b = score_of artist album (fields b)
      ∧ _alb_score b = alb_score_of album (fields b)
      ∧ _art_score b = art_score_of artist (fields b)
      ∧ best_score = _score b
      ∧ ∀ r, r ∈ seen → survives r = true →
             (score_of artist album r
              <= best_score + Qnat (length seen) * EPSILON)%Q
  end.

(* ------------------------------------------------------------------ *)
(** ** Matching blocks and the regions they lie in *)
(* ------------------------------------------------------------------ *)

Module difflib_bounds.

(** the block lies in the region [a[alo:ahi]], [b[blo:bhi]] *)
Definition in_region (alo ahi blo bhi : nat) (m : difflib.Match) : Prop :=
  let '(i, j, k) := m in
  alo ≤ i ∧ i + k ≤ ahi ∧ blo ≤ j ∧ j + k ≤ bhi.

(** what [j2len] holds when row [i] of the search starts: runs that end
    in the row before, at a position of the region, and that fit between
    the start of the region and their end *)
Definition runs_before (alo blo bhi i : nat) (j2len : gmap nat nat)
  : Prop :=
  ∀ j v, j2len !! j = Some v →
         blo ≤ j ∧ j < bhi ∧ v + alo ≤ i ∧ v + blo ≤ S j.

(** the regions still to be searched are not inside out *)
Definition well_formed (queue : list (nat * nat * nat * nat)) : Prop :=
  Forall (λ '(alo, ahi, blo, bhi), alo ≤ ahi ∧ blo ≤ bhi) queue.

(** the total length of the regions, in [a] and in [b] *)
Definition width_a (queue : list (nat * nat * nat * nat)) : nat :=
  sum_list (map (λ '(alo, ahi, _, _), ahi - alo) queue).

Definition width_b (queue : list (nat * nat * nat * nat)) : nat :=
  sum_list (map (λ '(_, _, blo, bhi), bhi - blo) queue).

(** the total size of the blocks *)
Definition matched (blocks : list difflib.Match) : nat :=
  sum_list (map snd blocks).

End difflib_bounds.

(** the network is down: every request ends in a timeout or a failed
    connection *)
Definition network_down (env : Env) : Prop :=
  ∀ n req, serve env n req = inl Timeout
           ∨ serve env n req = inl ConnectionError.

(** a reply that makes the CDN prober give up on a candidate at once: a
    response that is not an image and whose status is not retryable *)
Definition rejects (reply : Exc + Response) : Prop :=
  match reply with
  | inl _ => False
  | inr r => retryable (status_code r) = false ∧ ¬ is_image r
  end.
(* ================================================================== *)
(** * The matcher on two equal sequences *)
(* ================================================================== *)

Section difflib_facts.
Context {A : Type} `{Countable A}.
Import difflib difflib_spec.

Lemma positions_from_elem (x : A) (l : list A) (off j : nat) :
  j ∈ positions_from off x l ↔ off ≤ j ∧ l !! (j - off) = Some x.
Proof.
  revert off. induction l as [|y l IH]; intros off; simpl.
  - split; [inversion 1 | intros [_ Hl]; discriminate].
  - destruct (decide (y = x)) as [->|Hne].
    + rewrite elem_of_cons, IH. split.
      * intros [->|[Hle Hl]].
        { split; [lia|]. by replace (off - off) with 0 by lia. }
        split; [lia|]. by replace (j - off) with (S (j - S off)) by lia.
      * intros [Hle Hl]. destruct (decide (j = off)) as [->|Hjo]; [by left|].
        right. split; [lia|].
        by replace (j - off) with (S (j - S off)) in Hl by lia.
    + rewrite IH. split.
      * intros [Hle Hl]. split; [lia|].
        by replace (j - off) with (S (j - S off)) by lia.
      * intros [Hle Hl]. destruct (decide (j = off)) as [->|Hjo].
        { replace (off - off) with 0 in Hl by lia. simpl in Hl. congruence. }
        split; [lia|].
        by replace (j - off) with (S (j - S off)) in Hl by lia.
Qed.

Lemma positions_from_sorted (x : A) (l : list A) (off : nat) :
  StronglySorted lt (positions_from off x l).
Proof.
  revert off. induction l as [|y l IH]; intros off; simpl.
  - constructor.
  - destruct (decide (y = x)); [|apply IH].
    constructor; [apply IH|].
    apply Forall_forall. intros j Hj.
    apply positions_from_elem in Hj. lia.
Qed.

Lemma chain_loop_lookup (l : list A) (off : nat) (m : gmap A (list nat))
    (x : A) :
  chain_loop off l m !! x =
    match positions_from off x l with
    | [] => m !! x
    | ps => Some (default [] (m !! x) ++ ps)
    end.
Proof.
  revert off m. induction l as [|y l IH]; intros off m; simpl; [done|].
  rewrite IH. destruct (decide (y = x)) as [->|Hne].
  - rewrite lookup_insert_eq. simpl.
    destruct (positions_from (S off) x l); [done|].
    by rewrite <- app_assoc.
  - by rewrite lookup_insert_ne.
Qed.

Lemma b2j_lookup (s : list A) (x : A) (js : list nat) :
  b2j s !! x = Some js → js = positions_from 0 x s.
Proof.
  unfold b2j. intros Hjs.
  assert (chain_loop 0 s ∅ !! x = Some js) as Hfull.
  { destruct (200 <=? length s); [|done].
    by apply map_lookup_filter_Some in Hjs as [? _]. }
  rewrite chain_loop_lookup, lookup_empty in Hfull.
  destruct (positions_from 0 x s); [done|]. simpl in Hfull. congruence.
Qed.

Section Equal.
Variable s : list A.

Local Abbreviation n := (length s).
Local Abbreviation D := (diag_run s).
Local Abbreviation Dprev i :=
  (match i with O => 0 | S i' => diag_run s i' end).

Lemma diag_run_le (i : nat) : D i ≤ S i.
Proof.
  induction i as [|i IH]; simpl.
  - destruct (kept s 0); lia.
  - destruct (kept s (S i)); lia.
Qed.

Lemma diag_run_kept (i : nat) : kept s i = true → D i = S (Dprev i).
Proof. destruct i; simpl; intros ->; done. Qed.

Lemma diag_run_not_kept (i : nat) : kept s i = false → D i = 0.
Proof. destruct i; simpl; intros ->; done. Qed.

Lemma scan_row_equal (i : nat) (x : A) (L : gmap nat nat) (js : list nat)
    (best : Match) (newL : gmap nat nat) :
  i < n → s !! i = Some x → kept s i = true →
  row_start s i L →
  (∀ j, j ∈ js → j < n ∧ s !! j = Some x) →
  StronglySorted lt js →
  best_inv s i best →
  (∀ j v, newL !! j = Some v → v ≤ D i ∧ v ≤ D j) →
  (i ∈ js ∨ (D i ≤ best.2 ∧ newL !! i = Some (D i))) →
  let '(best', newL') := scan_row 0 n i L js best newL in
  best_inv s (S i) best' ∧ row_start s (S i) newL'.
Proof.
  intros Hi Hx Hkept [HL HLd].
  revert best newL. induction js as [|j js IH];
    intros [[bi bj] bs] newL Hjs Hsorted (Hdiag & Hfit & Hprev) HnewL Hpend.
  - simpl. destruct Hpend as [Hin|[Hbs Hnew]]; [inversion Hin|].
    simpl in Hbs. split.
    + repeat split; [done..|]. intros i' Hi'.
      destruct (decide (i' = i)) as [->|]; [done|]. apply Hprev. lia.
    + split; [done|]. intros i' [= <-]. by rewrite Hnew.
  - cbn [scan_row].
    destruct (Hjs j) as [Hjn Hjx]; [by left|].
    replace (j <? 0) with false by (symmetry; apply Nat.ltb_ge; lia).
    replace (n <=? j) with false by (symmetry; apply Nat.leb_gt; lia).
    apply StronglySorted_inv in Hsorted as [Hsorted Hhead].
    rewrite Forall_forall in Hhead.
    assert (kept s j = true) as Hkj.
    { unfold kept in *. rewrite Hjx. by rewrite Hx in Hkept. }
    set (k := S (match j with O => 0 | S j' => default 0 (L !! j') end)).
    assert (k ≤ D i ∧ k ≤ D j) as [Hki Hkj'].
    { rewrite (diag_run_kept i Hkept), (diag_run_kept j Hkj). unfold k.
      destruct j as [|j']; [lia|].
      destruct (L !! j') as [v|] eqn:Hv; simpl; [|lia].
      destruct (HL _ _ Hv). lia. }
    assert (∀ j' v, <[j:=k]> newL !! j' = Some v → v ≤ D i ∧ v ≤ D j')
      as HnewL'.
    { intros j' v. destruct (decide (j = j')) as [<-|Hne].
      - rewrite lookup_insert_eq. by intros [= <-].
      - rewrite lookup_insert_ne by done. apply HnewL. }
    cbn [snd] in *.
    destruct (decide (j = i)) as [->|Hji].
    + (* the diagonal cell *)
      assert (k = D i) as Hk.
      { rewrite (diag_run_kept i Hkept). unfold k.
        destruct i as [|i']; [done|]. by rewrite (HLd i' eq_refl). }
      assert (i ∉ js) as Hnotin.
      { intros Hin. specialize (Hhead _ Hin). lia. }
      destruct (bs <? k) eqn:Hlt.
      * apply IH; [by intros; apply Hjs; right|done| |done|].
        { apply Nat.ltb_lt in Hlt. pose proof (diag_run_le i).
          split; [done|]. split; [lia|].
          intros i' Hi'. destruct (decide (i' = i)) as [->|]; [lia|].
          assert (D i' ≤ bs) by (apply Hprev; lia). lia. }
        right. simpl. split; [lia|]. rewrite lookup_insert_eq. by rewrite Hk.
      * apply IH; [by intros; apply Hjs; right|done|done|done|].
        apply Nat.ltb_ge in Hlt.
        right. simpl. split; [lia|]. rewrite lookup_insert_eq. by rewrite Hk.
    + (* off the diagonal: nothing longer than what is known *)
      assert (k ≤ bs) as Hkbs.
      { destruct Hpend as [Hin|[Hbs _]].
        - apply elem_of_cons in Hin as [->|Hin]; [done|].
          specialize (Hhead _ Hin). specialize (Hprev j). lia.
        - simpl in Hbs. lia. }
      replace (bs <? k) with false by (symmetry; apply Nat.ltb_ge; lia).
      apply IH; [by intros; apply Hjs; right|done|done|done|].
      destruct Hpend as [Hin|[Hbs Hnew]].
      * apply elem_of_cons in Hin as [->|Hin]; [done|]. by left.
      * right. split; [done|]. by rewrite lookup_insert_ne.
Qed.

Lemma scan_rows_equal (len i : nat) (best : Match) (L : gmap nat nat) :
  i + len = n → row_start s i L → best_inv s i best →
  let '(bi, bj, bs) := scan_rows s s 0 n (seq i len) best L in
  bi = bj ∧ bi + bs ≤ n.
Proof.
  revert i best L. induction len as [|len IH]; intros i best L Hn HL Hbest.
  - simpl. destruct best as [[bi bj] bs]. destruct Hbest as (? & ? & _). done.
  - cbn [seq scan_rows].
    destruct (s !! i) as [x|] eqn:Hx.
    2:{ apply lookup_ge_None in Hx. lia. }
    destruct (b2j s !! x) as [js|] eqn:Hjs; simpl.
    + pose proof (b2j_lookup s x js Hjs) as ->.
      assert (kept s i = true) as Hkept.
      { unfold kept. rewrite Hx, Hjs. by apply bool_decide_eq_true. }
      pose proof (scan_row_equal i x L (positions_from 0 x s) best ∅) as Hrow.
      destruct (scan_row 0 n i L (positions_from 0 x s) best ∅)
        as [best' newL].
      destruct Hrow as [Hb' HL']; try done.
      * lia.
      * intros j Hj. apply positions_from_elem in Hj as [_ Hj].
        replace (j - 0) with j in Hj by lia. split; [|done].
        by apply lookup_lt_Some in Hj.
      * apply positions_from_sorted.
      * left. apply positions_from_elem. split; [lia|].
        by replace (i - 0) with i by lia.
      * apply IH; [lia|done|done].
    + assert (kept s i = false) as Hkept.
      { unfold kept. rewrite Hx, Hjs. apply bool_decide_eq_false.
        by intros [? ?]. }
      apply IH; [lia| |].
      * split; [done|]. intros i' [= <-]. rewrite lookup_empty. simpl.
        by rewrite diag_run_not_kept.
      * destruct best as [[bi bj] bs]. destruct Hbest as (? & ? & Hprev).
        repeat split; [done..|]. intros i' Hi'.
        destruct (decide (i' = i)) as [->|].
        { rewrite diag_run_not_kept by done. lia. }
        apply Hprev. lia.
Qed.

Lemma same_elt_diag (i : nat) : i < n → same_elt s s i i = true.
Proof.
  intros Hi. unfold same_elt.
  destruct (lookup_lt_is_Some_2 s i Hi) as [x ->].
  by apply bool_decide_eq_true.
Qed.

Lemma extend_left_equal (bi bs : nat) :
  bi ≤ n → extend_left s s 0 0 bi bi bs = (0, 0, bs + bi).
Proof.
  revert bs. induction bi as [|bi IH]; intros bs Hle; simpl.
  - f_equal. lia.
  - rewrite same_elt_diag by lia. simpl. rewrite IH by lia. f_equal. lia.
Qed.

Lemma extend_right_equal (room size : nat) :
  size + room = n → extend_right s s n n room 0 0 size = n.
Proof.
  revert size. induction room as [|room IH]; intros size Hn; simpl.
  - lia.
  - replace (size <? n) with true by (symmetry; apply Nat.ltb_lt; lia).
    rewrite same_elt_diag by lia. simpl. apply IH. lia.
Qed.

Lemma find_longest_match_equal :
  find_longest_match s s 0 n 0 n = (0, 0, n).
Proof.
  unfold find_longest_match.
  pose proof (scan_rows_equal (n - 0) 0 (0, 0, 0) ∅) as Hscan.
  destruct (scan_rows s s 0 n (seq 0 (n - 0)) (0, 0, 0) ∅) as [[bi bj] bs].
  destruct Hscan as [<- Hfit].
  - lia.
  - split; [by intros j v; rewrite lookup_empty|by intros i' [=]].
  - repeat split; [lia|]. intros i' Hi'. lia.
  - rewrite extend_left_equal by lia.
    rewrite extend_right_equal by lia. done.
Qed.

Lemma get_matching_blocks_equal :
  sum_list (map snd (get_matching_blocks s s)) = n.
Proof.
  unfold get_matching_blocks.
  replace (n + n + 1) with (S (n + n)) by lia. cbn [blocks_loop].
  rewrite find_longest_match_equal.
  destruct n as [|m] eqn:Hn; [done|].
  replace (S m =? 0) with false by done.
  replace (0 <? 0) with false by done. cbn [andb].
  replace (0 + S m <? S m) with false by (symmetry; apply Nat.ltb_ge; lia).
  cbn [andb]. destruct (m + S m); simpl; lia.
Qed.

Lemma ratio_equal : (ratio s s == 1)%Q.
Proof.
  unfold ratio. rewrite get_matching_blocks_equal.
  unfold calculate_ratio.
  destruct (n + n =? 0) eqn:Hz; [reflexivity|].
  apply Nat.eqb_neq in Hz. unfold Qeq. simpl.
  rewrite Z.mul_1_r. destruct (n + n) as [|m] eqn:Hm; [done|].
  rewrite <- Pos.of_nat_succ, Zpos_P_of_succ_nat. lia.
Qed.

End Equal.
End difflib_facts.
(* ================================================================== *)
(** * Text matcher and match selector *)
(* ================================================================== *)

Lemma similarity_same_normal_form (a b : string) :
  normalize_text a = normalize_text b → (similarity a b == 1)%Q.
Proof. unfold similarity. intros ->. apply ratio_equal. Qed.

Lemma similarity_with_normalize_text (a b : string) :
  similarity a b
  = similarity_with (λ s, list_ascii_of_string (normalize_text s)) a b.
Proof. reflexivity. Qed.

(** C7: [similarity(a, a) = 1.0] for every text, and [similarity(a, b) =
    1.0] for every two texts with the same normalized form.  This is so
    whatever the normaliser does to a text and whatever the characters
    are (the source's normaliser works on Unicode text), so it is stated
    of [similarity_with]; [similarity] is its instance with the
    normaliser of ASCII text (lower case, white space collapsed,
    punctuation removed). *)
Theorem similarity_of_equal_normal_forms {T A : Type} `{Countable A}
    (normalize : T -> list A) (a b : T) :
  normalize a = normalize b →
  (similarity_with normalize a a == 1)%Q
  ∧ (similarity_with normalize a b == 1)%Q.
Proof.
  intros Hab. unfold similarity_with. rewrite <- Hab.
  split; apply ratio_equal.
Qed.

Lemma similarity_of_equal_normal_forms_witness :
  (similarity "Abbey Road" "Abbey Road" == 1)%Q
  ∧ (similarity "Abbey Road" "abbey road!!" == 1)%Q.
Proof.
  rewrite !similarity_with_normalize_text.
  apply (similarity_of_equal_normal_forms
           (λ s, list_ascii_of_string (normalize_text s))
           "Abbey Road" "abbey road!!").
  vm_compute. reflexivity.
Defined.

Lemma calculate_ratio_nonneg (m l : nat) :
  (0 <= difflib.calculate_ratio m l)%Q.
Proof.
  unfold difflib.calculate_ratio. destruct (l =? 0); [done|].
  unfold Qle. simpl. lia.
Qed.

Lemma similarity_nonneg (a b : string) : (0 <= similarity a b)%Q.
Proof. apply calculate_ratio_nonneg. Qed.

Lemma score_of_nonneg (artist album : string) (r : Record_) :
  (0 <= score_of artist album r)%Q.
Proof.
  unfold score_of, alb_score_of, art_score_of.
  pose proof (similarity_nonneg album (default "" (r !! "collectionName"))).
  pose proof (similarity_nonneg artist (default "" (r !! "artistName"))).
  lra.
Qed.

Lemma Qlt_bool_true (x y : Q) : Qlt_bool x y = true ↔ (x < y)%Q.
Proof.
  unfold Qlt_bool. rewrite negb_true_iff. split.
  - intros Hle. apply Qnot_le_lt. intros Hyx.
    apply Qle_bool_iff in Hyx. congruence.
  - intros Hlt. destruct (Qle_bool y x) eqn:Hle; [|done].
    apply Qle_bool_iff in Hle. lra.
Qed.

Lemma Qlt_bool_false (x y : Q) : Qlt_bool x y = false ↔ (y <= x)%Q.
Proof.
  unfold Qlt_bool. rewrite negb_false_iff. apply Qle_bool_iff.
Qed.

Section Selector.
Variables artist album : string.

Local Abbreviation score := (score_of artist album).

Lemma match_step_inv (seen : list Record_) (st : option Scored * Q)
    (r : Record_) :
  separated artist album (seen ++ [r]) →
  selector_inv artist album seen st →
  selector_inv artist album (seen ++ [r]) (match_step artist album st r).
Proof.
  intros Hsep Hinv. destruct st as [best best_score]. unfold match_step.
  fold (survives r). fold (score r).
  destruct (survives r) eqn:Hr; cbn [negb].
  2:{ destruct best as [b|]; cbn [selector_inv] in *.
      - destruct Hinv as (Hin & Hsv & Hsc & Hbs & Hmax).
        split_and!; try done; [set_solver|].
        intros r' Hr' Hs'.
        apply elem_of_app in Hr' as [?|Hr']; [by apply Hmax|].
        apply list_elem_of_singleton in Hr' as ->. congruence.
      - destruct Hinv as [Hbs Hnone]. split; [done|].
        intros r' Hr'.
        apply elem_of_app in Hr' as [?|Hr']; [by apply Hnone|].
        by apply list_elem_of_singleton in Hr' as ->. }
  pose proof (score_of_nonneg artist album r) as Hnn.
  destruct best as [b|]; cbn [selector_inv from_option] in *.
  - destruct Hinv as (Hin & Hsv & Hsc & -> & Hmax).
    destruct (Qlt_bool (_score b) (score r)) eqn:Hlt; cbn [orb].
    + apply Qlt_bool_true in Hlt. cbn [fields _score].
      split_and!; try done; [set_solver|].
      intros r' Hr' Hs'. apply elem_of_app in Hr' as [Hr'|Hr'].
      * specialize (Hmax r' Hr' Hs'). lra.
      * apply list_elem_of_singleton in Hr' as ->. lra.
    + apply Qlt_bool_false in Hlt.
      destruct (Qlt_bool (Qabs (score r - _score b)) (1 # 1000000)
                && Qlt_bool (_alb_score b) (alb_score_of album r)) eqn:Htie.
      * apply andb_true_iff in Htie as [Hnear _].
        apply Qlt_bool_true in Hnear. rewrite Hsc in Hnear.
        assert (score r == score (fields b))%Q as Heq.
        { apply Hsep; [set_solver|set_solver|done|done|].
          unfold ROUNDING. lra. }
        cbn [fields _score]. split_and!; try done; [set_solver|].
        intros r' Hr' Hs'. apply elem_of_app in Hr' as [Hr'|Hr'].
        -- specialize (Hmax r' Hr' Hs'). rewrite Hsc in Hmax. lra.
        -- apply list_elem_of_singleton in Hr' as ->. lra.
      * split_and!; try done; [set_solver|].
        intros r' Hr' Hs'. apply elem_of_app in Hr' as [?|Hr'].
        -- by apply Hmax.
        -- by apply list_elem_of_singleton in Hr' as ->.
  - destruct Hinv as [-> Hnone].
    replace (Qlt_bool (-1) (score r)) with true
      by (symmetry; apply Qlt_bool_true; lra).
    cbn [orb fields _score]. split_and!; try done; [set_solver|].
    intros r' Hr' Hs'. apply elem_of_app in Hr' as [Hr'|Hr'].
    + rewrite Hnone in Hs' by done. done.
    + apply list_elem_of_singleton in Hr' as ->. lra.
Qed.

Lemma separated_prefix (l1 l2 : list Record_) :
  separated artist album (l1 ++ l2) → separated artist album l1.
Proof.
  intros Hsep r1 r2 H1 H2. apply Hsep; set_solver.
Qed.

Lemma match_loop_inv (rest seen : list Record_) (st : option Scored * Q) :
  separated artist album (seen ++ rest) →
  selector_inv artist album seen st →
  selector_inv artist album (seen ++ rest) (foldl (match_step artist album) st rest).
Proof.
  revert seen st. induction rest as [|r rest IH]; intros seen st Hsep Hinv.
  - by rewrite app_nil_r.
  - simpl. replace (seen ++ r :: rest) with ((seen ++ [r]) ++ rest)
      by (by rewrite <- app_assoc).
    apply IH; [by rewrite <- app_assoc|].
    apply match_step_inv; [|done].
    apply (separated_prefix _ rest). by rewrite <- app_assoc.
Qed.

Lemma best_album_match_maximal (results : list Record_) :
  separated artist album results →
  match best_album_match results artist album (55 # 100) with
  | Some b =>
      fields b ∈ results ∧ survives (fields b) = true
      ∧ _score b = score (fields b)
      ∧ (55 # 100 <= _score b)%Q
      ∧ ∀ r, r ∈ results → survives r = true → (score r <= _score b)%Q
  | None =>
      ∀ r, r ∈ results → survives r = true → (score r < 55 # 100)%Q
  end.
Proof.
  intros Hsep. unfold best_album_match.
  pose proof (match_loop_inv results [] (None, (-1)%Q) Hsep) as Hinv.
  simpl in Hinv.
  destruct (foldl (match_step artist album) (None, (-1)%Q) results)
    as [[b|] best_score]; simpl in Hinv.
  - destruct Hinv as (Hin & Hsv & Hsc & -> & Hmax); [by split; [|set_solver]|].
    destruct (Qle_bool (55 # 100) (_score b)) eqn:Hth.
    + apply Qle_bool_iff in Hth. done.
    + intros r Hr Hs. specialize (Hmax r Hr Hs).
      assert (Qlt_bool (_score b) (55 # 100) = true) as Hlt
        by (unfold Qlt_bool; by rewrite Hth).
      apply Qlt_bool_true in Hlt. lra.
  - destruct Hinv as [_ Hnone]; [by split; [|set_solver]|].
    intros r Hr Hs. rewrite Hnone in Hs by done. done.
Qed.

Lemma elem_of_pair (x r1 r2 : Record_) (l : list Record_) :
  l = [r1; r2] ∨ l = [r2; r1] → x ∈ l → x = r1 ∨ x = r2.
Proof.
  intros [-> | ->] Hx; apply elem_of_cons in Hx as [Hx|Hx]; auto;
    apply list_elem_of_singleton in Hx; auto.
Qed.

Lemma pair_elems (r1 r2 : Record_) (l : list Record_) :
  l = [r1; r2] ∨ l = [r2; r1] → r1 ∈ l ∧ r2 ∈ l.
Proof.
  intros [-> | ->]; split; rewrite !elem_of_cons; auto.
Qed.

Lemma best_album_match_example (r1 r2 : Record_) (results : list Record_) :
  results = [r1; r2] ∨ results = [r2; r1] →
  survives r1 = true → survives r2 = true →
  (alb_score_of album r1 == 9 # 10)%Q → (art_score_of artist r1 == 2 # 10)%Q →
  (alb_score_of album r2 == 6 # 10)%Q → (art_score_of artist r2 == 95 # 100)%Q →
  fields <$> best_album_match results artist album (55 # 100) = Some r2.
Proof.
  intros Hres Hs1 Hs2 Ha1 Hr1 Ha2 Hr2.
  assert (score r1 == 69 # 100)%Q as H1 by (unfold score_of; lra).
  assert (score r2 == 705 # 1000)%Q as H2 by (unfold score_of; lra).
  assert (separated artist album results) as Hsep.
  { intros x y Hx Hy _ _ Hnear. unfold ROUNDING in Hnear.
    apply Qabs_Qlt_condition in Hnear.
    destruct (elem_of_pair x r1 r2 results Hres Hx) as [Hx'|Hx'],
      (elem_of_pair y r1 r2 results Hres Hy) as [Hy'|Hy'];
      subst x y; lra. }
  destruct (pair_elems r1 r2 results Hres) as [Hin1 Hin2].
  pose proof (best_album_match_maximal results Hsep) as Hmax.
  destruct (best_album_match results artist album (55 # 100)) as [b|].
  - destruct Hmax as (Hin & _ & Hsc & _ & Hmax). simpl. f_equal.
    destruct (elem_of_pair _ r1 r2 results Hres Hin) as [Hb|Hb]; [|done].
    specialize (Hmax r2 Hin2 Hs2). rewrite Hsc, Hb in Hmax. lra.
  - specialize (Hmax r2 Hin2 Hs2). lra.
Qed.

End Selector.



(* ================================================================== *)
(** * Strings *)
(* ================================================================== *)

Lemma string_app_cons (x : ascii) (a b : string) :
  String x a +:+ b = String x (a +:+ b).
Proof. reflexivity. Qed.

Lemma string_app_nil_l (a : string) : "" +:+ a = a.
Proof. reflexivity. Qed.

Create Rewrite HintDb str.
#[global] Hint Rewrite string_app_cons string_app_nil_l : str.

(** push [+:+] under the characters in front of it, then compute *)
Ltac str := repeat (autorewrite with str in *; simpl in * ).

Lemma string_app_assoc (a b c : string) : (a +:+ b) +:+ c = a +:+ b +:+ c.
Proof. induction a as [|x a IH]; str; [done|]. by rewrite IH. Qed.

Lemma string_app_nil_r (a : string) : a +:+ "" = a.
Proof. induction a as [|x a IH]; str; [done|]. by rewrite IH. Qed.

Lemma string_length_app (a b : string) :
  String.length (a +:+ b) = String.length a + String.length b.
Proof. induction a as [|x a IH]; str; [done|]. by rewrite IH. Qed.

Lemma lower_app (a b : string) :
  Text.lower (a +:+ b) = Text.lower a +:+ Text.lower b.
Proof. induction a as [|x a IH]; str; [done|]. by rewrite IH. Qed.

Lemma lower_length (a : string) :
  String.length (Text.lower a) = String.length a.
Proof. induction a as [|x a IH]; str; [done|]. by rewrite IH. Qed.

Lemma span_app (p : ascii -> bool) (run rest : string) :
  string_all p run = true → stops p rest →
  Text.span p (run +:+ rest) = (run, rest).
Proof.
  intros Hrun Hrest. induction run as [|c run IH]; str.
  - destruct rest as [|c rest]; [done|]. simpl in *. by rewrite Hrest.
  - apply andb_true_iff in Hrun as [-> Hrun]. by rewrite IH.
Qed.

Lemma span_spec (p : ascii -> bool) (s run rest : string) :
  Text.span p s = (run, rest) →
  s = run +:+ rest ∧ string_all p run = true ∧ stops p rest.
Proof.
  revert run rest. induction s as [|c s IH]; intros run rest; simpl.
  - by intros [= <- <-].
  - destruct (p c) eqn:Hc.
    + destruct (Text.span p s) as [run' rest']. intros [= <- <-].
      destruct (IH run' rest' eq_refl) as (-> & Hrun & Hrest).
      str. by rewrite Hc, Hrun.
    + intros [= <- <-]. simpl. by rewrite Hc.
Qed.

Lemma eat_ci_app (lit m rest : string) :
  Text.lower m = Text.lower lit →
  Text.eat_ci lit (m +:+ rest) = Some (m, rest).
Proof.
  revert m. induction lit as [|l lit IH]; intros m Hm.
  - destruct m; [done|discriminate].
  - destruct m as [|c m]; [discriminate|]. str.
    injection Hm as Hc Hm. unfold Text.eq_ci. rewrite Hc, Ascii.eqb_refl.
    by rewrite (IH m Hm).
Qed.

Lemma eat_ci_spec (lit s m rest : string) :
  Text.eat_ci lit s = Some (m, rest) →
  s = m +:+ rest ∧ Text.lower m = Text.lower lit.
Proof.
  revert s m. induction lit as [|l lit IH]; intros s m; simpl.
  - by intros [= <- <-].
  - destruct s as [|c s]; [done|].
    destruct (Text.eq_ci l c) eqn:Hc; [|done].
    destruct (Text.eat_ci lit s) as [[m' rest']|] eqn:Hs; [|done].
    intros [= <- <-]. destruct (IH s m' Hs) as [-> Hm].
    str. rewrite Hm. split; [done|]. f_equal.
    unfold Text.eq_ci in Hc. by apply Ascii.eqb_eq in Hc.
Qed.

Lemma string_all_app (p : ascii -> bool) (a b : string) :
  string_all p (a +:+ b) = string_all p a && string_all p b.
Proof.
  induction a as [|x a IH]; str; [done|]. rewrite IH. by rewrite andb_assoc.
Qed.

Lemma string_all_impl (p q : ascii -> bool) (s : string) :
  (∀ c, p c = true → q c = true) →
  string_all p s = true → string_all q s = true.
Proof.
  intros Hpq. induction s as [|c s IH]; simpl; [done|].
  rewrite !andb_true_iff. intros [Hc Hs]. split; [by apply Hpq|by apply IH].
Qed.

Lemma is_digit_lower_char (c : ascii) :
  Text.is_digit (Text.lower_char c) = Text.is_digit c.
Proof. by destruct c as [[] [] [] [] [] [] [] []]. Qed.

Lemma not_slash_lower_char (c : ascii) :
  not_slash (Text.lower_char c) = not_slash c.
Proof. by destruct c as [[] [] [] [] [] [] [] []]. Qed.

Lemma is_digit_not_slash (c : ascii) :
  Text.is_digit c = true → not_slash c = true.
Proof. by destruct c as [[] [] [] [] [] [] [] []]. Qed.

Lemma not_slash_lower (s : string) :
  string_all not_slash (Text.lower s) = string_all not_slash s.
Proof.
  induction s as [|c s IH]; simpl; [done|].
  by rewrite not_slash_lower_char, IH.
Qed.

(** a literal read under [re.IGNORECASE] stops a digit run when its first
    character is not a digit *)
Lemma stops_digit_ci (m rest : string) (l : ascii) (lit : string) :
  Text.lower m = String l lit → Text.is_digit l = false →
  stops Text.is_digit (m +:+ rest).
Proof.
  destruct m as [|c m]; [discriminate|]. simpl. intros [= Hc _] Hl. str.
  by rewrite <- is_digit_lower_char, Hc.
Qed.

Lemma digits_between_app (lo hi : nat) (run rest : string) :
  digit_run lo hi run → stops Text.is_digit rest →
  Text.digits_between lo hi (run +:+ rest) = Some (run, rest).
Proof.
  intros (Hrun & Hlo & Hhi) Hrest. unfold Text.digits_between.
  rewrite span_app by done.
  apply Nat.leb_le in Hlo, Hhi. by rewrite Hlo, Hhi.
Qed.

Lemma digits_between_spec (lo hi : nat) (s run rest : string) :
  Text.digits_between lo hi s = Some (run, rest) →
  s = run +:+ rest ∧ digit_run lo hi run ∧ stops Text.is_digit rest.
Proof.
  unfold Text.digits_between.
  destruct (Text.span Text.is_digit s) as [ds r] eqn:Hspan.
  destruct ((lo <=? String.length ds) && (String.length ds <=? hi))
    eqn:Hlen; [|done].
  intros [= <- <-]. apply span_spec in Hspan as (-> & Hds & Hr).
  apply andb_true_iff in Hlen as [Hlo Hhi].
  apply Nat.leb_le in Hlo, Hhi. done.
Qed.

Lemma digits1_app (run rest : string) :
  digit_run 1 (String.length run) run → stops Text.is_digit rest →
  Text.digits1 (run +:+ rest) = Some (run, rest).
Proof.
  intros (Hrun & Hlo & _) Hrest. unfold Text.digits1.
  rewrite span_app by done. destruct run; [simpl in Hlo; lia|done].
Qed.

Lemma digits1_spec (s run rest : string) :
  Text.digits1 s = Some (run, rest) →
  s = run +:+ rest ∧ digit_run 1 (String.length run) run
  ∧ stops Text.is_digit rest.
Proof.
  unfold Text.digits1.
  destruct (Text.span Text.is_digit s) as [ds r] eqn:Hspan.
  apply span_spec in Hspan as (-> & Hds & Hr).
  destruct ds as [|d ds]; [done|]. intros [= <- <-].
  split; [done|]. split; [|done].
  unfold digit_run. simpl. split; [done|lia].
Qed.

Lemma eat_char_spec (c : ascii) (s t : string) :
  Text.eat_char c s = Some t ↔ s = String c t.
Proof.
  unfold Text.eat_char. destruct s as [|d s]; [done|].
  destruct (Ascii.eqb_spec c d) as [->|Hne]; split; intros [=]; by subst.
Qed.

Lemma eat_char_other (c d : ascii) (s : string) :
  c ≠ d → Text.eat_char c (String d s) = None.
Proof. simpl. intros Hne. by apply Ascii.eqb_neq in Hne as ->. Qed.

Lemma at_end_cases (s : string) :
  Text.at_end s = true ↔ s = "" ∨ s = String Text.LF "".
Proof.
  destruct s as [|c [|d s]]; simpl.
  - by split; [left|].
  - split.
    + intros Hc. apply Ascii.eqb_eq in Hc as ->. by right.
    + intros [?|[= ->]]; [done|]. apply Ascii.eqb_refl.
  - by split; [|intros [?|?]].
Qed.

(* ================================================================== *)
(** * The size-segment pattern *)
(* ================================================================== *)

Lemma quality_group_app (q rest : string) :
  (q = "" ∨ ∃ ds, q = String "-" ds ∧ digit_run 1 (String.length ds) ds) →
  quality_group (q +:+ String "." rest) = Some (q, String "." rest).
Proof.
  intros [->|(ds & -> & Hds)]; unfold quality_group; str; [done|].
  by rewrite digits1_app.
Qed.

Lemma quality_group_spec (s q rest : string) :
  quality_group s = Some (q, rest) →
  s = q +:+ rest
  ∧ (q = "" ∨ ∃ ds, q = String "-" ds ∧ digit_run 1 (String.length ds) ds).
Proof.
  unfold quality_group. destruct (Text.eat_char "-" s) as [t|] eqn:Ht.
  - apply eat_char_spec in Ht as ->.
    destruct (Text.digits1 t) as [[ds r]|] eqn:Hds; simpl; [|done].
    intros [= <- <-]. apply digits1_spec in Hds as (-> & Hds & _).
    split; [done|]. right. by exists ds.
  - intros [= <- <-]. by split; [|left].
Qed.

Lemma extension_group_app (ext rest : string) :
  Text.lower ext = "jpg" ∨ Text.lower ext = "png" →
  extension_group (ext +:+ rest) = Some (ext, rest).
Proof.
  unfold extension_group. intros [Hext|Hext].
  - by rewrite (eat_ci_app "jpg").
  - rewrite (eat_ci_app "png") by done.
    destruct ext as [|c ext]; [done|]. injection Hext as Hc _. str.
    unfold Text.eq_ci. rewrite Hc. by simpl.
Qed.

Lemma extension_group_spec (s ext rest : string) :
  extension_group s = Some (ext, rest) →
  s = ext +:+ rest ∧ (Text.lower ext = "jpg" ∨ Text.lower ext = "png").
Proof.
  unfold extension_group.
  destruct (Text.eat_ci "jpg" s) as [[m r]|] eqn:Hjpg.
  - intros [= <- <-]. apply eat_ci_spec in Hjpg as [-> Hm]. by split; [|left].
  - intros Hpng. apply eat_ci_spec in Hpng as [-> Hm]. by split; [|right].
Qed.

Lemma bb_group_app (bb rest : string) :
  bb = "" ∨ Text.lower bb = "bb" →
  stops (Text.eq_ci "b") rest →
  default ("", bb +:+ rest) (Text.eat_ci "bb" (bb +:+ rest)) = (bb, rest).
Proof.
  intros [->|Hbb] Hrest.
  - str. destruct rest as [|c rest]; [done|]. simpl in *. by rewrite Hrest.
  - by rewrite (eat_ci_app "bb").
Qed.

Lemma bb_group_spec (s bb rest : string) :
  default ("", s) (Text.eat_ci "bb" s) = (bb, rest) →
  s = bb +:+ rest ∧ (bb = "" ∨ Text.lower bb = "bb").
Proof.
  destruct (Text.eat_ci "bb" s) as [[m r]|] eqn:Hbb; simpl.
  - intros [= <- <-]. apply eat_ci_spec in Hbb as [-> Hm]. by split; [|right].
  - intros [= <- <-]. by split; [|left].
Qed.

(** what follows the second number does not start with a digit *)
Lemma after_height_stops (bb q rest : string) :
  bb = "" ∨ Text.lower bb = "bb" →
  (q = "" ∨ ∃ ds, q = String "-" ds ∧ digit_run 1 (String.length ds) ds) →
  stops Text.is_digit (bb +:+ q +:+ String "." rest).
Proof.
  intros [->|Hbb] Hq.
  - destruct Hq as [->|(ds & -> & _)]; by str.
  - by apply (stops_digit_ci bb _ "b" "b").
Qed.

Lemma after_bb_stops (q rest : string) :
  (q = "" ∨ ∃ ds, q = String "-" ds ∧ digit_run 1 (String.length ds) ds) →
  stops (Text.eq_ci "b") (q +:+ String "." rest).
Proof. intros [->|(ds & -> & _)]; by str. Qed.

Lemma match_size_segment_complete (g : SizeSegment) (tail : string) :
  size_segment_ok g → Text.at_end tail = true →
  match_size_segment (size_segment_text g +:+ tail)
  = Some (seg_w g +:+ seg_x g +:+ seg_h g, seg_bb g, seg_q g, seg_ext g).
Proof.
  destruct g as [w x h bb q ext].
  unfold size_segment_ok, size_segment_text. cbn [seg_w seg_x seg_h seg_bb seg_q seg_ext].
  intros (Hw & Hx & Hh & Hbb & Hq & Hext) Hend.
  rewrite !string_app_assoc. autorewrite with str.
  unfold match_size_segment. cbn [Text.eat_char]. rewrite Ascii.eqb_refl.
  cbn [mbind option_bind].
  rewrite digits_between_app; [|done|by apply (stops_digit_ci x _ "x" "")].
  cbn [mbind option_bind].
  rewrite (eat_ci_app "x") by done. cbn [mbind option_bind].
  rewrite digits_between_app; [|done|by apply after_height_stops].
  cbn [mbind option_bind].
  rewrite bb_group_app; [|done|by apply after_bb_stops].
  rewrite quality_group_app by done. cbn [mbind option_bind].
  cbn [Text.eat_char]. rewrite Ascii.eqb_refl. cbn [mbind option_bind].
  rewrite extension_group_app by done. cbn [mbind option_bind].
  by rewrite Hend.
Qed.

Lemma match_size_segment_sound (s g1 g2 g3 g4 : string) :
  match_size_segment s = Some (g1, g2, g3, g4) →
  ∃ g tail,
    size_segment_ok g ∧ s = size_segment_text g +:+ tail
    ∧ Text.at_end tail = true
    ∧ g1 = seg_w g +:+ seg_x g +:+ seg_h g
    ∧ g2 = seg_bb g ∧ g3 = seg_q g ∧ g4 = seg_ext g.
Proof.
  unfold match_size_segment.
  destruct (Text.eat_char "/" s) as [s1|] eqn:H0; [|done].
  apply eat_char_spec in H0 as ->. cbn [mbind option_bind].
  destruct (Text.digits_between 2 5 s1) as [[w s2]|] eqn:H1; [|done].
  apply digits_between_spec in H1 as (-> & Hw & _). cbn [mbind option_bind].
  destruct (Text.eat_ci "x" s2) as [[x s3]|] eqn:H2; [|done].
  apply eat_ci_spec in H2 as (-> & Hx). cbn [mbind option_bind].
  destruct (Text.digits_between 2 5 s3) as [[h s4]|] eqn:H3; [|done].
  apply digits_between_spec in H3 as (-> & Hh & _). cbn [mbind option_bind].
  destruct (default ("", s4) (Text.eat_ci "bb" s4)) as [bb s5] eqn:H4.
  apply bb_group_spec in H4 as (-> & Hbb).
  destruct (quality_group s5) as [[q s6]|] eqn:H5; [|done].
  apply quality_group_spec in H5 as (-> & Hq). cbn [mbind option_bind].
  destruct (Text.eat_char "." s6) as [s7|] eqn:H6; [|done].
  apply eat_char_spec in H6 as ->. cbn [mbind option_bind].
  destruct (extension_group s7) as [[ext s8]|] eqn:H7; [|done].
  apply extension_group_spec in H7 as (-> & Hext). cbn [mbind option_bind].
  destruct (Text.at_end s8) eqn:H8; [|done].
  intros [= <- <- <- <-].
  exists (mkSizeSegment w x h bb q ext), s8.
  split_and!; try done.
  unfold size_segment_text. cbn [seg_w seg_x seg_h seg_bb seg_q seg_ext].
  rewrite !string_app_assoc. by autorewrite with str.
Qed.

Lemma size_segment_no_slash (g : SizeSegment) (tail : string) :
  size_segment_ok g → Text.at_end tail = true →
  ∃ t, size_segment_text g +:+ tail = String "/" t
       ∧ string_all not_slash t = true.
Proof.
  destruct g as [w x h bb q ext].
  unfold size_segment_ok, size_segment_text.
  cbn [seg_w seg_x seg_h seg_bb seg_q seg_ext].
  intros ((Hw & _) & Hx & (Hh & _) & Hbb & Hq & Hext) Hend.
  rewrite !string_app_assoc. autorewrite with str.
  eexists. split; [done|].
  rewrite !string_all_app. cbn [string_all]. rewrite !string_all_app.
  assert (∀ m lit, Text.lower m = lit → string_all not_slash lit = true →
                   string_all not_slash m = true) as Hci.
  { intros m lit <-. by rewrite not_slash_lower. }
  repeat (apply andb_true_iff; split).
  - by apply (string_all_impl Text.is_digit), Hw; apply is_digit_not_slash.
  - by apply (Hci x "x").
  - by apply (string_all_impl Text.is_digit), Hh; apply is_digit_not_slash.
  - destruct Hbb as [->|Hbb]; [done|]. by apply (Hci bb "bb").
  - destruct Hq as [->|(ds & -> & Hds & _)]; [done|]. simpl.
    by apply (string_all_impl Text.is_digit), Hds; apply is_digit_not_slash.
  - done.
  - destruct Hext as [Hext|Hext]; [by apply (Hci ext "jpg")|by apply (Hci ext "png")].
  - apply at_end_cases in Hend as [->| ->]; done.
Qed.

Lemma match_size_segment_no_slash (s : string)
    (r : string * string * string * string) :
  match_size_segment s = Some r →
  ∃ t, s = String "/" t ∧ string_all not_slash t = true.
Proof.
  destruct r as [[[g1 g2] g3] g4]. intros Hm.
  apply match_size_segment_sound in Hm as (g & tail & Hok & -> & Hend & _).
  by apply size_segment_no_slash.
Qed.

Lemma search_size_segment_eq (s : string) :
  search_size_segment s =
    match match_size_segment s with
    | Some (g1, g2, g3, g4) => Some (mkSizeMatch "" g1 g2 g3 g4)
    | None =>
        match s with
        | EmptyString => None
        | String c s' =>
            m ← search_size_segment s';
            Some (mkSizeMatch (String c (before m))
                    (group1 m) (group2 m) (group3 m) (group4 m))
        end
    end.
Proof. by destruct s. Qed.

Lemma search_size_segment_complete (prefix : string) (g : SizeSegment)
    (tail : string) :
  size_segment_ok g → Text.at_end tail = true →
  search_size_segment (prefix +:+ size_segment_text g +:+ tail)
  = Some (mkSizeMatch prefix (seg_w g +:+ seg_x g +:+ seg_h g)
            (seg_bb g) (seg_q g) (seg_ext g)).
Proof.
  intros Hok Hend. induction prefix as [|c prefix IH].
  - rewrite string_app_nil_l, search_size_segment_eq.
    by rewrite match_size_segment_complete.
  - rewrite string_app_cons, search_size_segment_eq.
    destruct (match_size_segment (String c (prefix +:+ size_segment_text g +:+ tail)))
      as [r|] eqn:Hm.
    + exfalso. apply match_size_segment_no_slash in Hm as (t & [= _ <-] & Hns).
      destruct (size_segment_no_slash g tail Hok Hend) as (t' & Ht' & _).
      rewrite !string_all_app, <- string_all_app, Ht' in Hns.
      simpl in Hns. by rewrite andb_false_r in Hns.
    + by rewrite IH.
Qed.

Lemma search_size_segment_sound (s : string) (m : SizeMatch) :
  search_size_segment s = Some m →
  ∃ g tail,
    size_segment_ok g ∧ s = before m +:+ size_segment_text g +:+ tail
    ∧ Text.at_end tail = true
    ∧ group2 m = seg_bb g ∧ group3 m = seg_q g ∧ group4 m = seg_ext g.
Proof.
  revert m. induction s as [|c s IH]; intros m; rewrite search_size_segment_eq.
  - destruct (match_size_segment "") as [[[[g1 g2] g3] g4]|] eqn:Hm; [|done].
    intros [= <-].
    apply match_size_segment_sound in Hm
      as (g & tail & Hok & Hs & Hend & _ & -> & -> & ->).
    by exists g, tail.
  - destruct (match_size_segment (String c s))
      as [[[[g1 g2] g3] g4]|] eqn:Hm.
    + intros [= <-].
      apply match_size_segment_sound in Hm
        as (g & tail & Hok & Hs & Hend & _ & -> & -> & ->).
      by exists g, tail.
    + destruct (search_size_segment s) as [m'|] eqn:Hs; [|done].
      cbn [mbind option_bind]. intros [= <-].
      destruct (IH m' eq_refl) as (g & tail & Hok & -> & Hend & H2 & H3 & H4).
      by exists g, tail.
Qed.

(* ------------------------------------------------------------------ *)
(** ** [endswith] *)
(* ------------------------------------------------------------------ *)

Lemma rev_app_app (a c : string) :
  String.rev_app a c = String.rev_app a "" +:+ c.
Proof.
  revert c. induction a as [|x a IH]; intros c; simpl; [done|].
  rewrite IH, (IH (String x "")). by rewrite string_app_assoc.
Qed.

Lemma string_rev_app (a b : string) :
  String.rev (a +:+ b) = String.rev b +:+ String.rev a.
Proof.
  unfold String.rev. revert b. induction a as [|x a IH]; intros b; str.
  - by rewrite string_app_nil_r.
  - rewrite (rev_app_app (a +:+ b)), IH, (rev_app_app a (String x "")).
    by rewrite string_app_assoc.
Qed.

Lemma prefix_app (p r : string) : String.prefix p (p +:+ r) = true.
Proof.
  induction p as [|x p IH]; [by destruct r|].
  rewrite string_app_cons. simpl. by destruct (ascii_dec x x).
Qed.

Lemma endswith_app (s t : string) : Text.endswith (s +:+ t) t = true.
Proof. unfold Text.endswith. rewrite string_rev_app. apply prefix_app. Qed.

Lemma endswith_last (s : string) (c d : ascii) :
  c ≠ d → Text.endswith (s +:+ String c "") (String d "") = false.
Proof.
  intros Hne. unfold Text.endswith. rewrite string_rev_app.
  unfold String.rev. simpl. str. by destruct (ascii_dec d c).
Qed.

Lemma size_segment_not_newline (prefix : string) (g : SizeSegment) :
  size_segment_ok g →
  Text.endswith (prefix +:+ size_segment_text g) (String Text.LF "") = false.
Proof.
  destruct g as [w x h bb q ext]. intros (_ & _ & _ & _ & _ & Hext).
  unfold size_segment_text. cbn [seg_w seg_x seg_h seg_bb seg_q seg_ext] in *.
  assert (∃ e c, ext = e +:+ String c "" ∧ Text.lower_char c = "g"%char)
    as (e & c & -> & Hc).
  { destruct ext as [|c1 [|c2 [|c3 [|c4 ext]]]];
      try (destruct Hext; discriminate).
    exists (String c1 (String c2 "")), c3. split; [done|].
    by destruct Hext as [[= _ _ ?]|[= _ _ ?]]. }
  rewrite <- !string_app_assoc. apply endswith_last.
  intros ->. discriminate.
Qed.

(* ------------------------------------------------------------------ *)
(** ** [build_upscaled_urls] *)
(* ------------------------------------------------------------------ *)

Lemma build_upscaled_urls_resized (prefix : string) (g : SizeSegment)
    (tail : string) :
  size_segment_ok g → Text.at_end tail = true →
  build_upscaled_urls (prefix +:+ size_segment_text g +:+ tail)
  = resized_urls prefix g.
Proof.
  intros Hok Hend. unfold build_upscaled_urls.
  by rewrite search_size_segment_complete.
Qed.

Lemma build_upscaled_urls_cases (url : string) :
  (search_size_segment url = None
   ∧ build_upscaled_urls url = appended_urls url)
  ∨ (∃ prefix g tail,
       size_segment_ok g ∧ Text.at_end tail = true
       ∧ url = prefix +:+ size_segment_text g +:+ tail
       ∧ build_upscaled_urls url = resized_urls prefix g).
Proof.
  destruct (search_size_segment url) as [m|] eqn:Hm.
  - right. apply search_size_segment_sound in Hm
      as (g & tail & Hok & -> & Hend & _).
    exists (before m), g, tail. split_and!; try done.
    by apply build_upscaled_urls_resized.
  - left. split; [done|]. unfold build_upscaled_urls. by rewrite Hm.
Qed.

Lemma resized_not_appended (prefix : string) (g : SizeSegment)
    (tail : string) :
  resized_urls prefix g
  ≠ appended_urls (prefix +:+ size_segment_text g +:+ tail).
Proof.
  unfold resized_urls, appended_urls, size_segment_text. simpl.
  intros [= Hhd _]. apply (f_equal String.length) in Hhd.
  repeat (rewrite !string_length_app in Hhd; simpl in Hhd).
  destruct (Text.endswith _ _); simpl in Hhd; lia.
Qed.

Lemma probe_sizes_descending : StronglySorted smaller_size PROBE_SIZES.
Proof. apply (bool_decide_unpack _). vm_compute. exact I. Qed.

(** C5, as amended: for every URL that ends in
    [/<2 to 5 digits>x<2 to 5 digits>bb.jpg], [build_upscaled_urls] gives
    one candidate for each probe size, in order, each with the size put in
    place of the old one and [bb.jpg] kept; the first ends in
    [/100000x100000bb.jpg], the last in [/600x600bb.jpg], and the sizes
    go strictly down. *)
Theorem build_upscaled_urls_bb_jpg (prefix w h : string) :
  digit_run 2 5 w → digit_run 2 5 h →
  let urls :=
    build_upscaled_urls (prefix +:+ "/" +:+ w +:+ "x" +:+ h +:+ "bb.jpg") in
  urls = map (λ sz, prefix +:+ "/" +:+ sz +:+ "bb.jpg") PROBE_SIZES
  ∧ head urls = Some (prefix +:+ "/100000x100000bb.jpg")
  ∧ last urls = Some (prefix +:+ "/600x600bb.jpg")
  ∧ StronglySorted smaller_size PROBE_SIZES.
Proof.
  intros Hw Hh urls.
  assert (urls = map (λ sz, prefix +:+ "/" +:+ sz +:+ "bb.jpg") PROBE_SIZES)
    as Hurls.
  { pose proof (build_upscaled_urls_resized prefix
                  (mkSizeSegment w "x" h "bb" "" "jpg") "") as Hb.
    rewrite string_app_nil_r in Hb. apply Hb; [|done].
    unfold size_segment_ok. simpl. split_and!; auto. }
  rewrite Hurls. split_and!; [done..|apply probe_sizes_descending].
Qed.

Lemma build_upscaled_urls_bb_jpg_witness :
  build_upscaled_urls "https://is1.mzstatic.com/t/100x100bb.jpg"
  = map (λ sz, "https://is1.mzstatic.com/t" +:+ "/" +:+ sz +:+ "bb.jpg")
        PROBE_SIZES.
Proof.
  apply (build_upscaled_urls_bb_jpg "https://is1.mzstatic.com/t" "100" "100").
  - vm_compute. split_and!; [reflexivity|lia|lia].
  - vm_compute. split_and!; [reflexivity|lia|lia].
Defined.

(** C5, as it was stated, fails when a number has fewer than two or more
    than five digits: the pattern does not match and the fallback appends
    a segment without [bb]. *)
Lemma build_upscaled_urls_one_digit :
  let url := "http://a/9x9bb.jpg" in
  url = "http://a" +:+ "/" +:+ "9" +:+ "x" +:+ "9" +:+ "bb.jpg"
  ∧ string_all Text.is_digit "9" = true
  ∧ head (build_upscaled_urls url)
    = Some "http://a/9x9bb.jpg/100000x100000.jpg"
  ∧ Text.endswith "http://a/9x9bb.jpg/100000x100000.jpg"
      "/100000x100000bb.jpg" = false.
Proof. by vm_compute. Qed.

(** C10, as amended: for every input [build_upscaled_urls] returns
    exactly 15 candidates, one for each entry of [PROBE_SIZES] in that
    order; and for every input of ASCII characters the candidates are
    the fallback ones (a size segment appended to the URL) exactly when
    the pattern does not match, that is, when the URL does not end in a
    [/<2-5 digits>x<2-5 digits>[bb][-<digits>].(jpg|png)] segment,
    letters in either case, nor in such a segment followed by one
    newline.  So for an input that does not end in a newline they are
    the fallback ones exactly when the URL does not end in a size
    segment. *)
Theorem build_upscaled_urls_shape (url : string) :
  length (build_upscaled_urls url) = 15
  ∧ (∃ pre post,
       build_upscaled_urls url = map (λ sz, pre +:+ sz +:+ post) PROBE_SIZES)
  ∧ (ascii_text url →
     (build_upscaled_urls url = appended_urls url
      ↔ ¬ has_size_segment url)
     ∧ (Text.endswith url (String Text.LF "") = false →
        (build_upscaled_urls url = appended_urls url
         ↔ ¬ ends_in_size_segment url))).
Proof.
  destruct (build_upscaled_urls_cases url)
    as [[Hnone ->]|(prefix & g & tail & Hok & Hend & -> & ->)].
  - split; [done|]. split.
    + eexists (url +:+ "/"), _. unfold appended_urls.
      apply map_ext. intros sz. by rewrite string_app_assoc.
    + intros _. split.
      * split; [|done]. intros _ (prefix & g & tail & Hok & Hend & ->).
        by rewrite search_size_segment_complete in Hnone.
      * intros _. split; [|done]. intros _ (prefix & g & Hok & ->).
        rewrite <- (string_app_nil_r (size_segment_text g)) in Hnone.
        by rewrite search_size_segment_complete in Hnone.
  - split; [done|]. split.
    + eexists (prefix +:+ "/"), _. unfold resized_urls.
      apply map_ext. intros sz. by rewrite string_app_assoc.
    + intros _. split.
      * split.
        -- intros Heq. by apply resized_not_appended in Heq.
        -- intros Hnot. exfalso. apply Hnot. by exists prefix, g, tail.
      * intros Hnl. split.
        -- intros Heq. by apply resized_not_appended in Heq.
        -- intros Hnot. exfalso. apply Hnot.
           apply at_end_cases in Hend as [->| ->].
           ++ exists prefix, g. by rewrite string_app_nil_r.
           ++ rewrite <- string_app_assoc, endswith_app in Hnl. done.
Qed.

Lemma build_upscaled_urls_shape_witness :
  let url := "https://is1.mzstatic.com/t/cover.jpeg" in
  (build_upscaled_urls url = appended_urls url ↔ ¬ has_size_segment url)
  ∧ (Text.endswith url (String Text.LF "") = false →
     (build_upscaled_urls url = appended_urls url
      ↔ ¬ ends_in_size_segment url)).
Proof.
  apply (proj2 (proj2 (build_upscaled_urls_shape
                         "https://is1.mzstatic.com/t/cover.jpeg"))).
  vm_compute. reflexivity.
Defined.

(** C10, as it was stated, fails on a URL with a newline after the
    segment: it does not end in a size segment, yet [$] matches before the
    newline and the candidates are not the fallback ones. *)
Lemma build_upscaled_urls_trailing_newline :
  let url := "http://a/100x100bb.jpg" +:+ String Text.LF "" in
  ¬ ends_in_size_segment url
  ∧ build_upscaled_urls url ≠ appended_urls url
  ∧ head (build_upscaled_urls url) = Some "http://a/100000x100000bb.jpg".
Proof.
  intros url. split_and!.
  - intros (prefix & g & Hok & Hurl).
    pose proof (size_segment_not_newline prefix g Hok) as Hnl.
    rewrite <- Hurl in Hnl. vm_compute in Hnl. discriminate.
  - intros Heq. vm_compute in Heq. congruence.
  - vm_compute. reflexivity.
Qed.

(* ================================================================== *)
(** * Library scanner *)
(* ================================================================== *)

Lemma is_child_snoc (p q : Path) : is_child p q → ∃ name, q = p ++ [name].
Proof.
  intros [Hlen Htake].
  destruct (drop (length p) q) as [|name rest] eqn:Hdrop.
  - apply (f_equal length) in Hdrop. rewrite length_drop in Hdrop.
    simpl in Hdrop. lia.
  - exists name. rewrite <- (take_drop (length p) q), Htake, Hdrop.
    f_equal. apply (f_equal length) in Hdrop.
    rewrite length_drop in Hdrop. simpl in Hdrop.
    destruct rest; [done|simpl in Hdrop; lia].
Qed.

Lemma iterdir_child (fs : gmap Path Node) (p q : Path) :
  q ∈ iterdir fs p → ∃ name, q = p ++ [name].
Proof.
  unfold iterdir. intros Hq.
  apply list_elem_of_filter in Hq as [Hchild _]. by apply is_child_snoc.
Qed.

Lemma subdirs_elem (fs : gmap Path Node) (p q : Path) :
  q ∈ subdirs fs p → (∃ name, q = p ++ [name]) ∧ is_dir fs q = true.
Proof.
  unfold subdirs, sorted. rewrite merge_sort_Permutation.
  intros Hq. apply list_elem_of_filter in Hq as [Hdir Hq].
  split; [by eapply iterdir_child|done].
Qed.

Lemma subdirs_empty (fs : gmap Path Node) (p : Path) :
  (∀ name, is_dir fs (p ++ [name]) = false) → subdirs fs p = [].
Proof.
  intros Hnone. destruct (subdirs fs p) as [|q l] eqn:Hsub; [done|].
  assert (q ∈ subdirs fs p) as Hq by (rewrite Hsub; left).
  apply subdirs_elem in Hq as [[name ->] Hdir]. by rewrite Hnone in Hdir.
Qed.

Lemma flat_map_nil {A B : Type} (f : A → list B) (l : list A) :
  (∀ x, x ∈ l → f x = []) → flat_map f l = [].
Proof.
  induction l as [|x l IH]; intros Hf; simpl; [done|].
  rewrite Hf by left. rewrite IH; [done|]. intros y Hy. apply Hf. by right.
Qed.

(** C8: for every root that does not exist or is not a directory, and for
    every root directory whose entries, or whose entries' entries, are
    all non-directories, [find_album_dirs] yields the empty sequence. *)
Theorem find_album_dirs_empty (fs : gmap Path Node) (root : Path) :
  fs !! root ≠ Some Dir
  ∨ (∀ name, fs !! (root ++ [name]) ≠ Some Dir)
  ∨ (∀ artist name, fs !! (root ++ [artist; name]) ≠ Some Dir) →
  find_album_dirs fs root = [].
Proof.
  unfold find_album_dirs. intros [Hroot|[Hone|Htwo]].
  - replace (is_dir fs root) with false; [done|].
    symmetry. by apply bool_decide_eq_false.
  - destruct (is_dir fs root); [|done]. simpl.
    rewrite subdirs_empty; [done|].
    intros name. by apply bool_decide_eq_false.
  - destruct (is_dir fs root); [|done]. simpl.
    apply flat_map_nil. intros artist Hartist.
    apply subdirs_elem in Hartist as [[a ->] _].
    apply subdirs_empty. intros name. apply bool_decide_eq_false.
    rewrite <- app_assoc. apply Htwo.
Qed.

Lemma find_album_dirs_empty_witness :
  find_album_dirs
    (<[["music"] := Dir]>
       (<[["music"; "notes.txt"] := File "x"]>
          (<[["music"; "cover.jpg"] := File "y"]> ∅)))
    ["music"] = [].
Proof.
  apply find_album_dirs_empty. right. left.
  intros name Hdir.
  destruct (decide (name = "notes.txt")) as [->|H1];
    [vm_compute in Hdir; discriminate|].
  destruct (decide (name = "cover.jpg")) as [->|H2];
    [vm_compute in Hdir; discriminate|].
  rewrite lookup_insert_ne in Hdir by (intros [=]).
  rewrite lookup_insert_ne in Hdir by (intros [=]; congruence).
  rewrite lookup_insert_ne in Hdir by (intros [=]; congruence).
  by rewrite lookup_empty in Hdir.
Defined.

(* ================================================================== *)
(** * Orchestrator *)
(* ================================================================== *)

Section Orchestrator_facts.
Variable env : Env.
Variable args : Args.

(** C6: for every album directory that already holds [cover.jpg] or
    [cover.png], when overwrite is not asked for, [process_album] reports
    a skip and leaves the world as it was: no request is sent to the
    catalog or to the CDN, and no file changes. *)
Theorem process_album_existing_cover (album_dir : Path) (w : World) :
  exists_ (files w) (album_dir ++ ["cover.jpg"]) = true
  ∨ exists_ (files w) (album_dir ++ ["cover.png"]) = true →
  force args = false →
  ∃ msg,
    process_album env args album_dir w = (Ok (false, msg), w)
    ∧ (msg = msg_disc album_dir
       ∨ ∃ existing,
           album_has_cover (files w) album_dir = Some existing
           ∧ msg = msg_exists existing album_dir
                     (name (parent album_dir)) (name album_dir)).
Proof.
  intros Hcover Hforce. unfold process_album.
  destruct (is_disc_subfolder (name album_dir)).
  - eexists. split; [done|by left].
  - unfold bind at 1. unfold get_files at 1. rewrite Hforce.
    assert (∃ existing, album_has_cover (files w) album_dir = Some existing)
      as [existing Hex].
    { unfold album_has_cover. simpl.
      destruct (exists_ (files w) (album_dir ++ ["cover.jpg"])); [by eexists|].
      destruct Hcover as [? | ->]; [done|by eexists]. }
    rewrite Hex. eexists. split; [done|]. right. by exists existing.
Qed.

Lemma tally_one_more (c : Counters) (did_change : bool) (msg : string) :
  one_more c (tally c did_change msg).
Proof.
  unfold tally, one_more. destruct did_change; [by left|].
  destruct (existsb _ _); [by right; right|by right; left].
Qed.

Lemma main_step_flow (total idx : nat) (album_dir : Path) (c : Counters)
    (w : World) :
  ∃ flow w',
    main_step env args total idx album_dir c w = (Ok flow, w')
    ∧ match flow with
      | Continue c' => cut_short env args album_dir w = false ∧ one_more c c'
      | Return c' => cut_short env args album_dir w = true ∧ c' = c
      end.
Proof.
  unfold main_step, try_except, bind at 1, cut_short.
  destruct (process_album env args album_dir w) as [[[did_change msg]|e] w1].
  - eexists _, _. split; [done|]. split; [done|]. apply tally_one_more.
  - destruct e; eexists _, _; (split; [done|]); try done;
      (split; [done|]); by right; right.
Qed.

Lemma pause_cases (idx : nat) (w : World) :
  pause env idx w
  = if interrupted env idx then (Raised KeyboardInterrupt, w)
    else (Ok (), (sleep (5 # 100) w).2).
Proof. unfold pause. by destruct (interrupted env idx). Qed.

Lemma main_loop_counts (total : nat) (album_dirs : list Path) (idx : nat)
    (c : Counters) (w : World) (r : Result Counters) (w' : World) :
  main_loop env args total idx album_dirs c w = (r, w') →
  match r with
  | Ok c' =>
      counted c' = counted c + processed env args total idx album_dirs c w
  | Raised e => e = KeyboardInterrupt ∧ ∃ n, interrupted env n = true
  end.
Proof.
  revert idx c w. induction album_dirs as [|album_dir album_dirs IH];
    intros idx c w.
  - unfold main_loop, ret. intros [= <- <-]. simpl. lia.
  - cbn [main_loop processed]. unfold bind at 1.
    destruct (main_step_flow total idx album_dir c w)
      as (flow & w1 & Hstep & Hflow).
    unfold after_pass. rewrite Hstep.
    destruct flow as [c1|c1].
    + destruct Hflow as [-> ->]. unfold ret. intros [= <- <-]. lia.
    + destruct Hflow as [-> Hone]. unfold bind at 1.
      rewrite pause_cases.
      destruct (interrupted env idx) eqn:Hint.
      * intros [= <- <-]. split; [done|]. by exists idx.
      * intros Hloop. specialize (IH _ _ _ Hloop).
        destruct r as [c'|e]; [|done].
        rewrite IH. unfold counted.
        destruct Hone as [-> | [-> | ->]]; simpl; lia.
Qed.

Lemma main_loop_returns (total : nat) (album_dirs : list Path) (idx : nat)
    (c : Counters) (w : World) :
  (∀ n, interrupted env n = false) →
  ∃ c' w', main_loop env args total idx album_dirs c w = (Ok c', w').
Proof.
  intros Hquiet. revert idx c w.
  induction album_dirs as [|album_dir album_dirs IH]; intros idx c w.
  - by eexists _, _.
  - cbn [main_loop]. unfold bind at 1.
    destruct (main_step_flow total idx album_dir c w)
      as (flow & w1 & -> & _).
    destruct flow as [c1|c1]; [by eexists _, _|].
    unfold bind at 1. rewrite pause_cases, Hquiet. apply IH.
Qed.


End Orchestrator_facts.

Lemma process_album_existing_cover_witness :
  ∃ msg,
    process_album Example.no_artwork Example.args Example.album_dir Example.covered_world
    = (Ok (false, msg), Example.covered_world)
    ∧ (msg = msg_disc Example.album_dir
       ∨ ∃ existing,
           album_has_cover (files Example.covered_world) Example.album_dir
           = Some existing
           ∧ msg = msg_exists existing Example.album_dir
                     (name (parent Example.album_dir))
                     (name Example.album_dir)).
Proof.
  apply (process_album_existing_cover Example.no_artwork Example.args).
  - left. vm_compute. reflexivity.
  - reflexivity.
Defined.



(* ================================================================== *)
(** * Waiting and retrying *)
(* ================================================================== *)

Section Client_facts.
Variable env : Env.
Hypothesis random_range : ∀ n, (0 <= random env n)%Q ∧ (random env n <= 1)%Q.

Lemma sleep_ok (secs : Q) (w : World) :
  (0 <= secs)%Q →
  ∃ w', sleep secs w = (Ok (), w')
        ∧ sent w' = sent w ∧ slept w' = slept w ++ [secs].
Proof.
  intros Hsecs. unfold sleep.
  replace (Qlt_bool secs 0) with false
    by (symmetry; by apply Qlt_bool_false).
  by eexists.
Qed.

Lemma uniform_range (hi : Q) (w : World) :
  (0 <= hi)%Q →
  ∃ u w', uniform env 0 hi w = (Ok u, w')
          ∧ sent w' = sent w ∧ slept w' = slept w
          ∧ (0 <= u)%Q ∧ (u <= hi)%Q.
Proof.
  intros Hhi. unfold uniform. eexists _, _. split; [done|].
  destruct (random_range (draws w)) as [H0 H1]. simpl.
  split_and!; try done; nra.
Qed.

Lemma Pacer_wait_ok (key : string) (min_interval jitter : Q) (w : World) :
  ∃ w', Pacer_wait env key min_interval jitter w = (Ok (), w')
        ∧ sent w' = sent w.
Proof.
  unfold Pacer_wait, bind, monotonic.
  set (to_wait := Qmax 0 (min_interval - (now w - default 0%Q (pacer_last w !! key)))).
  destruct (Qlt_bool 0 to_wait) eqn:Hwait; [|by eexists].
  apply Qlt_bool_true in Hwait.
  destruct (Qlt_bool 0 jitter) eqn:Hj.
  - apply Qlt_bool_true in Hj.
    destruct (uniform_range jitter w) as (u & w1 & -> & Hs1 & _ & Hu & _);
      [lra|].
    destruct (sleep_ok (to_wait + u) w1) as (w2 & -> & Hs2 & _); [lra|].
    eexists. split; [done|]. congruence.
  - unfold ret.
    destruct (sleep_ok (to_wait + 0) w) as (w2 & -> & Hs2 & _); [lra|].
    by eexists.
Qed.

Lemma backoff_sleep_ok (jitter cap delay : Q) (w : World) :
  (0 <= cap)%Q → (0 <= delay)%Q →
  ∃ w' u, backoff_sleep env jitter cap delay w = (Ok (), w')
          ∧ sent w' = sent w
          ∧ last (slept w') = Some (Qmin cap delay + u)%Q
          ∧ (0 <= u)%Q ∧ (u <= Qmax (5 # 100) jitter)%Q.
Proof.
  intros Hcap Hdelay. unfold backoff_sleep, bind.
  assert (5 # 100 <= Qmax (5 # 100) jitter)%Q as Hmax by apply Q.le_max_l.
  destruct (uniform_range (Qmax (5 # 100) jitter) w)
    as (u & w1 & -> & Hs1 & _ & Hu0 & Hu1); [lra|].
  assert (0 <= Qmin cap delay)%Q as Hmin by (by apply Q.min_glb).
  destruct (sleep_ok (Qmin cap delay + u) w1) as (w2 & -> & Hs2 & Hsl);
    [lra|].
  exists w2, u. split_and!; try done; [congruence|].
  rewrite Hsl. apply last_snoc.
Qed.

Lemma retryable_not_200 (st : Z) : retryable st = true → (st =? 200)%Z = false.
Proof. unfold retryable. lia. Qed.

Lemma retry_delay_header (r : Response) (backoff : Q) (attempt : nat)
    (retry_after : string) (delay : Q) :
  headers r !! "Retry-After" = Some retry_after →
  float retry_after = Some delay →
  retry_delay r backoff attempt = delay.
Proof.
  unfold retry_delay. intros -> Hfloat.
  destruct retry_after; [by vm_compute in Hfloat|]. by rewrite Hfloat.
Qed.

Lemma session_get_reply (req : Request) (w : World) (r : Response) :
  serve env (length (sent w)) req = inr r →
  ∃ w', session_get env req w = (Ok r, w') ∧ sent w' = sent w ++ [req].
Proof. unfold session_get. intros ->. by eexists. Qed.

Section Retryable.
Variables (timeout : Z) (api_interval cdn_interval backoff jitter : Q).
Variable r : Response.
Variable attempt : nat.
Hypothesis r_retryable : retryable (status_code r) = true.
Hypothesis delay_nonneg : (0 <= retry_delay r backoff attempt)%Q.

(** a retryable status: the attempt sleeps and goes on to the next one,
    with [last_exc] as it was *)
Lemma api_attempt_retryable (params : gmap string string)
    (last_exc : option Exc) (w : World) :
  serve env (length (sent w)) (mkRequest ITUNES_SEARCH_URL params timeout)
    = inr r →
  ∃ w' u,
    api_attempt env timeout api_interval backoff jitter params last_exc
      attempt w = (Ok (Continue last_exc), w')
    ∧ sent w' = sent w ++ [mkRequest ITUNES_SEARCH_URL params timeout]
    ∧ last (slept w') = Some (Qmin 30 (retry_delay r backoff attempt) + u)%Q
    ∧ (0 <= u)%Q ∧ (u <= Qmax (5 # 100) jitter)%Q.
Proof.
  intros Hserve. unfold api_attempt. unfold bind at 1.
  destruct (Pacer_wait_ok "itunes_api" api_interval (jitter * (1 # 2)) w)
    as (w1 & -> & Hs1).
  unfold try_except. unfold bind at 1.
  rewrite <- Hs1 in Hserve.
  destruct (session_get_reply _ w1 r Hserve) as (w2 & -> & Hs2).
  unfold bind at 1. unfold Pacer_mark at 1, bind at 1, monotonic.
  rewrite (retryable_not_200 _ r_retryable), r_retryable.
  unfold bind at 1.
  match goal with
  | |- context [backoff_sleep env jitter 30 _ ?w3] =>
      destruct (backoff_sleep_ok jitter 30 (retry_delay r backoff attempt) w3)
        as (w4 & u & -> & Hs4 & Hlast & Hu0 & Hu1); [done..|]
  end.
  exists w4, u. split_and!; try done.
  rewrite Hs4. simpl. by rewrite Hs2, Hs1.
Qed.

Lemma cdn_attempt_retryable (url : string) (w : World) :
  serve env (length (sent w)) (mkRequest url ∅ timeout) = inr r →
  ∃ w' u,
    cdn_attempt env timeout cdn_interval backoff jitter url attempt w
      = (Ok (Continue ()), w')
    ∧ sent w' = sent w ++ [mkRequest url ∅ timeout]
    ∧ last (slept w') = Some (Qmin 60 (retry_delay r backoff attempt) + u)%Q
    ∧ (0 <= u)%Q ∧ (u <= Qmax (5 # 100) jitter)%Q.
Proof.
  intros Hserve. unfold cdn_attempt. unfold bind at 1.
  destruct (Pacer_wait_ok "mzstatic_cdn" cdn_interval jitter w)
    as (w1 & -> & Hs1).
  unfold try_except. unfold bind at 1.
  rewrite <- Hs1 in Hserve.
  destruct (session_get_reply _ w1 r Hserve) as (w2 & -> & Hs2).
  unfold bind at 1. unfold Pacer_mark at 1, bind at 1, monotonic.
  rewrite (retryable_not_200 _ r_retryable), r_retryable.
  unfold bind at 1.
  match goal with
  | |- context [backoff_sleep env jitter 60 _ ?w3] =>
      destruct (backoff_sleep_ok jitter 60 (retry_delay r backoff attempt) w3)
        as (w4 & u & -> & Hs4 & Hlast & Hu0 & Hu1); [done..|]
  end.
  exists w4, u. split_and!; try done.
  rewrite Hs4. simpl. by rewrite Hs2, Hs1.
Qed.

End Retryable.

Lemma retry_delay_backoff (r : Response) (backoff : Q) (attempt : nat) :
  headers r !! "Retry-After" = None →
  retry_delay r backoff attempt = (backoff ^ Z.of_nat attempt)%Q.
Proof. unfold retry_delay. by intros ->. Qed.

(** all the attempts that are left get a retryable status: the loop ends
    without a result, and raises only what [last_exc] already held *)
Lemma api_loop_retryable (timeout : Z) (api_interval backoff jitter : Q)
    (params : gmap string string) (last_exc : option Exc)
    (attempts : list nat) (w : World) :
  (0 <= backoff)%Q →
  (∀ n req, ∃ r, serve env n req = inr r
                 ∧ retryable (status_code r) = true
                 ∧ headers r !! "Retry-After" = None) →
  ∃ w',
    api_loop env timeout api_interval backoff jitter params last_exc
      attempts w
    = (match last_exc with Some e => Raised e | None => Ok [] end, w')
    ∧ length (sent w') = length (sent w) + length attempts.
Proof.
  intros Hbackoff Hserve. revert w.
  induction attempts as [|attempt attempts IH]; intros w.
  - exists w. simpl. split; [by destruct last_exc|lia].
  - cbn [api_loop]. unfold bind at 1.
    destruct (Hserve (length (sent w))
                (mkRequest ITUNES_SEARCH_URL params timeout))
      as (r & Hr & Hretry & Hhdr).
    destruct (api_attempt_retryable timeout api_interval backoff jitter r
                attempt Hretry) with (params := params)
                (last_exc := last_exc) (w := w)
      as (w1 & u & -> & Hs1 & _); [|done|].
    { rewrite retry_delay_backoff by done. by apply Qpower_0_le. }
    destruct (IH w1) as (w' & -> & Hlen).
    exists w'. split; [done|].
    rewrite Hlen, Hs1, length_app. simpl. lia.
Qed.

End Client_facts.

(** C1 does not hold of the code: when every attempt is answered with a
    retryable status (403, 429 or 5xx), [api_search_with_retries] makes
    its [max_retries] requests and then returns the empty result list; it
    raises nothing, because only a timeout or a connection failure is
    kept in [last_exc]. *)
Theorem api_search_retryable_status_returns_empty (env : Env)
    (timeout : Z) (api_interval : Q) (max_retries : Z) (backoff jitter : Q)
    (params : gmap string string) (w : World) :
  (∀ n, (0 <= random env n)%Q ∧ (random env n <= 1)%Q) →
  (0 <= backoff)%Q →
  (∀ n req, ∃ r, serve env n req = inr r
                 ∧ retryable (status_code r) = true
                 ∧ headers r !! "Retry-After" = None) →
  ∃ w',
    api_search_with_retries env timeout api_interval max_retries backoff
      jitter params w = (Ok [], w')
    ∧ length (sent w') = length (sent w) + Z.to_nat max_retries.
Proof.
  intros Hrandom Hbackoff Hserve. unfold api_search_with_retries.
  destruct (api_loop_retryable env Hrandom timeout api_interval backoff
              jitter params None (seq 0 (Z.to_nat max_retries)) w
              Hbackoff Hserve) as (w' & Hloop & Hlen).
  exists w'. split; [done|]. by rewrite length_seq in Hlen.
Qed.

Lemma api_search_retryable_status_returns_empty_witness :
  ∃ w',
    api_search_with_retries Example.throttling 15 1 5 (18 # 10) (3 # 10)
      (<["term" := "Beatles Help"]> ∅) Example.world = (Ok [], w')
    ∧ length (sent w') = length (sent Example.world) + Z.to_nat 5.
Proof.
  apply api_search_retryable_status_returns_empty.
  - intros n. simpl. split; lra.
  - lra.
  - intros n req. by eexists.
Defined.




(* ================================================================== *)
(** * What the summary counts *)
(* ================================================================== *)

Lemma prefix_sep (c : ascii) (k a b : string) :
  avoids c k = true →
  String.prefix k (a +:+ String c b) = String.prefix k a.
Proof.
  revert k. induction a as [|x a IH]; intros k Hk.
  - rewrite string_app_nil_l. destruct k as [|y k]; [done|]. simpl in *.
    apply andb_true_iff in Hk as [Hy _]. apply negb_true_iff in Hy.
    apply Ascii.eqb_neq in Hy. by destruct (ascii_dec y c).
  - rewrite string_app_cons. destruct k as [|y k]; [done|]. simpl in *.
    apply andb_true_iff in Hk as [_ Hk].
    destruct (ascii_dec y x); [by apply IH|done].
Qed.

Lemma contains_sep (c : ascii) (k a b : string) :
  avoids c k = true →
  Text.contains k (a +:+ String c b)
  = Text.contains k a || Text.contains k b.
Proof.
  intros Hk. induction a as [|x a IH].
  - rewrite string_app_nil_l. cbn [Text.contains].
    rewrite <- (string_app_nil_l (String c b)) at 1.
    rewrite prefix_sep by done. by rewrite orb_false_r.
  - rewrite string_app_cons. cbn [Text.contains].
    rewrite <- string_app_cons, prefix_sep by done.
    rewrite IH. by rewrite orb_assoc.
Qed.

Lemma contains_lead (c y : ascii) (k s : string) :
  y ≠ c →
  Text.contains (String y k) (String c s) = Text.contains (String y k) s.
Proof.
  intros Hne. cbn [Text.contains]. simpl String.prefix.
  by destruct (ascii_dec y c).
Qed.

Lemma prefix_trail (c : ascii) (k s : string) :
  k ≠ "" → (∀ k0, k ≠ k0 +:+ String c "") →
  String.prefix k (s +:+ String c "") = String.prefix k s.
Proof.
  revert k. induction s as [|x s IH]; intros k Hne Hlast.
  - rewrite string_app_nil_l. destruct k as [|y k]; [done|]. simpl.
    destruct (ascii_dec y c) as [->|]; [|done].
    destruct k as [|z k]; [|done]. by destruct (Hlast "").
  - rewrite string_app_cons. destruct k as [|y k]; [done|]. simpl.
    destruct (ascii_dec y x) as [->|]; [|done].
    destruct k as [|z k]; [by destruct s|].
    apply IH; [done|]. intros k0 Hk0. apply (Hlast (String x k0)).
    by rewrite string_app_cons, Hk0.
Qed.

Lemma contains_trail (c : ascii) (k s : string) :
  k ≠ "" → Text.endswith k (String c "") = false →
  Text.contains k (s +:+ String c "") = Text.contains k s.
Proof.
  intros Hne Hend.
  assert (∀ k0, k ≠ k0 +:+ String c "") as Hlast.
  { intros k0 ->. by rewrite endswith_app in Hend. }
  induction s as [|x s IH].
  - rewrite string_app_nil_l. cbn [Text.contains].
    rewrite <- (string_app_nil_l (String c "")) at 1.
    rewrite prefix_trail by done.
    destruct k; [done|]. by rewrite !orb_false_r.
  - rewrite string_app_cons. cbn [Text.contains].
    rewrite <- string_app_cons, prefix_trail by done. by rewrite IH.
Qed.

Lemma contains_itself (k s : string) : Text.contains k (k +:+ s) = true.
Proof.
  destruct k as [|y k]; [by destruct s|].
  rewrite string_app_cons. cbn [Text.contains].
  by rewrite <- string_app_cons, prefix_app.
Qed.

Lemma lower_msg_no_match (artist album : string) :
  Text.lower (msg_no_match artist album)
  = "no good match"
    +:+ String ":" (String " " (Text.lower artist +:+ String " " "")
                    +:+ String "/" (String " " (Text.lower album))).
Proof.
  unfold msg_no_match. rewrite !lower_app.
  rewrite (string_app_cons " " (Text.lower artist +:+ String " " "")).
  rewrite (string_app_assoc (Text.lower artist)).
  reflexivity.
Qed.

(** a word with no [:], [/] or leading or trailing space occurs in the
    lowered "No good match" message only if it occurs in a name *)
Lemma contains_no_match (y : ascii) (k artist album : string) :
  avoids ":" (String y k) = true → avoids "/" (String y k) = true →
  y ≠ " "%char → Text.endswith (String y k) " " = false →
  Text.contains (String y k) "no good match" = false →
  Text.contains (String y k) (Text.lower artist) = false →
  Text.contains (String y k) (Text.lower album) = false →
  Text.contains (String y k) (Text.lower (msg_no_match artist album))
  = false.
Proof.
  intros Hcolon Hslash Hlead Htrail Hhead Hartist Halbum.
  rewrite lower_msg_no_match.
  rewrite (contains_sep ":") by done. rewrite Hhead. cbn [orb].
  rewrite (contains_sep "/") by done.
  rewrite !contains_lead by done.
  rewrite contains_trail by done.
  by rewrite Hartist, Halbum.
Qed.

Lemma no_error_word_each (s : string) :
  no_error_word s →
  Text.contains "error" (Text.lower s) = false
  ∧ Text.contains "failed" (Text.lower s) = false
  ∧ Text.contains "no accessible artwork" (Text.lower s) = false
  ∧ Text.contains "network" (Text.lower s) = false.
Proof.
  unfold no_error_word, error_words. cbn [existsb].
  rewrite !orb_false_iff. tauto.
Qed.

Lemma tally_no_match (c : Counters) (artist album : string) :
  no_error_word artist → no_error_word album →
  tally c false (msg_no_match artist album)
  = mkCounters (changed c) (skipped c + 1) (errors c).
Proof.
  intros Hartist Halbum.
  apply no_error_word_each in Hartist as (Ha1 & Ha2 & Ha3 & Ha4).
  apply no_error_word_each in Halbum as (Hb1 & Hb2 & Hb3 & Hb4).
  unfold tally, error_words. cbn [existsb].
  rewrite !contains_no_match by (done || by intros [=]).
  done.
Qed.

Lemma tally_no_artwork (c : Counters) (artist album : string) :
  tally c false (msg_no_artwork artist album)
  = mkCounters (changed c) (skipped c) (errors c + 1).
Proof.
  unfold tally, error_words, msg_no_artwork. cbn [existsb].
  rewrite lower_app.
  change (Text.lower "No accessible artwork: ")
    with ("no accessible artwork" +:+ ": ").
  rewrite string_app_assoc, contains_itself.
  by rewrite !orb_true_r.
Qed.

Lemma main_step_returned (env : Env) (args : Args) (total idx : nat)
    (album_dir : Path) (c : Counters) (w w1 : World) (did_change : bool)
    (msg : string) :
  process_album env args album_dir w = (Ok (did_change, msg), w1) →
  ∃ w', main_step env args total idx album_dir c w
        = (Ok (Continue (tally c did_change msg)), w').
Proof.
  intros Hrun. unfold main_step, try_except, bind at 1. rewrite Hrun.
  by eexists.
Qed.

(** C2, as amended: an album whose processing ends with "no accessible
    artwork" is counted under errors; an album whose processing ends with
    "no good match" is counted under skipped, provided the artist and
    album names are ASCII text and neither contains, in either case, one
    of the words "error", "failed", "network" or "no accessible
    artwork".  (The counting lowers the message with [str.lower], which
    the embedding gives for ASCII text.) *)
Theorem no_match_is_skipped_no_artwork_is_error (env : Env) (args : Args)
    (total idx : nat) (album_dir : Path) (c : Counters) (w w1 : World)
    (artist album : string) :
  (process_album env args album_dir w
   = (Ok (false, msg_no_artwork artist album), w1) →
   ∃ w', main_step env args total idx album_dir c w
         = (Ok (Continue (mkCounters (changed c) (skipped c) (errors c + 1))),
            w'))
  ∧ (process_album env args album_dir w
     = (Ok (false, msg_no_match artist album), w1) →
     ascii_text artist → ascii_text album →
     no_error_word artist → no_error_word album →
     ∃ w', main_step env args total idx album_dir c w
           = (Ok (Continue (mkCounters (changed c) (skipped c + 1)
                              (errors c))),
              w')).
Proof.
  split.
  - intros Hrun.
    destruct (main_step_returned env args total idx album_dir c w w1 _ _ Hrun)
      as [w' Hstep].
    exists w'. by rewrite Hstep, tally_no_artwork.
  - intros Hrun _ _ Hartist Halbum.
    destruct (main_step_returned env args total idx album_dir c w w1 _ _ Hrun)
      as [w' Hstep].
    exists w'. by rewrite Hstep, tally_no_match.
Qed.

Lemma no_match_is_skipped_no_artwork_is_error_witness :
  ∃ w', main_step Example.no_results Example.args 1 1 Example.album_dir
          (mkCounters 0 0 0) Example.world
        = (Ok (Continue (mkCounters 0 1 0)), w').
Proof.
  destruct (no_match_is_skipped_no_artwork_is_error Example.no_results
              Example.args 1 1 Example.album_dir (mkCounters 0 0 0)
              Example.world
              (process_album Example.no_results Example.args
                 Example.album_dir Example.world).2
              "Beatles" "Help") as [_ Hskip].
  apply Hskip.
  - vm_compute. reflexivity.
  - vm_compute. reflexivity.
  - vm_compute. reflexivity.
  - vm_compute. reflexivity.
  - vm_compute. reflexivity.
Defined.

(** C2, as it was stated, fails for "no accessible artwork": the catalog
    knows the album, the CDN refuses every candidate, [process_album]
    ends with "No accessible artwork", and the summary shows one error
    and no skip. *)
Lemma no_accessible_artwork_counts_as_error :
  (process_album Example.no_artwork Example.args Example.album_dir
     Example.world).1
  = Ok (false, msg_no_artwork "Beatles" "Help")
  ∧ (main_loop Example.no_artwork Example.args 1 1 [Example.album_dir]
       (mkCounters 0 0 0) Example.world).1
    = Ok (mkCounters 0 0 1).
Proof. split; vm_compute; reflexivity. Qed.
(* ================================================================== *)
(** * Requests sent and files touched *)
(* ================================================================== *)

Lemma effect_refl (P : Request -> Prop) (F : Path -> Prop) (n : nat)
    (w : World) :
  effect P F n w w.
Proof.
  split_and!; try done. exists []. rewrite app_nil_r.
  split_and!; [done|simpl; lia|done].
Qed.

Lemma sends_trans (P : Request -> Prop) (n k : nat) (w1 w2 w3 : World) :
  sends P n w1 w2 → sends P k w2 w3 → sends P (n + k) w1 w3.
Proof.
  intros (r1 & Hs1 & Hl1 & HP1) (r2 & Hs2 & Hl2 & HP2).
  exists (r1 ++ r2). split_and!.
  - by rewrite Hs2, Hs1, app_assoc.
  - rewrite length_app. lia.
  - by apply Forall_app.
Qed.

Lemma sends_weaken (P P' : Request -> Prop) (n n' : nat) (w w' : World) :
  (∀ r, P r → P' r) → n ≤ n' → sends P n w w' → sends P' n' w w'.
Proof.
  intros HP Hn (r & Hs & Hl & Hall).
  exists r. split_and!; [done|lia|]. eapply Forall_impl; eauto.
Qed.

Lemma keeps_files_trans (F : Path -> Prop) (w1 w2 w3 : World) :
  keeps_files F w1 w2 → keeps_files F w2 w3 → keeps_files F w1 w3.
Proof. intros Hf1 Hf2 p Hp. by rewrite Hf2, Hf1. Qed.

Lemma keeps_files_weaken (F F' : Path -> Prop) (w w' : World) :
  (∀ p, F p → F' p) → keeps_files F w w' → keeps_files F' w w'.
Proof. intros HF Hf p Hp. apply Hf. naive_solver. Qed.

Lemma effect_trans (P : Request -> Prop) (F : Path -> Prop) (n k : nat)
    (w1 w2 w3 : World) :
  effect P F n w1 w2 → effect P F k w2 w3 → effect P F (n + k) w1 w3.
Proof.
  intros (Hs1 & Hf1 & Ho1 & He1) (Hs2 & Hf2 & Ho2 & He2).
  split_and!; [by eapply sends_trans|by eapply keeps_files_trans|..];
    congruence.
Qed.

Lemma effect_weaken (P P' : Request -> Prop) (F F' : Path -> Prop)
    (n n' : nat) (w w' : World) :
  (∀ r, P r → P' r) → (∀ p, F p → F' p) → n ≤ n' →
  effect P F n w w' → effect P' F' n' w w'.
Proof.
  intros HP HF Hn (Hs & Hf & Ho & He).
  split_and!; [by eapply sends_weaken|by eapply keeps_files_weaken|done..].
Qed.

Section Does.
Context {T U : Type}.
Variable P : Request -> Prop.
Variable F : Path -> Prop.

Lemma does_ret (n : nat) (x : T) : does P F n (ret x).
Proof. intros w. apply effect_refl. Qed.

Lemma does_raise (n : nat) (e : Exc) : does P F n (raise (T := T) e).
Proof. intros w. apply effect_refl. Qed.

Lemma does_bind (n k : nat) (m : M T) (f : T -> M U) :
  does P F n m → (∀ x, does P F k (f x)) → does P F (n + k) (bind m f).
Proof.
  intros Hm Hf w. unfold bind. specialize (Hm w).
  destruct (m w) as [[x|e] w1]; simpl in *.
  - eapply effect_trans; [done|apply Hf].
  - eapply effect_weaken; [..|done]; eauto with lia.
Qed.

Lemma does_try_except (n k : nat) (m : M T) (clauses : Exc -> option (M T)) :
  does P F n m → (∀ e h, clauses e = Some h → does P F k h) →
  does P F (n + k) (try_except m clauses).
Proof.
  intros Hm Hh w. unfold try_except. specialize (Hm w).
  destruct (m w) as [[x|e] w1]; simpl in *.
  - eapply effect_weaken; [..|done]; eauto with lia.
  - destruct (clauses e) as [h|] eqn:Hc.
    + eapply effect_trans; [done|]. by eapply Hh.
    + eapply effect_weaken; [..|done]; eauto with lia.
Qed.

Lemma does_weaken (P' : Request -> Prop) (F' : Path -> Prop) (n n' : nat)
    (m : M T) :
  (∀ r, P' r → P r) → (∀ p, F' p → F p) → n' ≤ n →
  does P' F' n' m → does P F n m.
Proof. intros HP HF Hn Hm w. eapply effect_weaken; [..|apply Hm]; done. Qed.

End Does.

Section Primitives.
Variable env : Env.
Variable P : Request -> Prop.
Variable F : Path -> Prop.

Lemma does_monotonic : does P F 0 monotonic.
Proof. intros w. apply effect_refl. Qed.

Lemma does_sleep (secs : Q) : does P F 0 (sleep secs).
Proof.
  intros w. unfold sleep. destruct (Qlt_bool secs 0); simpl.
  - apply effect_refl.
  - split_and!; try done. exists []. by rewrite app_nil_r.
Qed.

Lemma does_uniform (lo hi : Q) : does P F 0 (uniform env lo hi).
Proof.
  intros w. split_and!; try done. exists []. simpl. by rewrite app_nil_r.
Qed.

Lemma does_get_files : does P F 0 get_files.
Proof. intros w. apply effect_refl. Qed.

Lemma does_Pacer_mark (key : string) : does P F 0 (Pacer_mark key).
Proof.
  intros w. split_and!; try done. exists []. simpl. by rewrite app_nil_r.
Qed.

Lemma does_Pacer_wait (key : string) (min_interval jitter : Q) :
  does P F 0 (Pacer_wait env key min_interval jitter).
Proof.
  unfold Pacer_wait.
  apply (does_bind P F 0 0); [apply does_monotonic|]. intros t.
  apply (does_bind P F 0 0); [intros w; apply effect_refl|]. intros last.
  destruct (Qlt_bool 0 _); [|apply does_ret].
  apply (does_bind P F 0 0); [|intros; apply does_sleep].
  destruct (Qlt_bool 0 jitter); [apply does_uniform|apply does_ret].
Qed.

Lemma does_backoff_sleep (jitter cap delay : Q) :
  does P F 0 (backoff_sleep env jitter cap delay).
Proof.
  unfold backoff_sleep.
  apply (does_bind P F 0 0); [apply does_uniform|]. intros u.
  apply does_sleep.
Qed.

Lemma does_session_get (req : Request) :
  P req → does P F 1 (session_get env req).
Proof.
  intros HP w. unfold session_get.
  destruct (serve env _ req); simpl;
    (split_and!; try done; exists [req]; split_and!; try done;
     by apply Forall_singleton).
Qed.

Lemma does_raise_for_status (r : Response) : does P F 0 (raise_for_status r).
Proof.
  unfold raise_for_status. destruct (_ && _);
    [apply does_raise|apply does_ret].
Qed.

Lemma does_set_files (fs : gmap Path Node) (w : World) :
  (∀ p, ¬ F p → fs !! p = files w !! p) →
  effect P F 0 w (set_files fs w).2.
Proof.
  intros Hfs. split_and!; try done. exists []. simpl. by rewrite app_nil_r.
Qed.

End Primitives.
(* ================================================================== *)
(** * The requests of the client *)
(* ================================================================== *)

Lemma effect_no_file (P : Request -> Prop) (n : nat) (w w' : World) :
  effect P no_file n w w' → files w' = files w.
Proof.
  intros (_ & Hf & _). apply map_eq. intros p. apply Hf. by intros [].
Qed.

Lemma effect_one_request (req : Request) (F : Path -> Prop) (n : nat)
    (w w' : World) :
  effect (eq req) F n w w' →
  ∃ k, k ≤ n ∧ sent w' = sent w ++ repeat req k.
Proof.
  intros ((reqs & Hs & Hl & HP) & _). exists (length reqs).
  split; [done|]. rewrite Hs. f_equal.
  clear Hs Hl. induction HP as [|r reqs <- _ IH]; [done|].
  simpl. by rewrite <- IH.
Qed.

Section Client_effect.
Variable env : Env.
Variables (timeout : Z) (api_interval cdn_interval : Q)
          (max_retries : Z) (backoff jitter : Q).
Variable F : Path -> Prop.

Lemma does_api_attempt (params : gmap string string)
    (last_exc : option Exc) (attempt : nat) :
  does (eq (api_request timeout params)) F 1
    (api_attempt env timeout api_interval backoff jitter params last_exc
       attempt).
Proof.
  unfold api_attempt.
  apply (does_bind _ _ 0 1); [apply does_Pacer_wait|]. intros _.
  apply (does_try_except _ _ 1 0).
  - apply (does_bind _ _ 1 0); [by apply does_session_get|]. intros r.
    apply (does_bind _ _ 0 0); [apply does_Pacer_mark|]. intros _.
    destruct (_ =? _)%Z; [apply does_ret|].
    destruct (retryable _).
    + apply (does_bind _ _ 0 0); [apply does_backoff_sleep|]. intros _.
      apply does_ret.
    + apply (does_bind _ _ 0 0); [apply does_raise_for_status|]. intros _.
      apply does_ret.
  - intros e h Hh. destruct e; simplify_eq;
      (apply (does_bind _ _ 0 0); [apply does_backoff_sleep|]; intros _;
       apply does_ret).
Qed.

Lemma does_api_loop (params : gmap string string) (attempts : list nat)
    (last_exc : option Exc) :
  does (eq (api_request timeout params)) F (length attempts)
    (api_loop env timeout api_interval backoff jitter params last_exc
       attempts).
Proof.
  revert last_exc. induction attempts as [|attempt attempts IH];
    intros last_exc; simpl.
  - destruct last_exc; [apply does_raise|apply does_ret].
  - apply (does_bind _ _ 1 (length attempts)); [apply does_api_attempt|].
    intros [results|last_exc'].
    + apply does_ret.
    + apply IH.
Qed.

Lemma does_api_search_with_retries (params : gmap string string) :
  does (eq (api_request timeout params)) F (Z.to_nat max_retries)
    (api_search_with_retries env timeout api_interval max_retries backoff
       jitter params).
Proof.
  unfold api_search_with_retries.
  eapply does_weaken; [..|apply does_api_loop]; eauto.
  by rewrite length_seq.
Qed.

Lemma does_cdn_attempt (url : string) (attempt : nat) :
  does (eq (cdn_request timeout url)) F 1
    (cdn_attempt env timeout cdn_interval backoff jitter url attempt).
Proof.
  unfold cdn_attempt.
  apply (does_bind _ _ 0 1); [apply does_Pacer_wait|]. intros _.
  apply (does_try_except _ _ 1 0).
  - apply (does_bind _ _ 1 0); [by apply does_session_get|]. intros r.
    apply (does_bind _ _ 0 0); [apply does_Pacer_mark|]. intros _.
    destruct (_ =? _)%Z.
    { destruct (Text.contains _ _); apply does_ret. }
    destruct (retryable _); [|apply does_ret].
    apply (does_bind _ _ 0 0); [apply does_backoff_sleep|]. intros _.
    apply does_ret.
  - intros e h Hh. destruct e; simpl in Hh; simplify_eq;
      try apply does_ret;
      (apply (does_bind _ _ 0 0); [apply does_backoff_sleep|]; intros _;
       apply does_ret).
Qed.

Lemma does_cdn_loop (url : string) (attempts : list nat) :
  does (eq (cdn_request timeout url)) F (length attempts)
    (cdn_loop env timeout cdn_interval backoff jitter url attempts).
Proof.
  induction attempts as [|attempt attempts IH]; simpl; [apply does_ret|].
  apply (does_bind _ _ 1 (length attempts)); [apply does_cdn_attempt|].
  intros [r|[]]; [apply does_ret|apply IH].
Qed.

Lemma does_request_cdn_stream (url : string) :
  does (eq (cdn_request timeout url)) F (Z.to_nat max_retries)
    (request_cdn_stream env timeout cdn_interval max_retries backoff jitter
       url).
Proof.
  unfold request_cdn_stream.
  eapply does_weaken; [..|apply does_cdn_loop]; eauto.
  by rewrite length_seq.
Qed.

Lemma does_pick_loop (candidates all : list string) :
  candidates ⊆ all →
  does (λ req, ∃ u, u ∈ all ∧ req = cdn_request timeout u) F
    (length candidates * Z.to_nat max_retries)
    (pick_loop env timeout cdn_interval max_retries backoff jitter
       candidates).
Proof.
  induction candidates as [|candidate candidates IH]; intros Hsub; simpl;
    [apply does_ret|].
  apply does_bind.
  - eapply does_weaken; [..|apply does_request_cdn_stream]; [|done..].
    intros req <-. exists candidate. split; [set_solver|done].
  - intros [r|]; [apply does_ret|apply IH; set_solver].
Qed.

Lemma build_upscaled_urls_length (url : string) :
  length (build_upscaled_urls url) = 15.
Proof.
  destruct (build_upscaled_urls_cases url) as [(_ & ->) | (p & g & tail & _ & _ & _ & ->)].
  - unfold appended_urls. by rewrite length_map.
  - unfold resized_urls. by rewrite length_map.
Qed.

Lemma does_pick_largest_working_art_stream (artwork_url_100 : string) :
  does (λ req, ∃ u, u ∈ build_upscaled_urls artwork_url_100
                    ∧ req = cdn_request timeout u) F
    (15 * Z.to_nat max_retries)
    (pick_largest_working_art_stream env timeout cdn_interval max_retries
       backoff jitter artwork_url_100).
Proof.
  unfold pick_largest_working_art_stream.
  rewrite <- (build_upscaled_urls_length artwork_url_100).
  by apply does_pick_loop.
Qed.

End Client_effect.
(* ================================================================== *)
(** * The files and requests of the orchestrator *)
(* ================================================================== *)

Section Files_effect.
Variable P : Request -> Prop.
Variable F : Path -> Prop.

Lemma does_write_file (p : Path) (data : string) :
  F p → does P F 0 (write_file p data).
Proof.
  intros Hp w. unfold write_file, bind, get_files.
  destruct (_ && _); [|apply effect_refl].
  apply does_set_files. intros q Hq. apply lookup_insert_ne. by intros ->.
Qed.

Lemma does_replace_file (tmp dest : Path) :
  F tmp → F dest → does P F 0 (replace_file tmp dest).
Proof.
  intros Htmp Hdest w. unfold replace_file, bind, get_files.
  assert (∀ data, effect P F 0 w
            (set_files (<[dest := File data]> (delete tmp (files w))) w).2)
    as Hset.
  { intros data. apply does_set_files. intros q Hq.
    rewrite lookup_insert_ne by (by intros ->).
    apply lookup_delete_ne. by intros ->. }
  destruct (files w !! tmp) as [[|data]|]; try apply effect_refl.
  destruct (files w !! dest) as [[|data']|];
    [apply effect_refl|apply Hset..].
Qed.

Lemma does_unlink (p : Path) : F p → does P F 0 (unlink p).
Proof.
  intros Hp w. unfold unlink, bind, get_files.
  destruct (files w !! p) as [[|data]|]; try apply effect_refl.
  apply does_set_files. intros q Hq. apply lookup_delete_ne. by intros ->.
Qed.

Lemma does_download_stream_to_file (resp : Response) (dest : Path) :
  F dest → F (part_path dest) →
  does P F 0 (download_stream_to_file resp dest).
Proof.
  intros Hdest Htmp. unfold download_stream_to_file.
  apply (does_bind _ _ 0 0); [by apply does_write_file|]. intros _.
  destruct (stream_error resp); [apply does_raise|].
  by apply does_replace_file.
Qed.

End Files_effect.

Lemma derive_extension_cases (ct : string) :
  derive_extension_from_content_type ct = ".png"
  ∨ derive_extension_from_content_type ct = ".jpg".
Proof.
  unfold derive_extension_from_content_type.
  destruct (Text.contains _ _); [by left|by right].
Qed.

Lemma parent_snoc (p : Path) (x : string) : parent (p ++ [x]) = p.
Proof. apply removelast_last. Qed.

Lemma name_snoc (p : Path) (x : string) : name (p ++ [x]) = x.
Proof. apply last_last. Qed.

Lemma part_path_snoc (p : Path) (x : string) :
  part_path (p ++ [x]) = p ++ [x +:+ ".part"].
Proof. unfold part_path. by rewrite parent_snoc, name_snoc. Qed.

Section Orchestrator_effect.
Variable env : Env.
Variable args : Args.

Lemma does_search_two_passes (F : Path -> Prop) (artist album : string) :
  does to_catalog F (2 * Z.to_nat (max_retries args))
    (search_two_passes env args artist album).
Proof.
  unfold search_two_passes. simpl. rewrite Nat.add_0_r.
  assert (∀ params msg,
    does to_catalog F (Z.to_nat (max_retries args))
      (try_except
         (let* results :=
            api_search_with_retries env (timeout args) (api_interval args)
              (max_retries args) (backoff args) (jitter args) params in
          ret (inr results))
         (λ e : Exc,
            if is_RequestException e
            then Some (ret (inl (msg e))) else None)
       : M (string + list Record_))) as Hpass.
  { intros params msg.
    rewrite <- (Nat.add_0_r (Z.to_nat _)).
    apply does_try_except.
    - rewrite <- (Nat.add_0_r (Z.to_nat _)). apply does_bind.
      + eapply does_weaken; [..|apply does_api_search_with_retries];
          [|intros p Hp; exact Hp|lia].
        by intros req <-.
      + intros. apply does_ret.
    - intros e h Hh. destruct (is_RequestException e); simplify_eq.
      apply does_ret. }
  apply does_bind.
  - unfold search_itunes_albums. apply (Hpass _ (msg_network artist album)).
  - intros [msg|[|r results]]; try apply does_ret.
    apply (Hpass _ (msg_network artist album)).
Qed.

Lemma does_save_cover (P : Request -> Prop) (album_dir : Path)
    (artist album : string) (m : Scored)
    (pick : Response * string * string) :
  does P (.∈ cover_paths album_dir) 0
    (save_cover args album_dir artist album m pick).
Proof.
  destruct pick as [[resp u] content_type]. unfold save_cover.
  set (ext := derive_extension_from_content_type content_type).
  assert (ext = ".png" ∨ ext = ".jpg") as Hext
    by apply derive_extension_cases.
  clearbody ext.
  assert (album_dir ++ ["cover" +:+ ext] ∈ cover_paths album_dir
          ∧ album_dir ++ ["cover" +:+ ext +:+ ".part"] ∈ cover_paths album_dir
          ∧ album_dir ++ ["cover" +:+ (if String.eqb ext ".jpg" then ".png"
                                        else ".jpg")]
            ∈ cover_paths album_dir) as (Hdest & Htmp & Hother).
  { unfold cover_paths.
    destruct Hext as [-> | ->]; simpl; set_solver. }
  apply (does_bind _ _ 0 0); [apply does_get_files|]. intros fs.
  destruct (_ && _); [apply does_ret|].
  apply (does_bind _ _ 0 0).
  - apply (does_try_except _ _ 0 0).
    + apply (does_bind _ _ 0 0); [|intros; apply does_ret].
      apply does_download_stream_to_file; [done|].
      rewrite part_path_snoc. by rewrite string_app_assoc.
    + intros e h Hh. destruct (is_RequestException e); simplify_eq.
      apply does_ret.
  - intros [msg|]; [apply does_ret|].
    apply (does_bind _ _ 0 0); [apply does_get_files|]. intros fs'.
    apply (does_bind _ _ 0 0); [|intros; apply does_ret].
    destruct (_ && _); [|apply does_ret].
    apply (does_try_except _ _ 0 0); [by apply does_unlink|].
    intros e h Hh. destruct (is_Exception e); simplify_eq. apply does_ret.
Qed.

(** what [process_album] may do, with and without [--dry-run] *)
Lemma does_process_album (album_dir : Path) :
  does (λ req, to_catalog req
               ∨ (dry_run args = false ∧ to_cdn (timeout args) req))
       (λ p, dry_run args = false ∧ p ∈ cover_paths album_dir)
       ((if dry_run args then 2 else 17) * Z.to_nat (max_retries args))
    (process_album env args album_dir).
Proof.
  unfold process_album.
  destruct (is_disc_subfolder _); [apply does_ret|].
  set (n := Z.to_nat (max_retries args)).
  assert (2 * n + (if dry_run args then 0 else 15 * n)
          = (if dry_run args then 2 else 17) * n) as <-
    by (destruct (dry_run args); lia).
  rewrite <- (Nat.add_0_l (2 * n + _)).
  apply does_bind; [apply does_get_files|]. intros fs.
  assert (does (λ req, to_catalog req
                       ∨ (dry_run args = false ∧ to_cdn (timeout args) req))
            (λ p, dry_run args = false ∧ p ∈ cover_paths album_dir)
            (2 * n + (if dry_run args then 0 else 15 * n))
            (let* found :=
               search_two_passes env args (name (parent album_dir))
                 (name album_dir) in
             match found with
             | inl msg => ret (false, msg)
             | inr results =>
                 match best_album_match results (name (parent album_dir))
                         (name album_dir) (55 # 100) with
                 | None =>
                     ret (false, msg_no_match (name (parent album_dir))
                                   (name album_dir))
                 | Some m =>
                     match default "" (fields m !! "artworkUrl100") with
                     | EmptyString =>
                         ret (false, msg_no_url (name (parent album_dir))
                                       (name album_dir))
                     | artwork_url_100 =>
                         if dry_run args then
                           let top_candidate :=
                             List.hd "" (build_upscaled_urls artwork_url_100) in
                           let ext_hint :=
                             if Text.endswith (Text.lower top_candidate) ".png"
                             then ".png" else ".jpg" in
                           let dest := album_dir ++ ["cover" +:+ ext_hint] in
                           ret (false,
                                "Would save -> " +:+ relative_to dest album_dir
                                +:+ "  from " +:+ top_candidate)
                         else
                           let* pick :=
                             pick_largest_working_art_stream env (timeout args)
                               (cdn_interval args) (max_retries args)
                               (backoff args) (jitter args) artwork_url_100 in
                           match pick with
                           | None =>
                               ret (false,
                                    msg_no_artwork (name (parent album_dir))
                                      (name album_dir))
                           | Some p =>
                               save_cover args album_dir
                                 (name (parent album_dir)) (name album_dir)
                                 m p
                           end
                     end
                 end
             end)) as Hrest.
  { apply does_bind.
    - eapply does_weaken; [..|apply does_search_two_passes];
        [|intros p Hp; exact Hp|unfold n; lia].
      intros req Hreq. by left.
    - intros [msg|results]; [apply does_ret|].
      destruct (best_album_match _ _ _ _) as [m|]; [|apply does_ret].
      destruct (default "" (fields m !! "artworkUrl100")) as [|c u] eqn:Hu;
        [apply does_ret|].
      destruct (dry_run args) eqn:Hdry; [apply does_ret|].
      rewrite <- (Nat.add_0_r (15 * n)). apply does_bind.
      + eapply does_weaken;
          [..|apply does_pick_largest_working_art_stream];
          [|intros p Hp; exact Hp|unfold n; lia].
        intros req (v & Hv & ->). right. split; [done|].
        by exists (String c u), v.
      + intros [pick|]; [|apply does_ret].
        eapply does_weaken; [..|apply does_save_cover];
          [|by split|lia].
        intros req Hreq. exact Hreq. }
  destruct (album_has_cover fs album_dir) as [existing|]; [|exact Hrest].
  destruct (force args); [exact Hrest|apply does_ret].
Qed.

End Orchestrator_effect.
(* ================================================================== *)
(** * The whole run *)
(* ================================================================== *)

Section Main_effect.
Variable env : Env.
Variable args : Args.

Lemma main_step_effect (total idx : nat) (album_dir : Path) (c : Counters)
    (w : World) :
  let w' := (main_step env args total idx album_dir c w).2 in
  sends (may_request args) (request_budget args) w w'
  ∧ keeps_files (may_write args [album_dir]) w w'
  ∧ stderr w' = stderr w
  ∧ length (stdout w') = S (length (stdout w)).
Proof.
  unfold main_step, try_except, bind, print, ret.
  destruct (does_process_album env args album_dir w) as (Hs & Hf & Ho & He).
  assert (keeps_files (may_write args [album_dir]) w
            (process_album env args album_dir w).2) as Hf'.
  { eapply keeps_files_weaken; [|done]. intros p [Hdry Hp].
    split; [done|]. exists album_dir. split; [set_solver|done]. }
  clear Hf.
  destruct (process_album env args album_dir w) as [[[did_change msg]|e] w1];
    cbn [snd] in *.
  - split_and!; try done. cbn [snd stdout].
    rewrite length_app, Ho. simpl. lia.
  - destruct e; (split_and!; try done); cbn [snd stdout];
      rewrite length_app, Ho; simpl; lia.
Qed.

Lemma may_write_cons (album_dir : Path) (album_dirs : list Path)
    (w w1 w2 : World) :
  keeps_files (may_write args [album_dir]) w w1 →
  keeps_files (may_write args album_dirs) w1 w2 →
  keeps_files (may_write args (album_dir :: album_dirs)) w w2.
Proof.
  intros H1 H2. eapply keeps_files_trans.
  - eapply keeps_files_weaken; [|done].
    intros p (Hdry & d & Hd & Hp). split; [done|]. exists d. set_solver.
  - eapply keeps_files_weaken; [|done].
    intros p (Hdry & d & Hd & Hp). split; [done|]. exists d. set_solver.
Qed.

Lemma sleep_effect (secs : Q) (w : World) :
  let w' := (sleep secs w).2 in
  sent w' = sent w ∧ files w' = files w ∧ stdout w' = stdout w
  ∧ stderr w' = stderr w.
Proof. unfold sleep. by destruct (Qlt_bool secs 0). Qed.

Lemma main_loop_effect (total : nat) (album_dirs : list Path) (idx : nat)
    (c : Counters) (w : World) (r : Result Counters) (w' : World) :
  main_loop env args total idx album_dirs c w = (r, w') →
  sends (may_request args) (length album_dirs * request_budget args) w w'
  ∧ keeps_files (may_write args album_dirs) w w'
  ∧ stderr w' = stderr w
  ∧ length (stdout w') ≤ length (stdout w) + length album_dirs.
Proof.
  revert idx c w. induction album_dirs as [|album_dir album_dirs IH];
    intros idx c w Hloop; cbn [main_loop] in Hloop.
  - unfold ret in Hloop. simplify_eq. split_and!; try done; [|lia].
    exists []. by rewrite app_nil_r.
  - unfold bind at 1 in Hloop.
    destruct (main_step_effect total idx album_dir c w)
      as (Hs & Hf & He & Ho).
    assert (∀ w1, sends (may_request args) (request_budget args) w w1 →
              sends (may_request args)
                (length (album_dir :: album_dirs) * request_budget args)
                w w1) as Hone.
    { intros w1. apply sends_weaken; [done|]. cbn [length Nat.mul]. lia. }
    assert (∀ w1, keeps_files (may_write args [album_dir]) w w1 →
              keeps_files (may_write args (album_dir :: album_dirs)) w w1)
      as Hkeep.
    { intros w1 H1. eapply may_write_cons; [exact H1|]. by intros p Hp. }
    destruct (main_step env args total idx album_dir c w)
      as [[[c1|c1]|e] w1]; unfold ret in Hloop; cbn [snd] in *.
    + simplify_eq. split_and!; auto. simpl. lia.
    + unfold bind at 1 in Hloop. rewrite pause_cases in Hloop.
      destruct (interrupted env idx).
      { simplify_eq. split_and!; auto. simpl. lia. }
      destruct (sleep_effect (5 # 100) w1) as (Hs1 & Hf1 & Ho1 & He1).
      set (w2 := (sleep (5 # 100) w1).2) in *.
      destruct (IH (S idx) c1 w2 Hloop) as (Hs2 & Hf2 & He2 & Ho2).
      split_and!.
      * cbn [length Nat.mul]. eapply sends_trans; [exact Hs|].
        destruct Hs2 as (reqs & Hreqs & Hlen & HP).
        exists reqs. by rewrite <- Hs1.
      * eapply may_write_cons; [exact Hf|].
        intros p Hp. rewrite Hf2 by done. by rewrite Hf1.
      * congruence.
      * simpl. rewrite Ho1 in Ho2. lia.
    + simplify_eq. split_and!; auto. simpl. lia.
Qed.

Lemma main_effect (w : World) (r : Result Z) (w' : World) :
  main env args w = (r, w') →
  sends (may_request args)
    (length (find_album_dirs (files w) (root args)) * request_budget args)
    w w'
  ∧ keeps_files (may_write args (find_album_dirs (files w) (root args))) w w'.
Proof.
  assert (∀ n w0 w1, sent w1 = sent w0 → sends (may_request args) n w0 w1)
    as Hrefl.
  { intros n w0 w1 Hsent. exists []. rewrite app_nil_r.
    split_and!; [done|simpl; lia|done]. }
  unfold main, bind, get_files, print_stderr, new_Pacer, print, ret.
  destruct (_ || _).
  { intros. simplify_eq. split; [by apply Hrefl|by intros p Hp]. }
  destruct (length _ =? 0).
  { intros. simplify_eq. split; [by apply Hrefl|by intros p Hp]. }
  match goal with
  | |- context [main_loop env args ?t ?i ?ds ?c ?w0] =>
      destruct (main_loop env args t i ds c w0) as [r1 w1] eqn:Hloop;
      destruct (main_loop_effect _ _ _ _ _ _ _ Hloop) as (Hs & Hf & _)
  end.
  destruct r1; intros; by simplify_eq.
Qed.

End Main_effect.
(* ================================================================== *)
(** * What the clients return *)
(* ================================================================== *)

Section Attempts.
Variable env : Env.
Hypothesis random_range : ∀ n, (0 <= random env n)%Q ∧ (random env n <= 1)%Q.
Variables (timeout : Z) (api_interval cdn_interval backoff jitter : Q).

Lemma backoff_sleep_raises (cap delay : Q) (w w' : World) (e : Exc) :
  backoff_sleep env jitter cap delay w = (Raised e, w') → e = ValueError.
Proof.
  unfold backoff_sleep, bind, uniform, sleep.
  destruct (Qlt_bool _ _); intros; by simplify_eq.
Qed.

(** the attempt up to the reply *)
Lemma api_attempt_reply (params : gmap string string)
    (last_exc : option Exc) (attempt : nat) (w : World) :
  ∃ w1,
    sent w1 = sent w ++ [api_request timeout params]
    ∧ files w1 = files w
    ∧ api_attempt env timeout api_interval backoff jitter params last_exc
        attempt w
      = match serve env (length (sent w)) (api_request timeout params) with
        | inl e =>
            match e with
            | Timeout | ConnectionError =>
                (backoff_sleep env jitter 30 (backoff ^ Z.of_nat attempt);;
                 ret (Continue (Some e))) w1
            | _ => (Raised e, w1)
            end
        | inr r =>
            let w2 := mkWorld (now w1) (slept w1) (draws w1) (sent w1)
                        (<["itunes_api" := now w1]> (pacer_last w1))
                        (files w1) (stdout w1) (stderr w1) in
            if (status_code r =? 200)%Z
            then (Ok (Return (default [] (json_results r))), w2)
            else if retryable (status_code r)
            then (backoff_sleep env jitter 30
                    (retry_delay r backoff attempt);;
                  ret (Continue last_exc)) w2
            else if (400 <=? status_code r)%Z && (status_code r <? 600)%Z
            then (Raised (HTTPError (status_code r)), w2)
            else (Ok (Return []), w2)
        end.
Proof.
  unfold api_attempt. unfold bind at 1.
  destruct (Pacer_wait_ok env random_range "itunes_api" api_interval
              (jitter * (1 # 2)) w) as (w0 & Hwait & Hs0).
  pose proof (does_Pacer_wait env no_request no_file "itunes_api"
                api_interval (jitter * (1 # 2)) w) as Hf0.
  apply effect_no_file in Hf0. rewrite Hwait in *. cbn [snd] in Hf0.
  unfold try_except, bind at 1, session_get.
  fold (api_request timeout params).
  exists (mkWorld (Qred (now w0 + latency env (length (sent w0))))
            (slept w0) (draws w0) (sent w0 ++ [api_request timeout params])
            (pacer_last w0) (files w0) (stdout w0) (stderr w0)).
  split_and!; [simpl; by rewrite Hs0|done|].
  rewrite Hs0 at 1.
  destruct (serve env _ _) as [e|r].
  - destruct e; try done.
  - unfold bind at 1, Pacer_mark, bind at 1, monotonic. cbn [now].
    destruct (_ =? _)%Z; [done|].
    destruct (retryable _).
    + unfold bind.
      destruct (backoff_sleep _ _ _ _ _) as [[[]|e] w3] eqn:Hsleep; [done|].
      by rewrite (backoff_sleep_raises _ _ _ _ _ Hsleep).
    + unfold raise_for_status, bind, raise, ret. by destruct (_ && _).
Qed.


Lemma last_failure_shift (req : Request) (start n : nat) (acc : option Exc) :
  last_failure env req start (S n) acc
  = last_failure env req (S start) n
      (match serve env start req with inl e => Some e | inr _ => acc end).
Proof. done. Qed.

(** every attempt that is left ends in a transient failure: the loop uses
    them all up, and then raises the last exception, however long ago it
    was, or returns no result if there was none *)
Lemma api_loop_transient (params : gmap string string) (n : nat)
    (first : nat) (last_exc : option Exc) (w : World) :
  (0 <= backoff)%Q →
  (∀ i, i < n →
        transient backoff (first + i)
          (serve env (length (sent w) + i) (api_request timeout params))) →
  ∃ w',
    api_loop env timeout api_interval backoff jitter params last_exc
      (seq first n) w
    = (match last_failure env (api_request timeout params)
               (length (sent w)) n last_exc with
       | Some e => Raised e
       | None => Ok []
       end, w')
    ∧ length (sent w') = length (sent w) + n.
Proof.
  intros Hbackoff. revert first last_exc w.
  induction n as [|n IH]; intros first last_exc w Hserve.
  - exists w. simpl. split; [by destruct last_exc|lia].
  - cbn [seq api_loop]. rewrite last_failure_shift. unfold bind at 1.
    destruct (api_attempt_reply params last_exc first w)
      as (w1 & Hs1 & _ & ->).
    pose proof (Hserve 0 ltac:(lia)) as H0.
    rewrite !Nat.add_0_r in H0.
    assert (∀ w2 : World, sent w2 = sent w1 →
              ∀ i, i < n →
                transient backoff (S first + i)
                  (serve env (length (sent w2) + i)
                     (api_request timeout params))) as Hrest.
    { intros w2 Hs2 i Hi. rewrite Hs2, Hs1, length_app. simpl.
      replace (length (sent w) + 1 + i) with (length (sent w) + S i) by lia.
      replace (S (first + i)) with (first + S i) by lia.
      apply Hserve. lia. }
    assert (∀ w2 : World, sent w2 = sent w1 →
              length (sent w2) = S (length (sent w))) as Hlen.
    { intros w2 ->. rewrite Hs1, length_app. simpl. lia. }
    destruct (serve env (length (sent w)) (api_request timeout params))
      as [e|r]; simpl in H0.
    + assert (∃ w2, (backoff_sleep env jitter 30 (backoff ^ Z.of_nat first);;
                     ret (Continue (T := list Record_) (Some e))) w1
                    = (Ok (Continue (Some e)), w2) ∧ sent w2 = sent w1)
        as (w2 & Hrun & Hs2).
      { unfold bind.
        destruct (backoff_sleep_ok env random_range jitter 30
                    (backoff ^ Z.of_nat first) w1)
          as (w2 & u & -> & Hs2 & _); [lra|by apply Qpower_0_le|].
        by exists w2. }
      destruct (IH (S first) (Some e) w2 (Hrest w2 Hs2)) as (w' & Hloop & Hl).
      rewrite (Hlen w2 Hs2) in Hloop, Hl.
      exists w'. split; [|lia].
      destruct H0 as [-> | ->]; by rewrite Hrun.
    + destruct H0 as (Hretry & _ & Hdelay).
      rewrite (retryable_not_200 _ Hretry), Hretry. unfold bind at 1.
      match goal with
      | |- context [backoff_sleep env jitter 30 _ ?w3] =>
          destruct (backoff_sleep_ok env random_range jitter 30
                      (retry_delay r backoff first) w3)
            as (w2 & u & -> & Hs2 & _); [lra|done|]
      end.
      simpl in Hs2.
      destruct (IH (S first) last_exc w2 (Hrest w2 Hs2)) as (w' & Hloop & Hl).
      rewrite (Hlen w2 Hs2) in Hloop, Hl.
      exists w'. split; [done|lia].
Qed.

(** the first reply is not retryable: it decides *)
Lemma api_loop_first_reply (params : gmap string string)
    (attempt : nat) (attempts : list nat) (last_exc : option Exc)
    (w : World) (r : Response) :
  serve env (length (sent w)) (api_request timeout params) = inr r →
  retryable (status_code r) = false →
  ∃ w',
    api_loop env timeout api_interval backoff jitter params last_exc
      (attempt :: attempts) w
    = (if (status_code r =? 200)%Z then Ok (default [] (json_results r))
       else if (400 <=? status_code r)%Z && (status_code r <? 600)%Z
       then Raised (HTTPError (status_code r))
       else Ok [], w')
    ∧ sent w' = sent w ++ [api_request timeout params]
    ∧ files w' = files w.
Proof.
  intros Hserve Hretry. cbn [api_loop]. unfold bind at 1.
  destruct (api_attempt_reply params last_exc attempt w)
    as (w1 & Hs1 & Hf1 & ->).
  rewrite Hserve, Hretry. cbn zeta.
  eexists (mkWorld _ _ _ _ _ _ _ _).
  split; [|split; [exact Hs1|exact Hf1]].
  destruct (_ =? _)%Z; [done|]. by destruct (_ && _).
Qed.

(** a retryable reply whose [Retry-After] is so far below zero that the
    jitter does not make up for it: the sleep refuses the negative
    length *)
Lemma api_loop_negative_delay (params : gmap string string)
    (attempt : nat) (attempts : list nat) (last_exc : option Exc)
    (w : World) (r : Response) :
  serve env (length (sent w)) (api_request timeout params) = inr r →
  retryable (status_code r) = true →
  (retry_delay r backoff attempt + Qmax (5 # 100) jitter < 0)%Q →
  ∃ w',
    api_loop env timeout api_interval backoff jitter params last_exc
      (attempt :: attempts) w
    = (Raised ValueError, w')
    ∧ sent w' = sent w ++ [api_request timeout params].
Proof.
  intros Hserve Hretry Hneg. cbn [api_loop]. unfold bind at 1.
  destruct (api_attempt_reply params last_exc attempt w)
    as (w1 & Hs1 & Hf1 & ->).
  rewrite Hserve, Hretry, (retryable_not_200 _ Hretry). cbn zeta.
  unfold bind at 1, backoff_sleep, bind at 1.
  assert (5 # 100 <= Qmax (5 # 100) jitter)%Q as Hmax by apply Q.le_max_l.
  match goal with
  | |- context [uniform env 0 ?hi ?w3] =>
      destruct (uniform_range env random_range hi w3)
        as (u & w2 & -> & Hs2 & _ & Hu0 & Hu1); [lra|]
  end.
  unfold sleep.
  assert (Qmin 30 (retry_delay r backoff attempt)
          <= retry_delay r backoff attempt)%Q as Hmin by apply Q.le_min_r.
  replace (Qlt_bool _ 0) with true
    by (symmetry; apply Qlt_bool_true; lra).
  eexists. split; [done|]. by rewrite Hs2.
Qed.

End Attempts.
(* ================================================================== *)
(** * What the CDN prober returns *)
(* ================================================================== *)

Section Cdn.
Variable env : Env.
Variables (timeout : Z) (cdn_interval : Q) (max_retries : Z)
          (backoff jitter : Q).

(** an attempt that returns a response returns the reply to the request
    it has just sent, and that reply is an image *)
Lemma cdn_attempt_some (url : string) (attempt : nat) (w w' : World)
    (r : Response) :
  cdn_attempt env timeout cdn_interval backoff jitter url attempt w
    = (Ok (Return (Some r)), w') →
  is_image r
  ∧ ∃ reqs,
      sent w' = reqs ++ [cdn_request timeout url]
      ∧ serve env (length reqs) (cdn_request timeout url) = inr r.
Proof.
  unfold cdn_attempt. unfold bind at 1.
  destruct (Pacer_wait env "mzstatic_cdn" cdn_interval jitter w)
    as [[[]|e0] w0]; [|done].
  unfold try_except, bind at 1, session_get.
  fold (cdn_request timeout url).
  destruct (serve env (length (sent w0)) (cdn_request timeout url))
    as [e|r0] eqn:Hserve.
  - destruct e; simpl; try done; unfold bind;
      by destruct (backoff_sleep _ _ _ _ _) as [[[]|?] ?].
  - unfold bind at 1, Pacer_mark, bind at 1, monotonic.
    destruct (status_code r0 =? 200)%Z eqn:Hst.
    + destruct (Text.contains _ _) eqn:Himage; [|done].
      unfold ret. intros [= -> <-]. split.
      * split; [lia|done].
      * by exists (sent w0).
    + destruct (retryable _); [|done].
      unfold bind at 1.
      destruct (backoff_sleep _ _ _ _ _) as [[[]|e] w3]; [done|].
      destruct e; simpl; try done; unfold bind;
        by destruct (backoff_sleep _ _ _ _ _) as [[[]|?] ?].
Qed.

Lemma cdn_loop_some (url : string) (attempts : list nat) (w w' : World)
    (r : Response) :
  cdn_loop env timeout cdn_interval backoff jitter url attempts w
    = (Ok (Some r), w') →
  is_image r
  ∧ ∃ reqs,
      sent w' = reqs ++ [cdn_request timeout url]
      ∧ serve env (length reqs) (cdn_request timeout url) = inr r.
Proof.
  revert w. induction attempts as [|attempt attempts IH]; intros w;
    [done|].
  cbn [cdn_loop]. unfold bind at 1.
  destruct (cdn_attempt _ _ _ _ _ _ _ _) as [[[res|[]]|e] w1] eqn:Hattempt;
    [|apply IH|done].
  unfold ret. intros [= -> <-]. by eapply cdn_attempt_some.
Qed.

Lemma pick_loop_some (candidates : list string) (w w' : World)
    (r : Response) (u ct : string) :
  pick_loop env timeout cdn_interval max_retries backoff jitter candidates w
    = (Ok (Some (r, u, ct)), w') →
  u ∈ candidates
  ∧ is_image r
  ∧ ct = Text.lower (default "" (headers r !! "Content-Type"))
  ∧ ∃ reqs,
      sent w' = reqs ++ [cdn_request timeout u]
      ∧ serve env (length reqs) (cdn_request timeout u) = inr r.
Proof.
  revert w. induction candidates as [|candidate candidates IH]; intros w;
    [done|].
  cbn [pick_loop]. unfold bind at 1, request_cdn_stream.
  destruct (cdn_loop _ _ _ _ _ _ _ _) as [[[r0|]|e] w1] eqn:Hloop; [| |done].
  - unfold ret. intros [= -> -> <- <-].
    destruct (cdn_loop_some _ _ _ _ _ Hloop) as [Himage Hsent].
    split_and!; try done. set_solver.
  - intros Hrest. destruct (IH _ Hrest) as (Hu & Hrest').
    split; [set_solver|done].
Qed.

Hypothesis random_range : ∀ n, (0 <= random env n)%Q ∧ (random env n <= 1)%Q.
Hypothesis backoff_nonneg : (0 <= backoff)%Q.

(** when the replies are harmless, an attempt returns *)
Lemma cdn_attempt_returns (url : string) (attempt : nat) (w : World) :
  harmless backoff (serve env (length (sent w)) (cdn_request timeout url)) →
  ∃ flow w',
    cdn_attempt env timeout cdn_interval backoff jitter url attempt w
    = (Ok flow, w')
    ∧ sent w' = sent w ++ [cdn_request timeout url].
Proof.
  intros Hreply. unfold cdn_attempt. unfold bind at 1.
  destruct (Pacer_wait_ok env random_range "mzstatic_cdn" cdn_interval
              jitter w) as (w0 & -> & Hs0).
  unfold try_except, bind at 1, session_get.
  fold (cdn_request timeout url). rewrite <- Hs0 in Hreply.
  destruct (serve env (length (sent w0)) (cdn_request timeout url))
    as [e|r]; simpl in Hreply.
  - destruct e; try done; simpl;
      try (eexists _, _; split; [done|]; simpl; by rewrite Hs0).
    + unfold bind at 1.
      match goal with
      | |- context [backoff_sleep env jitter 60 ?d ?w3] =>
          destruct (backoff_sleep_ok env random_range jitter 60 d w3)
            as (w2 & u & -> & Hs2 & _); [lra|by apply Qpower_0_le|]
      end.
      eexists _, _. split; [done|]. rewrite Hs2. simpl. by rewrite Hs0.
    + unfold bind at 1.
      match goal with
      | |- context [backoff_sleep env jitter 60 ?d ?w3] =>
          destruct (backoff_sleep_ok env random_range jitter 60 d w3)
            as (w2 & u & -> & Hs2 & _); [lra|by apply Qpower_0_le|]
      end.
      eexists _, _. split; [done|]. rewrite Hs2. simpl. by rewrite Hs0.
  - unfold bind at 1, Pacer_mark, bind at 1, monotonic.
    destruct (_ =? 200)%Z.
    { destruct (Text.contains _ _);
        (eexists _, _; split; [done|]; simpl; by rewrite Hs0). }
    destruct (retryable _);
      [|eexists _, _; split; [done|]; simpl; by rewrite Hs0].
    unfold bind at 1.
    destruct Hreply as [_ Hreply].
    match goal with
    | |- context [backoff_sleep env jitter 60 ?d ?w3] =>
        destruct (backoff_sleep_ok env random_range jitter 60 d w3)
          as (w2 & u & -> & Hs2 & _); [lra|done|]
    end.
    eexists _, _. split; [done|]. rewrite Hs2. simpl. by rewrite Hs0.
Qed.

Lemma cdn_loop_returns (url : string) (attempts : list nat) (w : World) :
  (∀ n, harmless backoff (serve env n (cdn_request timeout url))) →
  ∃ res w',
    cdn_loop env timeout cdn_interval backoff jitter url attempts w
    = (Ok res, w').
Proof.
  intros Hserve. revert w.
  induction attempts as [|attempt attempts IH]; intros w; [by eexists _, _|].
  cbn [cdn_loop]. unfold bind at 1.
  destruct (cdn_attempt_returns url attempt w (Hserve _))
    as (flow & w1 & -> & _).
  destruct flow as [res|[]]; [by eexists _, _|apply IH].
Qed.

Lemma pick_loop_returns (candidates : list string) (w : World) :
  (∀ n req, harmless backoff (serve env n req)) →
  ∃ res w',
    pick_loop env timeout cdn_interval max_retries backoff jitter
      candidates w = (Ok res, w').
Proof.
  intros Hserve. revert w.
  induction candidates as [|candidate candidates IH]; intros w;
    [by eexists _, _|].
  cbn [pick_loop]. unfold bind at 1, request_cdn_stream.
  destruct (cdn_loop_returns candidate (seq 0 (Z.to_nat max_retries)) w)
    as (res & w1 & ->); [done|].
  destruct res as [r|]; [by eexists _, _|apply IH].
Qed.

End Cdn.
(* ================================================================== *)
(** * Saving the image *)
(* ================================================================== *)

Lemma string_app_longer (s t : string) : t ≠ "" → s +:+ t ≠ s.
Proof.
  intros Ht Heq. apply (f_equal String.length) in Heq.
  rewrite string_length_app in Heq. destruct t; [done|]. simpl in Heq. lia.
Qed.

Lemma part_path_ne (dest : Path) : part_path dest ≠ dest.
Proof.
  unfold part_path, parent, name. intros Heq.
  destruct (decide (dest = [])) as [-> | Hne]; [done|].
  rewrite (app_removelast_last "" Hne) in Heq at 3.
  apply app_inv_head in Heq. injection Heq as Heq.
  by apply string_app_longer in Heq.
Qed.

Lemma parent_part_path (dest : Path) : parent (part_path dest) = parent dest.
Proof. unfold part_path. apply parent_snoc. Qed.

(** the download either puts the whole content at [dest] and leaves no
    [.part] file, or raises and leaves [dest] as it was *)
Lemma download_stream_to_file_cases (resp : Response) (dest : Path)
    (w : World) :
  match download_stream_to_file resp dest w with
  | (Ok _, w') =>
      stream_error resp = None
      ∧ files w' = <[dest := File (content resp)]>
                     (delete (part_path dest) (files w))
      ∧ sent w' = sent w
  | (Raised e, w') => files w' !! dest = files w !! dest
  end.
Proof.
  pose proof (part_path_ne dest) as Hne.
  unfold download_stream_to_file, bind at 1, write_file, bind at 1, get_files.
  destruct (_ && _); [|done].
  unfold set_files at 1. destruct (stream_error resp) as [e|].
  { simpl. by rewrite lookup_insert_ne. }
  unfold replace_file, bind at 1, get_files. cbn [files].
  rewrite lookup_insert_eq, lookup_insert_ne by done.
  destruct (files w !! dest) as [[|data]|] eqn:Hdest; simpl;
    rewrite ?lookup_insert_ne, ?delete_insert_eq by done; try done.
Qed.

(** when the download succeeds *)
Lemma download_stream_to_file_ok (resp : Response) (dest : Path)
    (w : World) :
  is_dir (files w) (parent dest) = true →
  is_dir (files w) dest = false →
  is_dir (files w) (part_path dest) = false →
  stream_error resp = None →
  ∃ w', download_stream_to_file resp dest w = (Ok (), w').
Proof.
  intros Hparent Hdest Htmp Hstream.
  pose proof (part_path_ne dest) as Hne.
  unfold download_stream_to_file, bind at 1, write_file, bind at 1, get_files.
  rewrite parent_part_path, Hparent, Htmp. cbn [andb negb].
  unfold set_files at 1. rewrite Hstream.
  unfold replace_file, bind at 1, get_files. cbn [files].
  rewrite lookup_insert_eq, lookup_insert_ne by done.
  unfold is_dir in Hdest. apply bool_decide_eq_false in Hdest.
  destruct (files w !! dest) as [[|data]|] eqn:Hd; [done|by eexists..].
Qed.

Section Save.
Variable args : Args.

Lemma save_cover_changed (album_dir : Path) (artist album : string)
    (m : Scored) (resp : Response) (u ct : string) (w w' : World)
    (msg : string) :
  save_cover args album_dir artist album m (resp, u, ct) w
    = (Ok (true, msg), w') →
  let ext := derive_extension_from_content_type ct in
  let other_ext := if String.eqb ext ".jpg" then ".png" else ".jpg" in
  stream_error resp = None
  ∧ files w' !! (album_dir ++ ["cover" +:+ ext])
    = Some (File (content resp))
  ∧ (∀ data, files w' !! (album_dir ++ ["cover" +:+ other_ext])
             ≠ Some (File data))
  ∧ sent w' = sent w.
Proof.
  unfold save_cover.
  set (ext := derive_extension_from_content_type ct).
  assert (ext = ".png" ∨ ext = ".jpg") as Hext
    by apply derive_extension_cases.
  clearbody ext.
  set (other_ext := if String.eqb ext ".jpg" then ".png" else ".jpg").
  set (dest := album_dir ++ ["cover" +:+ ext]).
  set (other := album_dir ++ ["cover" +:+ other_ext]).
  assert (other ≠ dest ∧ other ≠ part_path dest) as [Hod Hot].
  { unfold other, dest, other_ext. rewrite part_path_snoc.
    destruct Hext as [-> | ->]; split; intros Heq;
      apply app_inv_head in Heq; by vm_compute in Heq. }
  unfold bind at 1, get_files.
  destruct (_ && _) eqn:Hex; [done|].
  unfold bind at 1, try_except, bind at 1.
  pose proof (download_stream_to_file_cases resp dest w) as Hdl.
  destruct (download_stream_to_file resp dest w) as [[[]|e] w1];
    [|by destruct (is_RequestException e)].
  destruct Hdl as (Hstream & Hfiles & Hsent).
  unfold ret at 1. cbn beta iota. unfold bind at 1, get_files.
  assert (files w1 !! dest = Some (File (content resp))) as Hdest
    by (by rewrite Hfiles, lookup_insert_eq).
  assert (files w1 !! other = files w !! other) as Hother.
  { rewrite Hfiles, lookup_insert_ne by done. by apply lookup_delete_ne. }
  unfold bind at 1.
  destruct (force args && exists_ (files w1) other) eqn:Hforce.
  - unfold try_except, unlink, bind at 1, get_files.
    destruct (files w1 !! other) as [[|data]|] eqn:Hlook; simpl;
      intros [= <- <-]; split_and!; try done.
    + by rewrite Hlook.
    + simpl. by rewrite lookup_delete_ne.
    + simpl. intros data'. by rewrite lookup_delete_eq.
    + by rewrite Hlook.
  - unfold ret. intros [= <- <-]. split_and!; try done.
    intros data Hdata.
    assert (exists_ (files w1) other = true) as Hex1.
    { unfold exists_. apply bool_decide_eq_true. by rewrite Hdata. }
    rewrite Hex1 in Hforce.
    assert (exists_ (files w) other = true) as Hex0.
    { unfold exists_ in *. by rewrite <- Hother. }
    rewrite Hex0 in Hex. by destruct (force args).
Qed.

End Save.

Section Album.
Variable env : Env.
Variable args : Args.

(** an album counts as changed only after its cover was written: the
    content of the reply to the last request *)
Lemma process_album_changed (album_dir : Path) (w w' : World)
    (msg : string) :
  process_album env args album_dir w = (Ok (true, msg), w') →
  dry_run args = false
  ∧ ∃ r u reqs ct,
      sent w' = reqs ++ [cdn_request (timeout args) u]
      ∧ serve env (length reqs) (cdn_request (timeout args) u) = inr r
      ∧ is_image r
      ∧ stream_error r = None
      ∧ ct = Text.lower (default "" (headers r !! "Content-Type"))
      ∧ files w' !! (album_dir
                     ++ ["cover" +:+ derive_extension_from_content_type ct])
        = Some (File (content r))
      ∧ (∀ data,
           files w' !! (album_dir
                        ++ ["cover"
                            +:+ (if String.eqb
                                      (derive_extension_from_content_type ct)
                                      ".jpg"
                                 then ".png" else ".jpg")])
           ≠ Some (File data)).
Proof.
  unfold process_album.
  destruct (is_disc_subfolder _); [done|].
  unfold bind at 1, get_files.
  destruct (album_has_cover (files w) album_dir) as [existing|];
    [destruct (force args); [|done]|];
    (unfold bind at 1;
     destruct (search_two_passes _ _ _ _ _) as [[[msg0|results]|e] w1];
       [done| |done];
     destruct (best_album_match _ _ _ _) as [m|]; [|done];
     destruct (default "" (fields m !! "artworkUrl100")) as [|c u]; [done|];
     destruct (dry_run args); [done|];
     unfold bind at 1, pick_largest_working_art_stream;
     destruct (pick_loop _ _ _ _ _ _ _ _) as [[[[[r u'] ct]|]|e] w2]
       eqn:Hpick; [|done..];
     intros Hsave; split; [done|];
     apply pick_loop_some in Hpick as (_ & Himage & Hct & reqs & Hreqs & Hr);
     apply save_cover_changed in Hsave as (Hstream & Hdest & Hother & Hsent);
     exists r, u', reqs, ct; split_and!; try done; by rewrite Hsent).
Qed.

End Album.
(* ================================================================== *)
(** * The matching blocks fit into the sequences *)
(* ================================================================== *)

Section difflib_bounds_facts.
Context {A : Type} `{Countable A}.
Import difflib difflib_bounds.
Variables a b : list A.

Lemma scan_row_region (alo ahi blo bhi i : nat) (j2len : gmap nat nat)
    (js : list nat) (best : Match) (newj2len : gmap nat nat) :
  alo ≤ i → i < ahi →
  runs_before alo blo bhi i j2len →
  runs_before alo blo bhi (S i) newj2len →
  in_region alo ahi blo bhi best →
  let '(best', newj2len') := scan_row blo bhi i j2len js best newj2len in
  in_region alo ahi blo bhi best' ∧ runs_before alo blo bhi (S i) newj2len'.
Proof.
  intros Hlo Hhi Hold. revert best newj2len.
  induction js as [|j js IH]; intros best newj2len Hnew Hbest; simpl;
    [done|].
  destruct (j <? blo) eqn:Hjlo; [by apply IH|].
  destruct (bhi <=? j) eqn:Hjhi; [done|].
  apply Nat.ltb_ge in Hjlo. apply Nat.leb_gt in Hjhi.
  set (k := S (match j with
               | O => 0
               | S j' => default 0 (j2len !! j')
               end)).
  assert (k + alo ≤ S i ∧ k + blo ≤ S j) as [Hka Hkb].
  { unfold k. destruct j as [|j']; [lia|].
    destruct (j2len !! j') as [v|] eqn:Hv; simpl; [|lia].
    destruct (Hold j' v Hv) as (? & ? & ? & ?). lia. }
  apply IH.
  - intros j0 v. rewrite lookup_insert_Some.
    intros [[<- <-] | [_ Hv]]; [lia|by apply Hnew].
  - destruct (best.2 <? k); [|done]. unfold in_region. lia.
Qed.

Lemma scan_rows_region (alo ahi blo bhi : nat) (n i : nat) (best : Match)
    (j2len : gmap nat nat) :
  alo ≤ i → i + n ≤ ahi →
  runs_before alo blo bhi i j2len →
  in_region alo ahi blo bhi best →
  in_region alo ahi blo bhi (scan_rows a b blo bhi (seq i n) best j2len).
Proof.
  revert i best j2len.
  induction n as [|n IH]; intros i best j2len Hlo Hhi Hruns Hbest; simpl;
    [done|].
  match goal with
  | |- context [scan_row blo bhi i j2len ?js best ∅] =>
      pose proof (scan_row_region alo ahi blo bhi i j2len js best ∅) as Hrow;
      destruct (scan_row blo bhi i j2len js best ∅) as [best' newj2len]
  end.
  destruct Hrow as [Hbest' Hnew]; [lia|lia|done| |done|].
  { intros j v Hv. by rewrite lookup_empty in Hv. }
  apply IH; [lia|lia|done|done].
Qed.

Lemma extend_left_region (alo ahi blo bhi : nat) (besti bestj bestsize : nat) :
  in_region alo ahi blo bhi (besti, bestj, bestsize) →
  in_region alo ahi blo bhi (extend_left a b alo blo besti bestj bestsize)
  ∧ bestsize ≤ (extend_left a b alo blo besti bestj bestsize).2.
Proof.
  revert bestj bestsize.
  induction besti as [|i' IH]; intros bestj bestsize Hbest; simpl; [done|].
  destruct bestj as [|j']; [done|].
  destruct ((alo <? S i') && (blo <? S j') && same_elt a b i' j') eqn:Hc;
    [|done].
  apply andb_true_iff in Hc as [Hc _].
  apply andb_true_iff in Hc as [Hi Hj].
  apply Nat.ltb_lt in Hi, Hj.
  destruct (IH j' (S bestsize)) as [Hreg Hsize].
  { unfold in_region in *. lia. }
  split; [done|lia].
Qed.

Lemma extend_right_region (alo ahi blo bhi : nat) (room besti bestj
    bestsize : nat) :
  in_region alo ahi blo bhi (besti, bestj, bestsize) →
  in_region alo ahi blo bhi
    (besti, bestj, extend_right a b ahi bhi room besti bestj bestsize)
  ∧ bestsize ≤ extend_right a b ahi bhi room besti bestj bestsize.
Proof.
  revert bestsize. induction room as [|room IH]; intros bestsize Hbest;
    simpl; [done|].
  destruct ((besti + bestsize <? ahi) && (bestj + bestsize <? bhi)
            && same_elt a b (besti + bestsize) (bestj + bestsize)) eqn:Hc;
    [|done].
  apply andb_true_iff in Hc as [Hc _].
  apply andb_true_iff in Hc as [Hi Hj].
  apply Nat.ltb_lt in Hi, Hj.
  destruct (IH (S bestsize)) as [Hreg Hsize].
  { unfold in_region in *. lia. }
  split; [done|lia].
Qed.

(** the longest match of a region lies in the region *)
Lemma find_longest_match_region (alo ahi blo bhi : nat) :
  alo ≤ ahi → blo ≤ bhi →
  in_region alo ahi blo bhi (find_longest_match a b alo ahi blo bhi).
Proof.
  intros Ha Hb. unfold find_longest_match.
  pose proof (scan_rows_region alo ahi blo bhi (ahi - alo) alo (alo, blo, 0)
                ∅) as Hscan.
  destruct (scan_rows a b blo bhi (seq alo (ahi - alo)) (alo, blo, 0) ∅)
    as [[i1 j1] k1].
  assert (in_region alo ahi blo bhi (i1, j1, k1)) as H1.
  { apply Hscan; [lia|lia| |unfold in_region; lia].
    intros j v Hv. by rewrite lookup_empty in Hv. }
  pose proof (extend_left_region alo ahi blo bhi i1 j1 k1 H1) as [H2 _].
  destruct (extend_left a b alo blo i1 j1 k1) as [[i2 j2] k2].
  by apply extend_right_region.
Qed.

Lemma matched_app (l1 l2 : list Match) :
  matched (l1 ++ l2) = matched l1 + matched l2.
Proof. unfold matched. by rewrite map_app, sum_list_with_app. Qed.

(** the blocks found and the regions left never take more room than the
    regions there were *)
Lemma blocks_loop_matched (fuel : nat) (queue : list (nat * nat * nat * nat))
    (matching_blocks : list Match) :
  well_formed queue →
  matched (blocks_loop a b fuel queue matching_blocks)
  ≤ matched matching_blocks + width_a queue
  ∧ matched (blocks_loop a b fuel queue matching_blocks)
    ≤ matched matching_blocks + width_b queue.
Proof.
  revert queue matching_blocks.
  induction fuel as [|fuel IH]; intros queue matching_blocks Hwf.
  { destruct queue as [|[[[alo ahi] blo] bhi] queue]; simpl; lia. }
  destruct queue as [|[[[alo ahi] blo] bhi] queue]; [simpl; lia|].
  cbn [blocks_loop].
  apply Forall_cons in Hwf as [[Ha Hb] Hwf].
  pose proof (find_longest_match_region alo ahi blo bhi Ha Hb) as Hreg.
  destruct (find_longest_match a b alo ahi blo bhi) as [[i j] k].
  destruct Hreg as (Hi & Hik & Hj & Hjk).
  unfold width_a, width_b in *. cbn [map sum_list_with sum_list].
  destruct (k =? 0) eqn:Hk.
  { destruct (IH queue matching_blocks Hwf).
    change (id (ahi - alo)) with (ahi - alo).
    change (id (bhi - blo)) with (bhi - blo). lia. }
  set (q1 := if (alo <? i) && (blo <? j)
             then (alo, i, blo, j) :: queue else queue).
  set (q2 := if (i + k <? ahi) && (j + k <? bhi)
             then (i + k, ahi, j + k, bhi) :: q1 else q1).
  assert (well_formed q1
          ∧ sum_list (map (λ '(alo, ahi, _, _), ahi - alo) q1)
            ≤ (i - alo) + sum_list (map (λ '(alo, ahi, _, _), ahi - alo) queue)
          ∧ sum_list (map (λ '(_, _, blo, bhi), bhi - blo) q1)
            ≤ (j - blo) + sum_list (map (λ '(_, _, blo, bhi), bhi - blo) queue))
    as (Hwf1 & Ha1 & Hb1).
  { unfold q1. destruct ((alo <? i) && (blo <? j)) eqn:Hc; simpl.
    - apply andb_true_iff in Hc as [Hc1 Hc2].
      apply Nat.ltb_lt in Hc1, Hc2.
      split_and!; [apply Forall_cons; split; [lia|done]|lia..].
    - split_and!; [done|lia..]. }
  assert (well_formed q2
          ∧ sum_list (map (λ '(alo, ahi, _, _), ahi - alo) q2)
            ≤ (ahi - (i + k))
              + sum_list (map (λ '(alo, ahi, _, _), ahi - alo) q1)
          ∧ sum_list (map (λ '(_, _, blo, bhi), bhi - blo) q2)
            ≤ (bhi - (j + k))
              + sum_list (map (λ '(_, _, blo, bhi), bhi - blo) q1))
    as (Hwf2 & Ha2 & Hb2).
  { unfold q2. destruct ((i + k <? ahi) && (j + k <? bhi)) eqn:Hc; simpl.
    - apply andb_true_iff in Hc as [Hc1 Hc2].
      apply Nat.ltb_lt in Hc1, Hc2.
      split_and!; [apply Forall_cons; split; [lia|done]|lia..].
    - split_and!; [done|lia..]. }
  destruct (IH q2 (matching_blocks ++ [(i, j, k)]) Hwf2) as [Hra Hrb].
  rewrite matched_app in Hra, Hrb.
  assert (matched [(i, j, k)] = k) as Hone
    by (unfold matched; simpl; lia).
  rewrite Hone in Hra, Hrb.
  change (id (ahi - alo)) with (ahi - alo).
  change (id (bhi - blo)) with (bhi - blo). lia.
Qed.

Lemma matched_Permutation (l1 l2 : list Match) :
  l1 ≡ₚ l2 → matched l1 = matched l2.
Proof.
  unfold matched. induction 1 as [|x l1 l2 _ IH|x y l|l1 l2 l3 _ IH1 _ IH2];
    simpl; lia.
Qed.

Lemma collapse_matched (blocks : list Match) (cur : Match)
    (non_adjacent : list Match) :
  matched (collapse cur blocks non_adjacent)
  = matched non_adjacent + cur.2 + matched blocks.
Proof.
  revert cur non_adjacent.
  induction blocks as [|[[i2 j2] k2] blocks IH];
    intros [[i1 j1] k1] non_adjacent; simpl.
  - destruct (k1 =? 0) eqn:Hk.
    + apply Nat.eqb_eq in Hk. unfold matched. simpl. lia.
    + rewrite matched_app. unfold matched. simpl. lia.
  - destruct ((i1 + k1 =? i2) && (j1 + k1 =? j2)).
    + rewrite IH. unfold matched. simpl. lia.
    + rewrite IH. destruct (k1 =? 0) eqn:Hk.
      * apply Nat.eqb_eq in Hk. unfold matched. simpl. lia.
      * rewrite matched_app. unfold matched. simpl. lia.
Qed.

(** the blocks match no more elements than either sequence has *)
Lemma get_matching_blocks_matched :
  matched (get_matching_blocks a b) ≤ length a
  ∧ matched (get_matching_blocks a b) ≤ length b.
Proof.
  unfold get_matching_blocks.
  rewrite matched_app, collapse_matched.
  rewrite (matched_Permutation _ _ (merge_sort_Permutation _ _)).
  destruct (blocks_loop_matched (length a + length b + 1)
              [(0, length a, 0, length b)] []) as [Ha Hb].
  { apply Forall_singleton. lia. }
  unfold matched, width_a, width_b in *. simpl in *. lia.
Qed.

Lemma ratio_range : (0 <= ratio a b)%Q ∧ (ratio a b <= 1)%Q.
Proof.
  split; [apply calculate_ratio_nonneg|].
  unfold ratio. destruct get_matching_blocks_matched as [Ha Hb].
  fold (matched (get_matching_blocks a b)).
  unfold calculate_ratio.
  destruct (length a + length b =? 0) eqn:Hz; [done|].
  apply Nat.eqb_neq in Hz. unfold Qle. simpl.
  rewrite Z.mul_1_r.
  destruct (length a + length b) as [|m] eqn:Hm; [done|].
  rewrite <- Pos.of_nat_succ, Zpos_P_of_succ_nat. lia.
Qed.

End difflib_bounds_facts.

Lemma similarity_range (a b : string) :
  (0 <= similarity a b)%Q ∧ (similarity a b <= 1)%Q.
Proof. apply ratio_range. Qed.

Lemma score_of_range (artist album : string) (r : Record_) :
  (0 <= score_of artist album r)%Q ∧ (score_of artist album r <= 1)%Q.
Proof.
  unfold score_of, alb_score_of, art_score_of.
  destruct (similarity_range album (default "" (r !! "collectionName"))).
  destruct (similarity_range artist (default "" (r !! "artistName"))).
  split; lra.
Qed.
(* ================================================================== *)
(** * What the run returns *)
(* ================================================================== *)

Lemma contains_app_r (k a b : string) :
  Text.contains k b = true → Text.contains k (a +:+ b) = true.
Proof.
  intros Hb. induction a as [|x a IH]; [by rewrite string_app_nil_l|].
  rewrite string_app_cons. cbn [Text.contains]. rewrite IH.
  apply orb_true_r.
Qed.

Lemma contains_app_l (k a b : string) :
  Text.contains k a = true → Text.contains k (a +:+ b) = true.
Proof.
  induction a as [|x a IH]; intros Ha.
  - destruct k; [by destruct b|done].
  - rewrite string_app_cons. cbn [Text.contains] in *.
    apply orb_true_iff in Ha as [Hp | Hc].
    + rewrite <- string_app_cons.
      apply orb_true_iff. left. revert Hp. generalize (String x a).
      clear. intros s. revert s. induction k as [|y k IH]; intros s Hp.
      * by destruct (s +:+ b).
      * destruct s as [|z s]; [done|]. rewrite string_app_cons.
        simpl in *. destruct (ascii_dec y z); [by apply IH|done].
    + rewrite IH by done. apply orb_true_r.
Qed.

Section Run.
Variable env : Env.
Variable args : Args.

(** an album with a cover, when overwriting is off: nothing happens *)
Lemma process_album_covered (album_dir : Path) (w : World) :
  force args = false →
  album_has_cover (files w) album_dir ≠ None →
  ∃ msg, process_album env args album_dir w = (Ok (false, msg), w).
Proof.
  intros Hforce Hcover. unfold process_album.
  destruct (is_disc_subfolder _); [by eexists|].
  unfold bind at 1, get_files. rewrite Hforce.
  destruct (album_has_cover (files w) album_dir); [by eexists|done].
Qed.

Lemma main_step_covered (total idx : nat) (album_dir : Path) (c : Counters)
    (w : World) :
  force args = false →
  album_has_cover (files w) album_dir ≠ None →
  ∃ c' line,
    main_step env args total idx album_dir c w
    = (Ok (Continue c'),
       mkWorld (now w) (slept w) (draws w) (sent w) (pacer_last w) (files w)
               (stdout w ++ [line]) (stderr w)).
Proof.
  intros Hforce Hcover. unfold main_step, try_except, bind at 1.
  destruct (process_album_covered album_dir w Hforce Hcover) as [msg ->].
  by eexists _, _.
Qed.

Lemma main_loop_covered (total : nat) (album_dirs : list Path) (idx : nat)
    (c : Counters) (w : World) (r : Result Counters) (w' : World) :
  force args = false →
  all_covered (files w) album_dirs →
  main_loop env args total idx album_dirs c w = (r, w') →
  sent w' = sent w ∧ files w' = files w.
Proof.
  intros Hforce. revert idx c w.
  induction album_dirs as [|album_dir album_dirs IH]; intros idx c w Hall;
    cbn [main_loop].
  { unfold ret. by intros [= <- <-]. }
  unfold bind at 1.
  destruct (main_step_covered total idx album_dir c w Hforce)
    as (c' & line & ->); [apply Hall; left|].
  unfold bind at 1. rewrite pause_cases.
  destruct (interrupted env idx); [by intros [= <- <-]|].
  destruct (sleep_effect (5 # 100)
              (mkWorld (now w) (slept w) (draws w) (sent w) (pacer_last w)
                 (files w) (stdout w ++ [line]) (stderr w)))
    as (Hs1 & Hf1 & _).
  match goal with
  | |- context [(sleep (5 # 100) ?w0).2] =>
      set (w1 := (sleep (5 # 100) w0).2) in *
  end.
  cbn [sent files] in Hs1, Hf1. intros Hloop.
  destruct (IH (S idx) c' w1) as [Hs2 Hf2]; [|done|].
  { rewrite Hf1. intros d Hd. apply Hall. by right. }
  split; [by rewrite Hs2|by rewrite Hf2].
Qed.

Lemma root_test (w : World) :
  negb (exists_ (files w) (root args))
  || negb (is_dir (files w) (root args))
  = negb (is_dir (files w) (root args)).
Proof.
  unfold exists_, is_dir.
  destruct (files w !! root args) as [[|data]|] eqn:Hroot; simpl;
    repeat case_bool_decide; try done; naive_solver.
Qed.

(** [main] raises nothing but the interrupt of a pause *)
Lemma main_outcome (w : World) (r : Result Z) (w' : World) :
  main env args w = (r, w') →
  match r with
  | Ok status => status = (if is_dir (files w) (root args) then 0 else 1)%Z
  | Raised e => e = KeyboardInterrupt ∧ ∃ n, interrupted env n = true
  end.
Proof.
  unfold main, bind at 1, get_files. rewrite root_test.
  destruct (is_dir (files w) (root args)); cbn [negb].
  2:{ unfold bind, print_stderr, ret. by intros [= <- <-]. }
  unfold bind at 1, new_Pacer.
  destruct (length _ =? 0).
  { unfold bind, print, ret. by intros [= <- <-]. }
  unfold bind at 1, print at 1. unfold bind at 1.
  match goal with
  | |- context [main_loop env args ?t ?i ?ds ?c ?w0] =>
      pose proof (main_loop_counts env args t ds i c w0) as Hcounts;
      destruct (main_loop env args t i ds c w0) as [[c'|e] w1]
  end.
  - unfold bind, print, ret. by intros [= <- <-].
  - intros [= <- <-]. by apply (Hcounts (Raised e) w1).
Qed.

(** when no pause is interrupted, [main] raises nothing *)
Lemma main_returns (w : World) :
  (∀ n, interrupted env n = false) →
  ∃ w', main env args w
        = (Ok (if is_dir (files w) (root args) then 0 else 1)%Z, w').
Proof.
  intros Hquiet. unfold main, bind at 1, get_files. rewrite root_test.
  destruct (is_dir (files w) (root args)); simpl; [|by eexists].
  unfold bind at 1, new_Pacer.
  destruct (length _ =? 0); [by eexists|].
  unfold bind at 1, print at 1. unfold bind at 1.
  match goal with
  | |- context [main_loop env args ?t ?i ?ds ?c ?w0] =>
      destruct (main_loop_returns env args t ds i c w0 Hquiet)
        as (c' & w1 & ->)
  end.
  by eexists.
Qed.

End Run.

(** an interrupt in the pause after the first album ends the run with
    [KeyboardInterrupt], after the line of that album and before the
    summary *)
Lemma main_interrupted_in_pause :
  ∃ line w',
    main Sample.interrupted_pause Example.args Example.world
    = (Raised KeyboardInterrupt, w')
    ∧ stdout w'
      = ["Scanning 1 album folders under: /music" +:+ String Text.LF ""; line].
Proof. eexists _, _. split; vm_compute; reflexivity. Qed.

Section Pacing.
Variable env : Env.
Hypothesis random_nonneg : ∀ n, (0 <= random env n)%Q.

(** when [wait] returns, at least [min_interval] has passed since the
    mark *)
Lemma Pacer_wait_interval (key : string) (min_interval jitter : Q)
    (w : World) :
  ∃ w',
    Pacer_wait env key min_interval jitter w = (Ok (), w')
    ∧ pacer_last w' = pacer_last w
    ∧ (now w <= now w')%Q
    ∧ (min_interval <= now w' - default 0%Q (pacer_last w' !! key))%Q.
Proof.
  unfold Pacer_wait, bind, monotonic.
  set (last := default 0%Q (pacer_last w !! key)).
  set (to_wait := Qmax 0 (min_interval - (now w - last))).
  pose proof (Q.le_max_r 0 (min_interval - (now w - last))) as Hmax.
  fold to_wait in Hmax.
  destruct (Qlt_bool 0 to_wait) eqn:Hwait.
  - apply Qlt_bool_true in Hwait.
    assert (∃ extra w1,
              (if Qlt_bool 0 jitter then uniform env 0 jitter else ret 0%Q) w
              = (Ok extra, w1)
              ∧ (0 <= extra)%Q ∧ now w1 = now w
              ∧ pacer_last w1 = pacer_last w) as (extra & w1 & -> & He & Hn & Hl).
    { destruct (Qlt_bool 0 jitter) eqn:Hj.
      - apply Qlt_bool_true in Hj. unfold uniform. eexists _, _.
        split; [done|]. simpl. split_and!; try done.
        specialize (random_nonneg (draws w)). nra.
      - eexists _, _. split; [done|]. split_and!; try done. }
    unfold sleep.
    replace (Qlt_bool (to_wait + extra) 0) with false
      by (symmetry; apply Qlt_bool_false; lra).
    eexists. split; [done|]. cbn [pacer_last now]. rewrite Hl, Hn.
    fold last. rewrite !Qred_correct. split_and!; [done|lra..].
  - apply Qlt_bool_false in Hwait. exists w. unfold ret.
    split_and!; try done; [lra|]. fold last. lra.
Qed.

End Pacing.
(* ================================================================== *)
(** * The selector without assumptions on the scores *)
(* ================================================================== *)

Lemma Qnat_snoc {A : Type} (seen : list A) (x : A) :
  (Qnat (length (seen ++ [x])) == Qnat (length seen) + 1)%Q.
Proof.
  unfold Qnat. rewrite length_app, Nat2Z.inj_add, inject_Z_plus. simpl.
  reflexivity.
Qed.

Lemma Qnat_nonneg (n : nat) : (0 <= Qnat n)%Q.
Proof. unfold Qnat, Qle. simpl. lia. Qed.

Section Selector_near.
Variables artist album : string.

Local Abbreviation score' := (score_of artist album).

Lemma match_step_near (seen : list Record_) (st : option Scored * Q)
    (r : Record_) :
  selector_near artist album seen st →
  selector_near artist album (seen ++ [r]) (match_step artist album st r).
Proof.
  intros Hinv. destruct st as [best best_score]. unfold match_step.
  fold (survives r). fold (score' r).
  pose proof (Qnat_snoc seen r) as Hk.
  pose proof (Qnat_nonneg (length seen)) as Hk0.
  assert (0 < EPSILON)%Q as Heps by done.
  destruct (survives r) eqn:Hr; cbn [negb].
  2:{ destruct best as [b|]; cbn [selector_near] in *.
      - destruct Hinv as (Hin & Hsv & Hsc & Halb & Hart & Hbs & Hmax).
        split_and!; try done; [set_solver|].
        intros r' Hr' Hs'. rewrite Hk.
        apply elem_of_app in Hr' as [Hr'|Hr'].
        + specialize (Hmax r' Hr' Hs'). nra.
        + apply list_elem_of_singleton in Hr' as ->. congruence.
      - destruct Hinv as [Hbs Hnone]. split; [done|].
        intros r' Hr'.
        apply elem_of_app in Hr' as [?|Hr']; [by apply Hnone|].
        by apply list_elem_of_singleton in Hr' as ->. }
  pose proof (score_of_nonneg artist album r) as Hnn.
  destruct best as [b|]; cbn [selector_near from_option] in *.
  - destruct Hinv as (Hin & Hsv & Hsc & Halb & Hart & -> & Hmax).
    destruct (Qlt_bool (_score b) (score' r)) eqn:Hlt; cbn [orb].
    + apply Qlt_bool_true in Hlt. cbn [fields _score _alb_score _art_score].
      split_and!; try done; [set_solver|].
      intros r' Hr' Hs'. rewrite Hk.
      apply elem_of_app in Hr' as [Hr'|Hr'].
      * specialize (Hmax r' Hr' Hs'). nra.
      * apply list_elem_of_singleton in Hr' as ->. nra.
    + apply Qlt_bool_false in Hlt.
      destruct (Qlt_bool (Qabs (score' r - _score b)) (1 # 1000000)
                && Qlt_bool (_alb_score b) (alb_score_of album r)) eqn:Htie.
      * apply andb_true_iff in Htie as [Hnear _].
        apply Qlt_bool_true in Hnear.
        apply Qabs_Qlt_condition in Hnear as [Hlo Hhi].
        cbn [fields _score _alb_score _art_score].
        split_and!; try done; [set_solver|].
        intros r' Hr' Hs'. rewrite Hk. unfold EPSILON in *.
        apply elem_of_app in Hr' as [Hr'|Hr'].
        -- specialize (Hmax r' Hr' Hs'). nra.
        -- apply list_elem_of_singleton in Hr' as ->. nra.
      * split_and!; try done; [set_solver|].
        intros r' Hr' Hs'. rewrite Hk.
        apply elem_of_app in Hr' as [Hr'|Hr'].
        -- specialize (Hmax r' Hr' Hs'). nra.
        -- apply list_elem_of_singleton in Hr' as ->. nra.
  - destruct Hinv as [-> Hnone].
    replace (Qlt_bool (-1) (score' r)) with true
      by (symmetry; apply Qlt_bool_true; lra).
    cbn [orb fields _score _alb_score _art_score].
    split_and!; try done; [set_solver|].
    intros r' Hr' Hs'. rewrite Hk.
    apply elem_of_app in Hr' as [Hr'|Hr'].
    + rewrite Hnone in Hs' by done. done.
    + apply list_elem_of_singleton in Hr' as ->. nra.
Qed.

Lemma match_loop_near (rest seen : list Record_) (st : option Scored * Q) :
  selector_near artist album seen st →
  selector_near artist album (seen ++ rest)
    (foldl (match_step artist album) st rest).
Proof.
  revert seen st. induction rest as [|r rest IH]; intros seen st Hinv.
  - by rewrite app_nil_r.
  - simpl. replace (seen ++ r :: rest) with ((seen ++ [r]) ++ rest)
      by (by rewrite <- app_assoc).
    apply IH. by apply match_step_near.
Qed.

Lemma best_album_match_near (results : list Record_) (min_score : Q) :
  match best_album_match results artist album min_score with
  | Some b =>
      fields b ∈ results ∧ survives (fields b) = true
      ∧ _score b = score' (fields b)
      ∧ _alb_score b = alb_score_of album (fields b)
      ∧ _art_score b = art_score_of artist (fields b)
      ∧ (min_score <= _score b)%Q
      ∧ ∀ r, r ∈ results → survives r = true →
             (score' r <= _score b + Qnat (length results) * EPSILON)%Q
  | None =>
      ∀ r, r ∈ results → survives r = true →
           (score' r < min_score + Qnat (length results) * EPSILON)%Q
  end.
Proof.
  unfold best_album_match.
  pose proof (match_loop_near results [] (None, (-1)%Q)) as Hinv.
  simpl in Hinv.
  destruct (foldl (match_step artist album) (None, (-1)%Q) results)
    as [[b|] best_score]; simpl in Hinv.
  - destruct Hinv as (Hin & Hsv & Hsc & Halb & Hart & -> & Hmax);
      [by split; [|set_solver]|].
    destruct (Qle_bool min_score (_score b)) eqn:Hth.
    + apply Qle_bool_iff in Hth. done.
    + intros r Hr Hs. specialize (Hmax r Hr Hs).
      assert (Qlt_bool (_score b) min_score = true) as Hlt
        by (unfold Qlt_bool; by rewrite Hth).
      apply Qlt_bool_true in Hlt. lra.
  - destruct Hinv as [_ Hnone]; [by split; [|set_solver]|].
    intros r Hr Hs. rewrite Hnone in Hs by done. done.
Qed.

End Selector_near.
(* ================================================================== *)
(** * Disc-folder names *)
(* ================================================================== *)

Lemma string_rev_involutive (s : string) : String.rev (String.rev s) = s.
Proof.
  induction s as [|c s IH]; [done|].
  change (String c s) with (String c "" +:+ s) at 1.
  rewrite string_rev_app, string_rev_app, IH. done.
Qed.

Lemma string_all_rev (p : ascii -> bool) (s : string) :
  string_all p (String.rev s) = string_all p s.
Proof.
  induction s as [|c s IH]; [done|].
  change (String c s) with (String c "" +:+ s) at 1.
  rewrite string_rev_app, string_all_app, IH. simpl.
  rewrite andb_true_r. apply andb_comm.
Qed.

Lemma lstrip_split (s : string) :
  ∃ pre, s = pre +:+ Text.lstrip s ∧ blank pre
         ∧ stops Text.is_space (Text.lstrip s).
Proof.
  induction s as [|c s (pre & Hs & Hpre & Hstop)]; [by exists ""|].
  simpl. destruct (Text.is_space c) eqn:Hc.
  - exists (String c pre). str. split_and!; [by rewrite <- Hs| |done].
    unfold blank in *. simpl. by rewrite Hc.
  - by exists "".
Qed.

Lemma lstrip_blank (pre s : string) :
  blank pre → Text.lstrip (pre +:+ s) = Text.lstrip s.
Proof.
  unfold blank. induction pre as [|c pre IH]; str; [done|].
  intros Hpre. apply andb_true_iff in Hpre as [-> Hpre]. by apply IH.
Qed.

Lemma lstrip_stops (s : string) :
  stops Text.is_space s → Text.lstrip s = s.
Proof. destruct s as [|c s]; simpl; [done|]. by intros ->. Qed.

Lemma strip_split (s : string) :
  ∃ pre post, s = pre +:+ Text.strip s +:+ post ∧ blank pre ∧ blank post.
Proof.
  destruct (lstrip_split s) as (pre & Hs & Hpre & _).
  destruct (lstrip_split (String.rev (Text.lstrip s)))
    as (tsop & Hrev & Htsop & _).
  exists pre, (String.rev tsop). split_and!; [|done|].
  - rewrite Hs at 1. f_equal. unfold Text.strip, Text.rstrip.
    rewrite <- string_rev_app, <- Hrev. by rewrite string_rev_involutive.
  - unfold blank. by rewrite string_all_rev.
Qed.

Lemma strip_tight (pre core post : string) :
  blank pre → blank post →
  stops Text.is_space core → stops Text.is_space (String.rev core) →
  core ≠ "" →
  Text.strip (pre +:+ core +:+ post) = core.
Proof.
  intros Hpre Hpost Hfirst Hlast Hne. unfold Text.strip, Text.rstrip.
  rewrite lstrip_blank by done.
  rewrite (lstrip_stops (core +:+ post))
    by (destruct core; [done|by str]).
  rewrite string_rev_app, lstrip_blank
    by (unfold blank; by rewrite string_all_rev).
  rewrite lstrip_stops by done. apply string_rev_involutive.
Qed.

(** the first character of a word read under [re.IGNORECASE], or of a
    number or a bracket, is not white space *)
Lemma stops_space_spells (l : ascii) (lit word rest : string) :
  spells (String l lit) word → Text.is_space (Text.lower_char l) = false →
  stops Text.is_space (word +:+ rest) ∧ word ≠ "".
Proof.
  unfold spells. destruct word as [|c word]; [done|]. simpl.
  intros [= Hc _] Hl. str. split; [|done].
  rewrite <- Hc in Hl. revert Hl. clear.
  by destruct c as [[] [] [] [] [] [] [] []].
Qed.

Lemma stops_space_number (n rest : string) :
  number n → stops Text.is_space (n +:+ rest) ∧ n ≠ "".
Proof.
  intros [Hne Hn]. split; [|done]. destruct n as [|c n]; [done|]. str.
  apply andb_true_iff in Hn as [Hc _]. revert Hc. clear.
  by destruct c as [[] [] [] [] [] [] [] []].
Qed.

Lemma stops_space_rev_number (n rest : string) :
  number n → stops Text.is_space (String.rev n +:+ rest).
Proof.
  intros [Hne Hn]. apply stops_space_number. split.
  - intros Hrev. apply (f_equal String.rev) in Hrev.
    by rewrite string_rev_involutive in Hrev.
  - by rewrite string_all_rev.
Qed.

Lemma stops_digit_number_end (n : string) :
  number n → digit_run 1 (String.length n) n.
Proof.
  intros [Hne Hn]. split_and!; [done| |done].
  destruct n; [done|simpl; lia].
Qed.

Lemma number_of_digit_run (n : string) :
  digit_run 1 (String.length n) n → number n.
Proof. intros (Hn & Hlen & _). split; [|done]. intros ->. simpl in *. lia. Qed.

(** ** what each reader accepts *)

Lemma number_end_app (n : string) : number n → number_end n = Some ().
Proof.
  intros Hn. unfold number_end.
  rewrite <- (string_app_nil_r n) at 1.
  rewrite digits1_app; [done|by apply stops_digit_number_end|done].
Qed.

Lemma number_end_spec (s : string) :
  number_end s = Some () →
  ∃ n tail, s = n +:+ tail ∧ number n ∧ Text.at_end tail = true.
Proof.
  unfold number_end.
  destruct (Text.digits1 s) as [[n rest]|] eqn:Hd; [|done]. simpl.
  destruct (Text.at_end rest) eqn:Hend; [|done]. intros _.
  apply digits1_spec in Hd as (-> & Hn & _).
  exists n, rest. split_and!; [done| |done]. by apply number_of_digit_run.
Qed.

Lemma bracket_number_end_app (n : string) :
  number n → bracket_number_end ("[" +:+ n +:+ "]") = Some ().
Proof.
  intros Hn. unfold bracket_number_end. str.
  rewrite digits1_app; [done|by apply stops_digit_number_end|done].
Qed.

Lemma bracket_number_end_spec (s : string) :
  bracket_number_end s = Some () →
  ∃ n tail, s = "[" +:+ n +:+ "]" +:+ tail ∧ number n
            ∧ Text.at_end tail = true.
Proof.
  unfold bracket_number_end.
  destruct (Text.eat_char "[" s) as [t|] eqn:Hopen; [|done]. simpl.
  destruct (Text.digits1 t) as [[n rest]|] eqn:Hd; [|done]. simpl.
  destruct (Text.eat_char "]" rest) as [rest'|] eqn:Hclose; [|done]. simpl.
  destruct (Text.at_end rest') eqn:Hend; [|done]. intros _.
  apply eat_char_spec in Hopen as ->. apply eat_char_spec in Hclose as ->.
  apply digits1_spec in Hd as (-> & Hn & _).
  exists n, rest'. split_and!; [done| |done]. by apply number_of_digit_run.
Qed.

Lemma after_spaces_app {T} (k : string -> option T) (ws rest : string) :
  blank ws → stops Text.is_space rest →
  after_spaces k (ws +:+ rest) = k rest.
Proof. intros Hws Hrest. unfold after_spaces. by rewrite span_app. Qed.

Lemma after_spaces_spec {T} (k : string -> option T) (s : string) :
  ∃ ws rest, s = ws +:+ rest ∧ blank ws ∧ after_spaces k s = k rest.
Proof.
  unfold after_spaces.
  destruct (Text.span Text.is_space s) as [ws rest] eqn:Hspan.
  apply span_spec in Hspan as (-> & Hws & _). by exists ws, rest.
Qed.

Lemma after_word_app {T} (lit : string) (k : string -> option T)
    (word rest : string) :
  spells lit word → after_word lit k (word +:+ rest) = k rest.
Proof. intros Hw. unfold after_word. by rewrite eat_ci_app. Qed.

Lemma after_word_spec {T} (lit : string) (k : string -> option T)
    (s : string) (x : T) :
  after_word lit k s = Some x →
  ∃ word rest, s = word +:+ rest ∧ spells lit word ∧ k rest = Some x.
Proof.
  unfold after_word.
  destruct (Text.eat_ci lit s) as [[word rest]|] eqn:Heat; [|done]. simpl.
  intros Hk. apply eat_ci_spec in Heat as [-> Hword]. by exists word, rest.
Qed.

(** every pattern accepts the names of its shape *)
Lemma disc_name_accepted (core : string) :
  disc_name core →
  existsb (λ p, bool_decide (is_Some (p core))) DISC_FOLDER_PATTERNS = true.
Proof.
  intros Hcore. apply existsb_exists.
  destruct Hcore as [word ws n Hword Hws Hn | word ws n Hword Hws Hn
                    | w1 ws1 w2 ws2 n Hw1 Hws1 Hw2 Hws2 Hn
                    | w1 ws1 w2 ws2 n Hw1 Hws1 Hw2 Hws2 Hn | n Hn].
  - exists (after_word "CD" (after_spaces number_end)).
    split; [set_solver|]. apply bool_decide_eq_true.
    rewrite after_word_app by done.
    rewrite <- (string_app_nil_r n), after_spaces_app;
      [|done|by apply stops_space_number].
    rewrite string_app_nil_r, number_end_app by done. by eexists.
  - exists (after_word "Disc" (after_spaces number_end)).
    split; [set_solver|]. apply bool_decide_eq_true.
    rewrite after_word_app by done.
    rewrite <- (string_app_nil_r n), after_spaces_app;
      [|done|by apply stops_space_number].
    rewrite string_app_nil_r, number_end_app by done. by eexists.
  - exists (after_word "Digital"
              (after_spaces (after_word "Media" (after_spaces number_end)))).
    split; [set_solver|]. apply bool_decide_eq_true.
    rewrite after_word_app by done.
    rewrite after_spaces_app; [|done|by eapply stops_space_spells].
    rewrite after_word_app by done.
    rewrite <- (string_app_nil_r n), after_spaces_app;
      [|done|by apply stops_space_number].
    rewrite string_app_nil_r, number_end_app by done. by eexists.
  - exists (after_word "Digital"
              (after_spaces
                 (after_word "Media" (after_spaces bracket_number_end)))).
    split; [set_solver|]. apply bool_decide_eq_true.
    rewrite after_word_app by done.
    rewrite after_spaces_app; [|done|by eapply stops_space_spells].
    rewrite after_word_app by done.
    rewrite after_spaces_app; [|done|done].
    rewrite bracket_number_end_app by done. by eexists.
  - exists bracket_number_end. split; [set_solver|].
    apply bool_decide_eq_true. rewrite bracket_number_end_app by done.
    by eexists.
Qed.

(** and nothing else, up to a newline at the end *)
Lemma disc_name_matched (s : string) :
  existsb (λ p, bool_decide (is_Some (p s))) DISC_FOLDER_PATTERNS = true →
  ∃ core tail, s = core +:+ tail ∧ disc_name core ∧ Text.at_end tail = true.
Proof.
  intros Hs. apply existsb_exists in Hs as (p & Hp & Hsome).
  apply bool_decide_eq_true in Hsome as [[] Hrun].
  apply list_elem_of_In in Hp. unfold DISC_FOLDER_PATTERNS in Hp.
  repeat (apply elem_of_cons in Hp as [-> | Hp]); [..|by apply elem_of_nil in Hp].
  - apply after_word_spec in Hrun as (word & r1 & -> & Hword & Hrun).
    destruct (after_spaces_spec number_end r1) as (ws & r2 & -> & Hws & Hk).
    rewrite Hk in Hrun.
    apply number_end_spec in Hrun as (n & tail & -> & Hn & Hend).
    exists (word +:+ ws +:+ n), tail.
    split_and!; [by rewrite !string_app_assoc| |done].
    by apply disc_cd.
  - apply after_word_spec in Hrun as (word & r1 & -> & Hword & Hrun).
    destruct (after_spaces_spec number_end r1) as (ws & r2 & -> & Hws & Hk).
    rewrite Hk in Hrun.
    apply number_end_spec in Hrun as (n & tail & -> & Hn & Hend).
    exists (word +:+ ws +:+ n), tail.
    split_and!; [by rewrite !string_app_assoc| |done].
    by apply disc_disc.
  - apply after_word_spec in Hrun as (w1 & r1 & -> & Hw1 & Hrun).
    destruct (after_spaces_spec
                (after_word "Media" (after_spaces number_end)) r1)
      as (ws1 & r2 & -> & Hws1 & Hk).
    rewrite Hk in Hrun.
    apply after_word_spec in Hrun as (w2 & r3 & -> & Hw2 & Hrun).
    destruct (after_spaces_spec number_end r3) as (ws2 & r4 & -> & Hws2 & Hk').
    rewrite Hk' in Hrun.
    apply number_end_spec in Hrun as (n & tail & -> & Hn & Hend).
    exists (w1 +:+ ws1 +:+ w2 +:+ ws2 +:+ n), tail.
    split_and!; [by rewrite !string_app_assoc| |done].
    by apply disc_digital_media.
  - apply after_word_spec in Hrun as (w1 & r1 & -> & Hw1 & Hrun).
    destruct (after_spaces_spec
                (after_word "Media" (after_spaces bracket_number_end)) r1)
      as (ws1 & r2 & -> & Hws1 & Hk).
    rewrite Hk in Hrun.
    apply after_word_spec in Hrun as (w2 & r3 & -> & Hw2 & Hrun).
    destruct (after_spaces_spec bracket_number_end r3)
      as (ws2 & r4 & -> & Hws2 & Hk').
    rewrite Hk' in Hrun.
    apply bracket_number_end_spec in Hrun as (n & tail & -> & Hn & Hend).
    exists (w1 +:+ ws1 +:+ w2 +:+ ws2 +:+ "[" +:+ n +:+ "]"), tail.
    split_and!; [by rewrite !string_app_assoc| |done].
    by apply disc_digital_media_bracket.
  - apply bracket_number_end_spec in Hrun as (n & tail & -> & Hn & Hend).
    exists ("[" +:+ n +:+ "]"), tail.
    split_and!; [by rewrite !string_app_assoc| |done].
    by apply disc_bracket.
Qed.

(** a disc-folder name starts and ends with a character that is not
    white space *)
Lemma disc_name_tight (core : string) :
  disc_name core →
  stops Text.is_space core ∧ stops Text.is_space (String.rev core)
  ∧ core ≠ "".
Proof.
  assert (∀ a b : string, a ≠ "" → a +:+ b ≠ "") as Hne.
  { intros [|c a] b Ha; [done|by str]. }
  intros [word ws n Hword Hws Hn | word ws n Hword Hws Hn
         | w1 ws1 w2 ws2 n Hw1 Hws1 Hw2 Hws2 Hn
         | w1 ws1 w2 ws2 n Hw1 Hws1 Hw2 Hws2 Hn | n Hn].
  - destruct (stops_space_spells _ _ word (ws +:+ n) Hword eq_refl)
      as [Hfirst Hw].
    split_and!; [done| |by apply Hne].
    rewrite !string_rev_app, string_app_assoc.
    by apply stops_space_rev_number.
  - destruct (stops_space_spells _ _ word (ws +:+ n) Hword eq_refl)
      as [Hfirst Hw].
    split_and!; [done| |by apply Hne].
    rewrite !string_rev_app, string_app_assoc.
    by apply stops_space_rev_number.
  - destruct (stops_space_spells _ _ w1 (ws1 +:+ w2 +:+ ws2 +:+ n) Hw1
                eq_refl) as [Hfirst Hw].
    split_and!; [done| |by apply Hne].
    rewrite !string_rev_app, !string_app_assoc.
    by apply stops_space_rev_number.
  - destruct (stops_space_spells _ _ w1
                (ws1 +:+ w2 +:+ ws2 +:+ "[" +:+ n +:+ "]") Hw1 eq_refl)
      as [Hfirst Hw].
    split_and!; [done| |by apply Hne].
    by rewrite !string_rev_app, !string_app_assoc.
  - split_and!; [done| |done]. by rewrite !string_rev_app.
Qed.

Lemma at_end_blank (tail post : string) :
  Text.at_end tail = true → blank post → blank (tail +:+ post).
Proof.
  intros Hend Hpost. apply at_end_cases in Hend as [-> | ->]; [done|].
  unfold blank. by rewrite string_all_app, Hpost.
Qed.
(* ================================================================== *)
(** * Letter case and white space around a name *)
(* ================================================================== *)

Lemma is_space_lower_char (c : ascii) :
  Text.is_space (Text.lower_char c) = Text.is_space c.
Proof. by destruct c as [[] [] [] [] [] [] [] []]. Qed.

Lemma lower_blank (s : string) : blank s → blank (Text.lower s).
Proof.
  unfold blank. induction s as [|c s IH]; simpl; [done|].
  rewrite is_space_lower_char. intros Hs.
  apply andb_true_iff in Hs as [-> Hs]. by apply IH.
Qed.

Lemma lstrip_all_blank (s : string) : blank s → Text.lstrip s = "".
Proof.
  unfold blank. induction s as [|c s IH]; simpl; [done|].
  intros Hs. apply andb_true_iff in Hs as [-> Hs]. by apply IH.
Qed.

Lemma lstrip_app (s t : string) :
  Text.lstrip (s +:+ t)
  = if string_all Text.is_space s then Text.lstrip t
    else Text.lstrip s +:+ t.
Proof.
  induction s as [|c s IH]; str; [done|].
  destruct (Text.is_space c); simpl; [done|by str].
Qed.

Lemma rstrip_blank (s post : string) :
  blank post → Text.rstrip (s +:+ post) = Text.rstrip s.
Proof.
  intros Hpost. unfold Text.rstrip.
  rewrite string_rev_app, lstrip_blank; [done|].
  unfold blank. by rewrite string_all_rev.
Qed.

(** white space around a text does not change what [strip] gives *)
Lemma strip_blank_around (pre s post : string) :
  blank pre → blank post →
  Text.strip (pre +:+ s +:+ post) = Text.strip s.
Proof.
  intros Hpre Hpost. unfold Text.strip.
  rewrite lstrip_blank by done. rewrite lstrip_app.
  destruct (string_all Text.is_space s) eqn:Hs.
  - by rewrite !lstrip_all_blank.
  - by apply rstrip_blank.
Qed.

Lemma normalize_text_padded (a a' pre post : string) :
  spells a a' → blank pre → blank post →
  normalize_text (pre +:+ a' +:+ post) = normalize_text a.
Proof.
  intros Hspell Hpre Hpost. unfold normalize_text.
  rewrite !lower_app, strip_blank_around by (by apply lower_blank).
  by rewrite Hspell.
Qed.
(* ================================================================== *)
(** * Without a network *)
(* ================================================================== *)

Lemma last_failure_down (env : Env) (req : Request) (n start : nat)
    (acc : option Exc) :
  network_down env →
  (acc = None ∨ acc = Some Timeout ∨ acc = Some ConnectionError) →
  0 < n ∨ acc ≠ None →
  last_failure env req start n acc = Some Timeout
  ∨ last_failure env req start n acc = Some ConnectionError.
Proof.
  intros Hdown. revert start acc.
  induction n as [|n IH]; intros start acc Hacc Hn; simpl.
  - destruct Hn as [?|Hn]; [lia|]. naive_solver.
  - apply IH.
    + destruct (Hdown start req) as [-> | ->]; auto.
    + right. by destruct (Hdown start req) as [-> | ->].
Qed.

Lemma contains_network_error (artist album : string) (e : Exc) :
  Text.contains "error" (Text.lower (msg_network artist album e)) = true.
Proof.
  unfold msg_network. rewrite lower_app. by apply contains_app_l.
Qed.

Section Offline.
Variable env : Env.
Variable args : Args.
Hypothesis random_range : ∀ n, (0 <= random env n)%Q ∧ (random env n <= 1)%Q.
Hypothesis down : network_down env.
Hypothesis backoff_nonneg : (0 <= backoff args)%Q.
Hypothesis retries_pos : (0 < max_retries args)%Z.

Lemma search_two_passes_offline (artist album : string) (w : World) :
  ∃ e w',
    search_two_passes env args artist album w
    = (Ok (inl (msg_network artist album e)), w')
    ∧ (e = Timeout ∨ e = ConnectionError)
    ∧ files w' = files w
    ∧ length (sent w') = length (sent w) + Z.to_nat (max_retries args).
Proof.
  pose proof (does_search_two_passes env args no_file artist album w) as Heff.
  apply effect_no_file in Heff.
  unfold search_two_passes in *. unfold bind at 1 in Heff. unfold bind at 1.
  unfold try_except at 1 in Heff. unfold try_except at 1.
  unfold bind at 1 in Heff. unfold bind at 1.
  unfold search_itunes_albums, api_search_with_retries in *.
  match goal with
  | |- context [api_loop env ?t ?i ?b ?j ?params None ?l w] =>
      destruct (api_loop_transient env random_range t i b j params
                  (Z.to_nat (max_retries args)) 0 None w backoff_nonneg)
        as (w1 & Hloop & Hlen);
      [|destruct (last_failure_down env (api_request t params)
                    (Z.to_nat (max_retries args)) (length (sent w)) None
                    down) as [Hlast | Hlast]; [by left|left; lia|..]]
  end.
  { intros i Hi. unfold transient.
    by destruct (down (length (sent w) + i)
                   (api_request (timeout args)
                      (<["term" := artist +:+ " " +:+ album]>
                         (<["media" := "music"]>
                            (<["entity" := "album"]>
                               (<["country" := country args]>
                                  (<["limit" :=
                                       NilZero.string_of_int
                                         (Z.to_int (limit args))]> ∅)))))))
      as [-> | ->]; [left|right]. }
  - rewrite Hlast in Hloop. rewrite Hloop in *. simpl in *.
    exists Timeout, w1. split_and!; try done. by left.
  - rewrite Hlast in Hloop. rewrite Hloop in *. simpl in *.
    exists ConnectionError, w1. split_and!; try done. by right.
Qed.

Lemma process_album_offline (album_dir : Path) (w : World) :
  is_disc_subfolder (name album_dir) = false →
  album_has_cover (files w) album_dir = None ∨ force args = true →
  ∃ e w',
    process_album env args album_dir w
    = (Ok (false,
           msg_network (name (parent album_dir)) (name album_dir) e), w')
    ∧ (e = Timeout ∨ e = ConnectionError)
    ∧ files w' = files w
    ∧ length (sent w') = length (sent w) + Z.to_nat (max_retries args).
Proof.
  intros Hdisc Hcover. unfold process_album. rewrite Hdisc.
  unfold bind at 1, get_files.
  destruct (search_two_passes_offline (name (parent album_dir))
              (name album_dir) w) as (e & w' & Hsearch & He & Hf & Hs).
  destruct (album_has_cover (files w) album_dir) as [existing|];
    [destruct Hcover as [?|Hforce]; [done|rewrite Hforce]|];
    (unfold bind at 1; rewrite Hsearch; by exists e, w').
Qed.

End Offline.
(* ================================================================== *)
(** * The first candidate that works *)
(* ================================================================== *)

Section First_working.
Variable env : Env.
Hypothesis random_range : ∀ n, (0 <= random env n)%Q ∧ (random env n <= 1)%Q.
Variables (timeout : Z) (cdn_interval : Q) (max_retries : Z)
          (backoff jitter : Q).
Hypothesis retries_pos : (0 < max_retries)%Z.

(** a reply with a status that is not retryable decides the candidate *)
Lemma request_cdn_stream_first_reply (url : string) (w : World)
    (r : Response) :
  serve env (length (sent w)) (cdn_request timeout url) = inr r →
  retryable (status_code r) = false →
  ∃ w',
    request_cdn_stream env timeout cdn_interval max_retries backoff jitter
      url w
    = (Ok (if (status_code r =? 200)%Z
              && Text.contains "image"
                   (Text.lower (default "" (headers r !! "Content-Type")))
           then Some r else None), w')
    ∧ sent w' = sent w ++ [cdn_request timeout url].
Proof.
  intros Hserve Hretry. unfold request_cdn_stream.
  destruct (Z.to_nat max_retries) as [|n] eqn:Hn; [lia|].
  cbn [seq cdn_loop]. unfold bind at 1, cdn_attempt. unfold bind at 1.
  destruct (Pacer_wait_ok env random_range "mzstatic_cdn" cdn_interval
              jitter w) as (w0 & -> & Hs0).
  unfold try_except, bind at 1, session_get.
  fold (cdn_request timeout url). rewrite <- Hs0 in Hserve. rewrite Hserve.
  unfold bind at 1, Pacer_mark, bind at 1, monotonic. rewrite Hretry.
  destruct (status_code r =? 200)%Z; simpl.
  - destruct (Text.contains _ _);
      (eexists; split; [done|]; simpl; by rewrite Hs0).
  - eexists. split; [done|]. simpl. by rewrite Hs0.
Qed.

Lemma is_image_test (r : Response) :
  (status_code r =? 200)%Z
  && Text.contains "image"
       (Text.lower (default "" (headers r !! "Content-Type"))) = true
  ↔ is_image r.
Proof.
  unfold is_image. rewrite andb_true_iff, Z.eqb_eq. done.
Qed.

(** the candidates before the first image are each asked for once *)
Lemma pick_loop_first_working (before : list string) (u : string)
    (after : list string) (w : World) (r : Response) :
  (∀ i u', before !! i = Some u' →
           rejects (serve env (length (sent w) + i)
                      (cdn_request timeout u'))) →
  serve env (length (sent w) + length before) (cdn_request timeout u)
    = inr r →
  is_image r →
  ∃ w',
    pick_loop env timeout cdn_interval max_retries backoff jitter
      (before ++ u :: after) w
    = (Ok (Some (r, u,
                 Text.lower (default "" (headers r !! "Content-Type")))),
       w')
    ∧ sent w' = sent w ++ map (cdn_request timeout) (before ++ [u]).
Proof.
  revert w. induction before as [|u0 before IH]; intros w Hbefore Hu Himage.
  - simpl in *. rewrite Nat.add_0_r in Hu. unfold bind at 1.
    destruct (request_cdn_stream_first_reply u w r Hu) as (w' & -> & Hs).
    { destruct Himage as [-> _]. done. }
    apply is_image_test in Himage. rewrite Himage.
    by exists w'.
  - cbn [app pick_loop]. unfold bind at 1.
    pose proof (Hbefore 0 u0 eq_refl) as H0.
    rewrite Nat.add_0_r in H0.
    destruct (serve env (length (sent w)) (cdn_request timeout u0))
      as [e|r0] eqn:Hserve; [done|].
    destruct H0 as [Hretry Hnot].
    destruct (request_cdn_stream_first_reply u0 w r0 Hserve Hretry)
      as (w1 & -> & Hs1).
    replace ((status_code r0 =? 200)%Z && _) with false.
    2:{ symmetry. apply not_true_is_false. intros Htest.
        by apply is_image_test in Htest. }
    destruct (IH w1) as (w' & Hloop & Hs'); [| |done|].
    + intros i u' Hi. rewrite Hs1, length_app. simpl.
      replace (length (sent w) + 1 + i) with (length (sent w) + S i) by lia.
      by apply Hbefore.
    + rewrite Hs1, length_app. simpl.
      replace (length (sent w) + 1 + length before)
        with (length (sent w) + S (length before)) by lia.
      done.
    + exists w'. split; [done|]. rewrite Hs', Hs1, <- app_assoc. done.
Qed.

End First_working.
(* ================================================================== *)
(** * The album directories *)
(* ================================================================== *)

Lemma is_child_app (p : Path) (name : string) : is_child p (p ++ [name]).
Proof.
  split; [rewrite length_app; simpl; lia|]. by rewrite take_app_length.
Qed.

Lemma is_dir_lookup (fs : gmap Path Node) (p : Path) :
  is_dir fs p = true ↔ fs !! p = Some Dir.
Proof. unfold is_dir. apply bool_decide_eq_true. Qed.

Lemma subdirs_elem_iff (fs : gmap Path Node) (p q : Path) :
  q ∈ subdirs fs p ↔ ∃ name, q = p ++ [name] ∧ fs !! q = Some Dir.
Proof.
  split.
  - intros Hq. apply subdirs_elem in Hq as [[name ->] Hdir].
    exists name. split; [done|]. by apply is_dir_lookup.
  - intros (name & -> & Hdir). unfold subdirs, sorted.
    rewrite merge_sort_Permutation. apply list_elem_of_filter.
    split; [by apply is_dir_lookup|].
    unfold iterdir. apply list_elem_of_filter.
    split; [apply is_child_app|].
    apply list_elem_of_fmap. exists (p ++ [name], Dir).
    split; [done|]. by apply elem_of_map_to_list.
Qed.

Lemma subdirs_NoDup (fs : gmap Path Node) (p : Path) : NoDup (subdirs fs p).
Proof.
  unfold subdirs, sorted. rewrite merge_sort_Permutation.
  apply NoDup_filter. unfold iterdir. apply NoDup_filter.
  apply NoDup_fst_map_to_list.
Qed.

Lemma flat_map_bind {A B : Type} (f : A → list B) (l : list A) :
  flat_map f l = l ≫= f.
Proof. induction l as [|x l IH]; simpl; [done|]. by rewrite IH. Qed.

Lemma find_album_dirs_elem (fs : gmap Path Node) (root q : Path) :
  q ∈ find_album_dirs fs root
  ↔ fs !! root = Some Dir
    ∧ ∃ artist album,
        q = root ++ [artist; album]
        ∧ fs !! (root ++ [artist]) = Some Dir
        ∧ fs !! q = Some Dir.
Proof.
  unfold find_album_dirs.
  destruct (is_dir fs root) eqn:Hroot; simpl.
  - apply is_dir_lookup in Hroot. rewrite flat_map_bind, list_elem_of_bind.
    split.
    + intros (a & Hq & Ha). split; [done|].
      apply subdirs_elem_iff in Ha as (artist & -> & Hartist).
      apply subdirs_elem_iff in Hq as (album & -> & Halbum).
      exists artist, album. rewrite <- app_assoc in *. by simpl in *.
    + intros (_ & artist & album & -> & Hartist & Halbum).
      exists (root ++ [artist]). split; apply subdirs_elem_iff.
      * exists album. rewrite <- app_assoc. by simpl.
      * by exists artist.
  - split; [by intros ?%elem_of_nil|].
    intros [Hdir _]. apply is_dir_lookup in Hdir. congruence.
Qed.

Lemma find_album_dirs_NoDup (fs : gmap Path Node) (root : Path) :
  NoDup (find_album_dirs fs root).
Proof.
  unfold find_album_dirs. destruct (is_dir fs root); simpl; [|constructor].
  rewrite flat_map_bind. apply NoDup_bind.
  - intros a1 a2 q _ _ H1 H2.
    apply subdirs_elem in H1 as [[n1 ->] _].
    apply subdirs_elem in H2 as [[n2 Heq] _].
    by apply app_inj_2 in Heq as [-> _].
  - intros a _. apply subdirs_NoDup.
  - apply subdirs_NoDup.
Qed.
(* ================================================================== *)
(** * Further properties of the clients *)
(* ================================================================== *)

(** X1: whatever the replies and the outcome, [api_search_with_retries]
    sends at most [max_retries] requests, all of them the same search to
    the catalog endpoint, changes no file and prints nothing. *)
Theorem api_search_with_retries_requests (env : Env) (timeout : Z)
    (api_interval : Q) (max_retries : Z) (backoff jitter : Q)
    (params : gmap string string) (w : World) :
  let w' := (api_search_with_retries env timeout api_interval max_retries
               backoff jitter params w).2 in
  (∃ k, k ≤ Z.to_nat max_retries
        ∧ sent w' = sent w ++ repeat (api_request timeout params) k)
  ∧ files w' = files w
  ∧ stdout w' = stdout w
  ∧ stderr w' = stderr w.
Proof.
  pose proof (does_api_search_with_retries env timeout api_interval
                max_retries backoff jitter no_file params w) as Heff.
  split_and!.
  - by eapply effect_one_request.
  - by eapply effect_no_file.
  - apply Heff.
  - apply Heff.
Qed.

(** X2: when the first reply has a status that is not retryable, it
    decides the search after that one request: 200 gives the [results]
    of the JSON object in the reply (none if it has no [results]),
    another status from 400 to 599 raises the HTTP error, and any other
    status gives the empty list. *)
Theorem api_search_with_retries_first_reply (env : Env) (timeout : Z)
    (api_interval : Q) (max_retries : Z) (backoff jitter : Q)
    (params : gmap string string) (w : World) (r : Response) :
  (∀ n, (0 <= random env n)%Q ∧ (random env n <= 1)%Q) →
  (0 < max_retries)%Z →
  serve env (length (sent w)) (api_request timeout params) = inr r →
  retryable (status_code r) = false →
  ∃ w',
    api_search_with_retries env timeout api_interval max_retries backoff
      jitter params w
    = (if (status_code r =? 200)%Z then Ok (default [] (json_results r))
       else if (400 <=? status_code r)%Z && (status_code r <? 600)%Z
       then Raised (HTTPError (status_code r))
       else Ok [], w')
    ∧ sent w' = sent w ++ [api_request timeout params]
    ∧ files w' = files w.
Proof.
  intros Hrandom Hretries Hserve Hretry. unfold api_search_with_retries.
  destruct (Z.to_nat max_retries) as [|n] eqn:Hn; [lia|].
  cbn [seq]. by apply api_loop_first_reply.
Qed.

Lemma api_search_with_retries_first_reply_witness :
  ∃ w',
    api_search_with_retries Sample.not_found 15 1 5 (18 # 10) (3 # 10) ∅
      Example.world
    = (Raised (HTTPError 404), w')
    ∧ sent w' = sent Example.world ++ [api_request 15 ∅]
    ∧ files w' = files Example.world.
Proof.
  apply (api_search_with_retries_first_reply Sample.not_found 15 1 5
           (18 # 10) (3 # 10) ∅ Example.world (Example.reply 404 ∅)).
  - intros n. simpl. split; lra.
  - lia.
  - reflexivity.
  - reflexivity.
Defined.

(** X3: when the powers [backoff ** attempt] of the [max_retries]
    attempts stay in the range of floats, and every one of the attempts
    ends in a timeout, a failed connection or a retryable status whose
    [Retry-After] header is absent, empty or a plain decimal number and
    whose delay is not negative, [api_search_with_retries] sends
    [max_retries] requests and then raises the exception of the last
    attempt that ended in one, even if later attempts got a reply; it
    returns the empty list only if no attempt raised. *)
Theorem api_search_with_retries_exhausted (env : Env) (timeout : Z)
    (api_interval : Q) (max_retries : Z) (backoff jitter : Q)
    (params : gmap string string) (w : World) :
  (∀ n, (0 <= random env n)%Q ∧ (random env n <= 1)%Q) →
  (0 <= backoff)%Q →
  powers_in_range backoff (Z.to_nat max_retries) →
  (∀ i, i < Z.to_nat max_retries →
        transient backoff i
          (serve env (length (sent w) + i) (api_request timeout params))) →
  ∃ w',
    api_search_with_retries env timeout api_interval max_retries backoff
      jitter params w
    = (match last_failure env (api_request timeout params)
               (length (sent w)) (Z.to_nat max_retries) None with
       | Some e => Raised e
       | None => Ok []
       end, w')
    ∧ length (sent w') = length (sent w) + Z.to_nat max_retries.
Proof.
  intros Hrandom Hbackoff _ Hserve. unfold api_search_with_retries.
  by apply api_loop_transient.
Qed.

Lemma api_search_with_retries_exhausted_witness :
  ∃ w',
    api_search_with_retries Sample.timeout_then_throttling 15 1 5 (18 # 10)
      (3 # 10) ∅ Example.world
    = (Raised Timeout, w')
    ∧ length (sent w') = length (sent Example.world) + Z.to_nat 5.
Proof.
  apply (api_search_with_retries_exhausted Sample.timeout_then_throttling
           15 1 5 (18 # 10) (3 # 10) ∅ Example.world).
  - intros n. simpl. split; lra.
  - lra.
  - intros i Hi.
    do 5 (destruct i as [|i]; [apply Qle_bool_imp_le; reflexivity|]). lia.
  - intros i Hi. destruct i as [|i]; simpl.
    + by left.
    + split_and!; [reflexivity|exact I|by apply Qpower_0_le].
Defined.



(** X5: [request_cdn_stream] sends at most [max_retries] requests, all
    of them for the given URL, changes no file and prints nothing,
    whatever the replies. *)
Theorem request_cdn_stream_requests (env : Env) (timeout : Z)
    (cdn_interval : Q) (max_retries : Z) (backoff jitter : Q)
    (url : string) (w : World) :
  let w' := (request_cdn_stream env timeout cdn_interval max_retries
               backoff jitter url w).2 in
  (∃ k, k ≤ Z.to_nat max_retries
        ∧ sent w' = sent w ++ repeat (cdn_request timeout url) k)
  ∧ files w' = files w
  ∧ stdout w' = stdout w
  ∧ stderr w' = stderr w.
Proof.
  pose proof (does_request_cdn_stream env timeout cdn_interval max_retries
                backoff jitter no_file url w) as Heff.
  split_and!.
  - by eapply effect_one_request.
  - by eapply effect_no_file.
  - apply Heff.
  - apply Heff.
Qed.

(** X6: a response that [request_cdn_stream] returns is an image (status
    200 and a content type with [image] in it), and it is the reply to
    the last request sent, which asked for the given URL. *)
Theorem request_cdn_stream_image (env : Env) (timeout : Z)
    (cdn_interval : Q) (max_retries : Z) (backoff jitter : Q)
    (url : string) (w w' : World) (r : Response) :
  request_cdn_stream env timeout cdn_interval max_retries backoff jitter
    url w = (Ok (Some r), w') →
  is_image r
  ∧ ∃ reqs,
      sent w' = reqs ++ [cdn_request timeout url]
      ∧ serve env (length reqs) (cdn_request timeout url) = inr r.
Proof. apply cdn_loop_some. Qed.

Lemma request_cdn_stream_image_witness :
  is_image Sample.jpeg
  ∧ ∃ reqs,
      sent (request_cdn_stream Sample.cdn_3000 15 (6 # 10) 5 (18 # 10)
              (3 # 10) "https://a/3000x3000bb.jpg" Example.world).2
      = reqs ++ [cdn_request 15 "https://a/3000x3000bb.jpg"]
      ∧ serve Sample.cdn_3000 (length reqs)
          (cdn_request 15 "https://a/3000x3000bb.jpg") = inr Sample.jpeg.
Proof.
  apply (request_cdn_stream_image Sample.cdn_3000 15 (6 # 10) 5 (18 # 10)
           (3 # 10) "https://a/3000x3000bb.jpg" Example.world).
  vm_compute. reflexivity.
Defined.

(** X7: when the random source stays in [0, 1], the backoff factor is
    not negative and its powers [backoff ** attempt] for the
    [max_retries] attempts stay in the range of floats, and every reply
    for the URL is either a failure of the request
    ([requests.RequestException]) or a response whose [Retry-After]
    header is absent, empty or a plain decimal number and whose delay is
    not negative, [request_cdn_stream] raises nothing: it returns a
    response or [None]. *)
Theorem request_cdn_stream_returns (env : Env) (timeout : Z)
    (cdn_interval : Q) (max_retries : Z) (backoff jitter : Q)
    (url : string) (w : World) :
  (∀ n, (0 <= random env n)%Q ∧ (random env n <= 1)%Q) →
  (0 <= backoff)%Q →
  powers_in_range backoff (Z.to_nat max_retries) →
  (∀ n, harmless backoff (serve env n (cdn_request timeout url))) →
  ∃ res w',
    request_cdn_stream env timeout cdn_interval max_retries backoff jitter
      url w = (Ok res, w').
Proof.
  intros Hrandom Hbackoff _ Hserve. unfold request_cdn_stream.
  by apply cdn_loop_returns.
Qed.

Lemma request_cdn_stream_returns_witness :
  ∃ res w',
    request_cdn_stream Sample.offline 15 (6 # 10) 5 (18 # 10) (3 # 10)
      "https://a/3000x3000bb.jpg" Example.world = (Ok res, w').
Proof.
  apply (request_cdn_stream_returns Sample.offline).
  - intros n. simpl. split; lra.
  - lra.
  - intros i Hi.
    do 5 (destruct i as [|i]; [apply Qle_bool_imp_le; reflexivity|]). lia.
  - intros n. reflexivity.
Defined.

(** X8: [pick_largest_working_art_stream] sends at most
    [15 * max_retries] requests, each of them for one of the candidate
    URLs of the artwork URL, changes no file and prints nothing. *)
Theorem pick_largest_working_art_stream_requests (env : Env) (timeout : Z)
    (cdn_interval : Q) (max_retries : Z) (backoff jitter : Q)
    (artwork_url_100 : string) (w : World) :
  let w' := (pick_largest_working_art_stream env timeout cdn_interval
               max_retries backoff jitter artwork_url_100 w).2 in
  sends (λ req, ∃ u, u ∈ build_upscaled_urls artwork_url_100
                     ∧ req = cdn_request timeout u)
        (15 * Z.to_nat max_retries) w w'
  ∧ files w' = files w
  ∧ stdout w' = stdout w
  ∧ stderr w' = stderr w.
Proof.
  pose proof (does_pick_largest_working_art_stream env timeout cdn_interval
                max_retries backoff jitter no_file artwork_url_100 w)
    as Heff.
  split_and!; [apply Heff|by eapply effect_no_file|apply Heff..].
Qed.

(** X9: what [pick_largest_working_art_stream] returns is an image, the
    candidate URL it was asked for, and its content type in lower case;
    the image is the reply to the last request sent. *)
Theorem pick_largest_working_art_stream_image (env : Env) (timeout : Z)
    (cdn_interval : Q) (max_retries : Z) (backoff jitter : Q)
    (artwork_url_100 : string) (w w' : World) (r : Response)
    (u ct : string) :
  pick_largest_working_art_stream env timeout cdn_interval max_retries
    backoff jitter artwork_url_100 w = (Ok (Some (r, u, ct)), w') →
  u ∈ build_upscaled_urls artwork_url_100
  ∧ is_image r
  ∧ ct = Text.lower (default "" (headers r !! "Content-Type"))
  ∧ ∃ reqs,
      sent w' = reqs ++ [cdn_request timeout u]
      ∧ serve env (length reqs) (cdn_request timeout u) = inr r.
Proof. apply pick_loop_some. Qed.

Lemma pick_largest_working_art_stream_image_witness :
  "https://a/3000x3000bb.jpg" ∈ build_upscaled_urls "https://a/100x100bb.jpg"
  ∧ is_image Sample.jpeg
  ∧ "image/jpeg"
    = Text.lower (default "" (headers Sample.jpeg !! "Content-Type"))
  ∧ ∃ reqs,
      sent (pick_largest_working_art_stream Sample.cdn_3000 15 (6 # 10) 5
              (18 # 10) (3 # 10) "https://a/100x100bb.jpg" Example.world).2
      = reqs ++ [cdn_request 15 "https://a/3000x3000bb.jpg"]
      ∧ serve Sample.cdn_3000 (length reqs)
          (cdn_request 15 "https://a/3000x3000bb.jpg") = inr Sample.jpeg.
Proof.
  apply (pick_largest_working_art_stream_image Sample.cdn_3000 15 (6 # 10)
           5 (18 # 10) (3 # 10) "https://a/100x100bb.jpg" Example.world).
  vm_compute. reflexivity.
Defined.
(* ================================================================== *)
(** * Further properties of the download and of the run *)
(* ================================================================== *)

(** X10: [download_stream_to_file] is all or nothing for the
    destination: if it returns, the stream did not break, the
    destination holds the whole content and the [.part] file is gone; if
    it raises, the destination is as it was before.  Either way no file
    but these two is touched. *)
Theorem download_stream_to_file_all_or_nothing (resp : Response)
    (dest : Path) (w : World) :
  let '(res, w') := download_stream_to_file resp dest w in
  match res with
  | Ok _ =>
      stream_error resp = None
      ∧ files w' !! dest = Some (File (content resp))
      ∧ files w' !! part_path dest = None
  | Raised _ => files w' !! dest = files w !! dest
  end
  ∧ keeps_files (.∈ [dest; part_path dest]) w w'.
Proof.
  pose proof (download_stream_to_file_cases resp dest w) as Hcases.
  pose proof (does_download_stream_to_file no_request
                (.∈ [dest; part_path dest]) resp dest
                ltac:(set_solver) ltac:(set_solver) w) as (_ & Hkeep & _).
  pose proof (part_path_ne dest) as Hne.
  destruct (download_stream_to_file resp dest w) as [[[]|e] w'];
    cbn [snd] in *; split; try done.
  destruct Hcases as (Hstream & -> & _). split_and!; [done|..].
  - by rewrite lookup_insert_eq.
  - rewrite lookup_insert_ne by done. by rewrite lookup_delete_eq.
Qed.

(** X11: the download succeeds when the directory of the destination
    exists, neither the destination nor its [.part] name is a directory,
    and the stream does not break. *)
Theorem download_stream_to_file_succeeds (resp : Response) (dest : Path)
    (w : World) :
  is_dir (files w) (parent dest) = true →
  is_dir (files w) dest = false →
  is_dir (files w) (part_path dest) = false →
  stream_error resp = None →
  ∃ w',
    download_stream_to_file resp dest w = (Ok (), w')
    ∧ files w' = <[dest := File (content resp)]>
                   (delete (part_path dest) (files w)).
Proof.
  intros Hparent Hdest Htmp Hstream.
  destruct (download_stream_to_file_ok resp dest w) as [w' Hrun];
    [done..|].
  pose proof (download_stream_to_file_cases resp dest w) as Hcases.
  rewrite Hrun in Hcases. exists w'. split; [done|]. apply Hcases.
Qed.

Lemma download_stream_to_file_succeeds_witness :
  ∃ w',
    download_stream_to_file Sample.jpeg (Example.album_dir ++ ["cover.jpg"])
      Example.world = (Ok (), w')
    ∧ files w'
      = <[Example.album_dir ++ ["cover.jpg"] := File (content Sample.jpeg)]>
          (delete (part_path (Example.album_dir ++ ["cover.jpg"]))
             (files Example.world)).
Proof.
  apply (download_stream_to_file_succeeds Sample.jpeg
           (Example.album_dir ++ ["cover.jpg"]) Example.world).
  - vm_compute. reflexivity.
  - vm_compute. reflexivity.
  - vm_compute. reflexivity.
  - reflexivity.
Defined.



(** X13: whatever the replies and the outcome, [process_album] sends at
    most [17 * max_retries] requests (two searches and fifteen
    candidates), each to the catalog or for a candidate image; it
    creates, changes or removes no file but [cover.jpg], [cover.png] and
    their [.part] files in the album directory; and it prints nothing. *)
Theorem process_album_effect (env : Env) (args : Args) (album_dir : Path)
    (w : World) :
  let w' := (process_album env args album_dir w).2 in
  sends (λ req, to_catalog req ∨ to_cdn (timeout args) req)
        (17 * Z.to_nat (max_retries args)) w w'
  ∧ keeps_files (.∈ cover_paths album_dir) w w'
  ∧ stdout w' = stdout w
  ∧ stderr w' = stderr w.
Proof.
  destruct (does_process_album env args album_dir w) as (Hs & Hf & Ho & He).
  split_and!; try done.
  - eapply sends_weaken; [| |exact Hs].
    + intros req [Hreq | [_ Hreq]]; [by left|by right].
    + destruct (dry_run args); lia.
  - eapply keeps_files_weaken; [|exact Hf]. by intros p [_ Hp].
Qed.

(** X14: in a dry run [process_album] reports no change, leaves every
    file as it is, and sends requests to the catalog only, at most
    [2 * max_retries] of them: the CDN is not contacted. *)
Theorem process_album_dry_run (env : Env) (args : Args) (album_dir : Path)
    (w : World) :
  dry_run args = true →
  let '(res, w') := process_album env args album_dir w in
  (∀ msg, res ≠ Ok (true, msg))
  ∧ files w' = files w
  ∧ sends to_catalog (2 * Z.to_nat (max_retries args)) w w'.
Proof.
  intros Hdry.
  pose proof (does_process_album env args album_dir w) as (Hs & Hf & _).
  destruct (process_album env args album_dir w) as [res w'] eqn:Hrun.
  cbn [snd] in *. rewrite Hdry in *. split_and!.
  - intros msg ->. apply process_album_changed in Hrun as [Hno _].
    congruence.
  - apply map_eq. intros p. apply Hf. by intros [? _].
  - eapply sends_weaken; [| |exact Hs]; [|done].
    by intros req [Hreq | [? _]].
Qed.

Lemma process_album_dry_run_witness :
  let '(res, w') :=
    process_album Sample.cdn_3000 Sample.dry_args Example.album_dir
      Example.world in
  (∀ msg, res ≠ Ok (true, msg))
  ∧ files w' = files Example.world
  ∧ sends to_catalog (2 * Z.to_nat (max_retries Sample.dry_args))
      Example.world w'.
Proof.
  apply (process_album_dry_run Sample.cdn_3000 Sample.dry_args
           Example.album_dir Example.world).
  reflexivity.
Defined.

(** X15: a whole run sends at most [17 * max_retries] requests for each
    album directory found ([2 * max_retries] in a dry run), each to the
    catalog or, unless it is a dry run, for a candidate image; and the
    only files it creates, changes or removes are [cover.jpg],
    [cover.png] and their [.part] files in those album directories. *)
Theorem main_effect_bounded (env : Env) (args : Args) (w : World) :
  let w' := (main env args w).2 in
  let album_dirs := find_album_dirs (files w) (root args) in
  sends (may_request args) (length album_dirs * request_budget args) w w'
  ∧ keeps_files (may_write args album_dirs) w w'.
Proof.
  cbn zeta. destruct (main env args w) as [r w'] eqn:Hmain.
  by apply (main_effect env args w r w').
Qed.

(** X16: a dry run of [main] leaves every file as it is and contacts
    the catalog only. *)
Theorem main_dry_run (env : Env) (args : Args) (w : World) :
  dry_run args = true →
  let w' := (main env args w).2 in
  files w' = files w
  ∧ ∃ reqs, sent w' = sent w ++ reqs ∧ Forall to_catalog reqs.
Proof.
  intros Hdry. cbn zeta. destruct (main env args w) as [r w'] eqn:Hmain.
  destruct (main_effect env args w r w' Hmain)
    as ((reqs & Hsent & _ & Hreqs) & Hkeep).
  cbn [snd]. split.
  - apply map_eq. intros p. apply Hkeep. intros [Hno _]. congruence.
  - exists reqs. split; [done|]. eapply Forall_impl; [done|].
    intros req [Hreq | [Hno _]]; [done|congruence].
Qed.

Lemma main_dry_run_witness :
  let w' := (main Sample.cdn_3000 Sample.dry_args Example.world).2 in
  files w' = files Example.world
  ∧ ∃ reqs, sent w' = sent Example.world ++ reqs ∧ Forall to_catalog reqs.
Proof.
  apply (main_dry_run Sample.cdn_3000 Sample.dry_args Example.world).
  reflexivity.
Defined.

(** X17: when the root is missing or is not a directory, [main] prints
    one line to the standard error, nothing to the standard output,
    sends no request, touches no file and ends with exit status 1. *)
Theorem main_missing_root (env : Env) (args : Args) (w : World) :
  is_dir (files w) (root args) = false →
  main env args w
  = (Ok 1%Z,
     mkWorld (now w) (slept w) (draws w) (sent w) (pacer_last w) (files w)
       (stdout w)
       (stderr w ++ ["Root path does not exist or is not a directory: "
                     +:+ path_str (root args)])).
Proof.
  intros Hroot. unfold main, bind at 1, get_files.
  rewrite Hroot. by rewrite orb_true_r.
Qed.

Lemma main_missing_root_witness :
  main Example.no_artwork
    (mkArgs ["nowhere"] "US" 200 false false 15 1 (6 # 10) 5 (18 # 10)
       (3 # 10))
    Example.world
  = (Ok 1%Z,
     mkWorld 1000 [] 0 [] ∅ Example.library []
       ["Root path does not exist or is not a directory: /nowhere"]).
Proof.
  apply (main_missing_root Example.no_artwork
           (mkArgs ["nowhere"] "US" 200 false false 15 1 (6 # 10) 5
              (18 # 10) (3 # 10))
           Example.world).
  vm_compute. reflexivity.
Defined.

(** X18: when the root is a directory but holds no artist directory
    with an album directory in it, [main] prints that no album
    directories were found, sends no request, touches no file and ends
    with exit status 0. *)
Theorem main_no_album_dirs (env : Env) (args : Args) (w : World) :
  is_dir (files w) (root args) = true →
  find_album_dirs (files w) (root args) = [] →
  main env args w
  = (Ok 0%Z,
     mkWorld (now w) (slept w) (draws w) (sent w) ∅ (files w)
       (stdout w ++ ["No Artist/Album directories found."]) (stderr w)).
Proof.
  intros Hroot Hnone. unfold main, bind at 1, get_files.
  rewrite Hroot, Hnone.
  assert (exists_ (files w) (root args) = true) as ->.
  { unfold exists_, is_dir in *. apply bool_decide_eq_true.
    apply bool_decide_eq_true in Hroot. by rewrite Hroot. }
  done.
Qed.

Lemma main_no_album_dirs_witness :
  main Example.no_artwork Example.args
    (mkWorld 1000 [] 0 [] ∅ (<[["music"] := Dir]> ∅) [] [])
  = (Ok 0%Z,
     mkWorld 1000 [] 0 [] ∅ (<[["music"] := Dir]> ∅)
       ["No Artist/Album directories found."] []).
Proof.
  etransitivity.
  - apply (main_no_album_dirs Example.no_artwork Example.args
             (mkWorld 1000 [] 0 [] ∅ (<[["music"] := Dir]> ∅) [] [])).
    + vm_compute. reflexivity.
    + vm_compute. reflexivity.
  - reflexivity.
Defined.



(** X20: when overwriting is off and every album directory found has a
    cover already, the whole run sends no request and leaves every file
    as it is. *)
Theorem main_covered_library (env : Env) (args : Args) (w : World) :
  force args = false →
  all_covered (files w) (find_album_dirs (files w) (root args)) →
  let w' := (main env args w).2 in
  sent w' = sent w ∧ files w' = files w.
Proof.
  intros Hforce Hall. cbn zeta.
  unfold main, bind, get_files, print_stderr, new_Pacer, print, ret.
  destruct (_ || _); [done|].
  destruct (length _ =? 0); [done|].
  match goal with
  | |- context [main_loop env args ?t ?i ?ds ?c ?w0] =>
      assert (all_covered (files w0) ds) as Hall0 by exact Hall;
      destruct (main_loop env args t i ds c w0) as [r w1] eqn:Hloop;
      destruct (main_loop_covered env args t ds i c w0 r w1 Hforce Hall0
                  Hloop) as [Hs Hf]
  end.
  by destruct r.
Qed.

Lemma main_covered_library_witness :
  let w' := (main Example.no_artwork Example.args Example.covered_world).2 in
  sent w' = sent Example.covered_world
  ∧ files w' = files Example.covered_world.
Proof.
  apply (main_covered_library Example.no_artwork Example.args
           Example.covered_world).
  - reflexivity.
  - intros d Hd. vm_compute in Hd.
    apply list_elem_of_singleton in Hd as ->. by vm_compute.
Defined.

(** X21: the counting looks for the error words in the whole message,
    which ends with the artist and album names: an album that is merely
    skipped because it has a cover is counted under errors when its
    name contains [error], [failed], [network] or
    [no accessible artwork], in either case. *)
Theorem skipped_album_counted_as_error (env : Env) (args : Args)
    (total idx : nat) (album_dir : Path) (c : Counters) (w : World) :
  force args = false →
  is_disc_subfolder (name album_dir) = false →
  album_has_cover (files w) album_dir ≠ None →
  has_error_word (name album_dir) →
  ∃ w',
    main_step env args total idx album_dir c w
    = (Ok (Continue (mkCounters (changed c) (skipped c) (errors c + 1))),
       w')
    ∧ sent w' = sent w ∧ files w' = files w.
Proof.
  intros Hforce Hdisc Hcover (k & Hk & Hin).
  unfold main_step, try_except, bind at 1, process_album.
  rewrite Hdisc. unfold bind at 1, get_files. rewrite Hforce.
  destruct (album_has_cover (files w) album_dir) as [existing|]; [|done].
  unfold ret at 1. cbn beta iota. unfold bind, print, ret.
  assert (tally c false
            (msg_exists existing album_dir (name (parent album_dir))
               (name album_dir))
          = mkCounters (changed c) (skipped c) (errors c + 1)) as ->.
  { unfold tally.
    replace (existsb _ error_words) with true; [done|].
    symmetry. apply existsb_exists. exists k.
    split; [by apply list_elem_of_In|].
    unfold msg_exists. rewrite !lower_app.
    repeat first [exact Hin | apply contains_app_r]. }
  by eexists.
Qed.

Lemma skipped_album_counted_as_error_witness :
  ∃ w',
    main_step Example.no_artwork Example.args 1 1 Sample.error_album
      (mkCounters 0 0 0) Sample.error_world
    = (Ok (Continue (mkCounters 0 0 (0 + 1))), w')
    ∧ sent w' = sent Sample.error_world
    ∧ files w' = files Sample.error_world.
Proof.
  apply (skipped_album_counted_as_error Example.no_artwork Example.args 1 1
           Sample.error_album (mkCounters 0 0 0) Sample.error_world).
  - reflexivity.
  - vm_compute. reflexivity.
  - vm_compute. discriminate.
  - exists "error". split; [by left|]. vm_compute. reflexivity.
Defined.

(** X22: when the random source gives no negative number, [Pacer.wait]
    returns, leaves the marks alone, and on return at least
    [min_interval] has passed since the mark of the key (since time 0 if
    the key has no mark). *)
Theorem Pacer_wait_spacing (env : Env) (key : string)
    (min_interval jitter : Q) (w : World) :
  (∀ n, (0 <= random env n)%Q) →
  ∃ w',
    Pacer_wait env key min_interval jitter w = (Ok (), w')
    ∧ pacer_last w' = pacer_last w
    ∧ (now w <= now w')%Q
    ∧ (min_interval <= now w' - default 0%Q (pacer_last w' !! key))%Q.
Proof. intros Hrandom. by apply Pacer_wait_interval. Qed.

Lemma Pacer_wait_spacing_witness :
  ∃ w',
    Pacer_wait Example.no_artwork "itunes_api" 1 (3 # 10) Sample.marked_world
    = (Ok (), w')
    ∧ pacer_last w' = pacer_last Sample.marked_world
    ∧ (now Sample.marked_world <= now w')%Q
    ∧ (1 <= now w' - default 0%Q (pacer_last w' !! "itunes_api"))%Q.
Proof.
  apply (Pacer_wait_spacing Example.no_artwork "itunes_api" 1 (3 # 10)
           Sample.marked_world).
  intros n. simpl. lra.
Defined.
(* ================================================================== *)
(** * Further properties of the scanner and of the names *)
(* ================================================================== *)

(** X23: among the names of ASCII characters, [is_disc_subfolder]
    accepts exactly those that, with the white space around them
    stripped, are [CD], [Disc] or [Digital Media] followed by a number,
    [Digital Media] followed by a number in brackets, or a number in
    brackets, in any letter case and with optional white space between
    the words and the number. *)
Theorem is_disc_subfolder_names (name : string) :
  ascii_text name →
  is_disc_subfolder name = true
  ↔ ∃ pre core post,
      name = pre +:+ core +:+ post
      ∧ blank pre ∧ blank post ∧ disc_name core.
Proof.
  intros _. unfold is_disc_subfolder. split.
  - intros Hname.
    destruct (strip_split name) as (pre & post & Hsplit & Hpre & Hpost).
    apply disc_name_matched in Hname as (core & tail & Hstrip & Hcore & Hend).
    exists pre, core, (tail +:+ post). split_and!; try done.
    + rewrite Hsplit at 1. rewrite Hstrip. by rewrite string_app_assoc.
    + by apply at_end_blank.
  - intros (pre & core & post & -> & Hpre & Hpost & Hcore).
    destruct (disc_name_tight core Hcore) as (Hfirst & Hlast & Hne).
    rewrite strip_tight by done. by apply disc_name_accepted.
Qed.

Lemma is_disc_subfolder_names_witness :
  is_disc_subfolder " digital  MEDIA [12] " = true
  ↔ ∃ pre core post,
      " digital  MEDIA [12] " = pre +:+ core +:+ post
      ∧ blank pre ∧ blank post ∧ disc_name core.
Proof.
  apply (is_disc_subfolder_names " digital  MEDIA [12] ").
  vm_compute. reflexivity.
Defined.

(** X24: [album_has_cover] returns [None] exactly when the album
    directory has neither an entry [cover.jpg] nor an entry [cover.png]
    (a directory of that name counts as well as a file); otherwise it
    returns [cover.jpg] if that is there, and [cover.png] only if
    [cover.jpg] is not. *)
Theorem album_has_cover_prefers_jpg (fs : gmap Path Node)
    (album_dir : Path) :
  (album_has_cover fs album_dir = None
   ↔ fs !! (album_dir ++ ["cover.jpg"]) = None
     ∧ fs !! (album_dir ++ ["cover.png"]) = None)
  ∧ (album_has_cover fs album_dir = Some (album_dir ++ ["cover.jpg"])
     ↔ fs !! (album_dir ++ ["cover.jpg"]) ≠ None)
  ∧ (album_has_cover fs album_dir = Some (album_dir ++ ["cover.png"])
     ↔ fs !! (album_dir ++ ["cover.jpg"]) = None
       ∧ fs !! (album_dir ++ ["cover.png"]) ≠ None).
Proof.
  assert (album_dir ++ ["cover.jpg"] ≠ album_dir ++ ["cover.png"]) as Hne
    by (intros Heq; by apply app_inv_head in Heq).
  unfold album_has_cover, exists_. simpl.
  destruct (fs !! (album_dir ++ ["cover.jpg"])) as [jpg|] eqn:Hjpg;
    destruct (fs !! (album_dir ++ ["cover.png"])) as [png|] eqn:Hpng;
    repeat case_bool_decide;
    try (exfalso; naive_solver eauto using is_Some_None);
    naive_solver.
Qed.

(** X25: [find_album_dirs] yields exactly the directories two levels
    below a root that is a directory, [root/artist/album] with
    [root/artist] a directory too; files, and directories at other
    depths, are not yielded; and every album directory is yielded
    once. *)
Theorem find_album_dirs_two_levels (fs : gmap Path Node) (root : Path) :
  (∀ q,
     q ∈ find_album_dirs fs root
     ↔ fs !! root = Some Dir
       ∧ ∃ artist album,
           q = root ++ [artist; album]
           ∧ fs !! (root ++ [artist]) = Some Dir
           ∧ fs !! q = Some Dir)
  ∧ NoDup (find_album_dirs fs root).
Proof.
  split; [apply find_album_dirs_elem|apply find_album_dirs_NoDup].
Qed.

(** X26: the similarity of two texts is a number from 0 to 1, whatever
    the texts, and so is the weighted score of a record: the matching
    blocks that the sequence matcher finds lie inside the two sequences
    and do not overlap, so they match no more elements than either
    sequence has. *)
Theorem similarity_between_0_and_1 (a b artist album : string)
    (r : Record_) :
  (0 <= similarity a b)%Q ∧ (similarity a b <= 1)%Q
  ∧ (0 <= score_of artist album r)%Q ∧ (score_of artist album r <= 1)%Q.
Proof.
  destruct (similarity_range a b), (score_of_range artist album r). done.
Qed.


(** X28: [normalize_text], and with it [similarity], does not see the
    case of the letters nor white space around the text: a text that
    spells another one in a different case, with white space before and
    after it, has the same normal form and the same similarity to every
    text. *)
Theorem similarity_ignores_case_and_padding (a a' pre post b : string) :
  spells a a' → blank pre → blank post →
  normalize_text (pre +:+ a' +:+ post) = normalize_text a
  ∧ similarity (pre +:+ a' +:+ post) b = similarity a b
  ∧ similarity b (pre +:+ a' +:+ post) = similarity b a.
Proof.
  intros Hspell Hpre Hpost.
  pose proof (normalize_text_padded a a' pre post Hspell Hpre Hpost) as Hn.
  unfold similarity. by rewrite Hn.
Qed.

Lemma similarity_ignores_case_and_padding_witness :
  normalize_text ("  " +:+ "ABBEY Road" +:+ " ") = normalize_text "Abbey Road"
  ∧ similarity ("  " +:+ "ABBEY Road" +:+ " ") "Abbey Road (Remastered)"
    = similarity "Abbey Road" "Abbey Road (Remastered)"
  ∧ similarity "Abbey Road (Remastered)" ("  " +:+ "ABBEY Road" +:+ " ")
    = similarity "Abbey Road (Remastered)" "Abbey Road".
Proof.
  apply (similarity_ignores_case_and_padding "Abbey Road" "ABBEY Road"
           "  " " " "Abbey Road (Remastered)").
  - reflexivity.
  - reflexivity.
  - reflexivity.
Defined.
(* ================================================================== *)
(** * Further properties: no network, and the largest image *)
(* ================================================================== *)



(** X30: [pick_largest_working_art_stream] returns the first candidate
    that works: when each candidate before it is rejected at once (a
    reply that is not an image, with a status that is not retryable)
    and the reply for it is an image, the function returns that image
    with its URL and lower-case content type, after one request for
    each of the candidates up to it, in the order of the candidate
    list, which goes from the largest size down. *)
Theorem pick_largest_working_art_stream_first_working (env : Env)
    (timeout : Z) (cdn_interval : Q) (max_retries : Z) (backoff jitter : Q)
    (artwork_url_100 : string) (before : list string) (u : string)
    (after : list string) (w : World) (r : Response) :
  (∀ n, (0 <= random env n)%Q ∧ (random env n <= 1)%Q) →
  (0 < max_retries)%Z →
  build_upscaled_urls artwork_url_100 = before ++ u :: after →
  (∀ i u', before !! i = Some u' →
           rejects (serve env (length (sent w) + i)
                      (cdn_request timeout u'))) →
  serve env (length (sent w) + length before) (cdn_request timeout u)
    = inr r →
  is_image r →
  ∃ w',
    pick_largest_working_art_stream env timeout cdn_interval max_retries
      backoff jitter artwork_url_100 w
    = (Ok (Some (r, u,
                 Text.lower (default "" (headers r !! "Content-Type")))),
       w')
    ∧ sent w' = sent w ++ map (cdn_request timeout) (before ++ [u]).
Proof.
  intros Hrandom Hretries Hurls Hbefore Hu Himage.
  unfold pick_largest_working_art_stream. rewrite Hurls.
  by apply pick_loop_first_working.
Qed.

Lemma pick_largest_working_art_stream_first_working_witness :
  ∃ w',
    pick_largest_working_art_stream Sample.cdn_3000 15 (6 # 10) 5 (18 # 10)
      (3 # 10) "https://a/100x100bb.jpg" Example.world
    = (Ok (Some (Sample.jpeg, "https://a/3000x3000bb.jpg",
                 Text.lower
                   (default "" (headers Sample.jpeg !! "Content-Type")))),
       w')
    ∧ sent w'
      = sent Example.world
        ++ map (cdn_request 15)
             (take 7 (build_upscaled_urls "https://a/100x100bb.jpg")
              ++ ["https://a/3000x3000bb.jpg"]).
Proof.
  apply (pick_largest_working_art_stream_first_working Sample.cdn_3000 15
           (6 # 10) 5 (18 # 10) (3 # 10) "https://a/100x100bb.jpg"
           (take 7 (build_upscaled_urls "https://a/100x100bb.jpg"))
           "https://a/3000x3000bb.jpg"
           (drop 8 (build_upscaled_urls "https://a/100x100bb.jpg"))
           Example.world Sample.jpeg).
  - intros n. simpl. split; lra.
  - lia.
  - vm_compute. reflexivity.
  - intros i u' Hi.
    do 7 (destruct i as [|i];
          [vm_compute in Hi; injection Hi as <-; vm_compute;
           split; [reflexivity|intros [Hst _]; discriminate]|]).
    vm_compute in Hi. discriminate.
  - vm_compute. reflexivity.
  - vm_compute. split; reflexivity.
Defined.
